(** * Linear-chain CRF (crf.py): a shallow embedding and its verification

    The development follows [src/crf.py] function by function.  numpy's
    float64 arrays are idealised as lists of real numbers ([R] of the
    Standard Library), nested lists for the 2-D and 3-D tables; Python
    dictionaries are stdpp [gmap]s; Python exceptions are the [Err] results
    of a small error monad. *)

From Stdlib Require Import Reals Lra Lia ZArith.
From stdpp Require Import base option list gmap strings.

(** ** Python exceptions as an error monad *)

Inductive exn : Set :=
  KeyError | IndexError | ValueError | TypeError | OSError.

Inductive result (A : Type) : Type :=
| Ok (a : A)
| Err (e : exn).
Arguments Ok {A} a.
Arguments Err {A} e.

#[global] Instance result_ret : MRet result := fun A a => Ok a.
#[global] Instance result_bind : MBind result := fun A B f m =>
  match m with
  | Ok a => f a
  | Err e => Err e
  end.

(** [for v in l: body] threading the loop's mutable variables [s]. *)
Fixpoint foldM {X S : Type} (body : X → S → result S) (l : list X) (s : S)
  : result S :=
  match l with
  | [] => Ok s
  | v :: l' => s' ← body v s; foldM body l' s'
  end.

(** [range(a, b)] *)
Definition py_range (a b : nat) : list nat := seq a (b - a).

(** Subscript on a Python list with an [int] index: a negative index counts
    from the end, anything else out of range raises [IndexError]. *)
Definition getitem {A : Type} (x : list A) (j : Z) : result A :=
  let j' := if (j <? 0)%Z then (j + Z.of_nat (length x))%Z else j in
  if (j' <? 0)%Z then Err IndexError
  else match x !! Z.to_nat j' with
       | Some a => Ok a
       | None => Err IndexError
       end.

(** Subscript of a numpy array (or a list) by a loop index that is never
    negative. *)
Definition get {A : Type} (l : list A) (i : nat) : result A :=
  match l !! i with
  | Some a => Ok a
  | None => Err IndexError
  end.

(** [d[k]] on a dictionary *)
Definition dict_get `{Countable K} {V : Type} (d : gmap K V) (k : K)
  : result V :=
  match d !! k with
  | Some v => Ok v
  | None => Err KeyError
  end.

(** ** Features *)

(** The tuples [('U', pos, word, tag)] and [('B', pos, word, tag1, tag2)]. *)
Inductive feature : Set :=
| FU (pos : Z) (word tag : nat)
| FB (pos : Z) (word tag1 tag2 : nat).

#[global] Instance feature_eq_dec : EqDecision feature.
Proof. solve_decision. Defined.

Definition feature_enc (f : feature) : (Z * nat * nat) + (Z * nat * nat * nat) :=
  match f with
  | FU p w t => inl (p, w, t)
  | FB p w t1 t2 => inr (p, w, t1, t2)
  end.

Definition feature_dec (s : (Z * nat * nat) + (Z * nat * nat * nat)) : feature :=
  match s with
  | inl (p, w, t) => FU p w t
  | inr (p, w, t1, t2) => FB p w t1 t2
  end.

#[global] Instance feature_countable : Countable feature.
Proof.
  apply (inj_countable' feature_enc feature_dec).
  by intros [].
Defined.

(** ** The model object *)

(** Instance attributes fixed by [__init__] and never assigned again. *)
Definition ntags : nat := 4.
Definition start_tag : string := "S".
Definition end_tag : string := "S".
Definition U_feature_pos : list Z := [-2; -1; 0; 1; 2]%Z.
Definition B_feature_pos : list Z := [0%Z].

(** [self.index_tag] and [self.tag_index] *)
Definition index_tag (k : nat) : result string :=
  match k with
  | 0 => Ok "B"
  | 1 => Ok "I"
  | 2 => Ok "E"
  | 3 => Ok "S"
  | _ => Err KeyError
  end.

Definition tag_index (c : string) : result nat :=
  if decide (c = "B") then Ok 0
  else if decide (c = "I") then Ok 1
  else if decide (c = "E") then Ok 2
  else if decide (c = "S") then Ok 3
  else Err KeyError.

Definition start_index : nat := 3.
Definition end_index : nat := 3.

(** The attributes that change: the vocabulary size, the feature tables, the
    weights, the training data.  [saved] and [stdout] stand for the model
    file written by [save] and for what the training driver prints. *)
Record LinearCRF : Type := mkCRF {
  nwords : nat;
  nfeatures : nat;
  feature_index : gmap feature nat;
  index_feature : gmap nat feature;
  prior_feature_count : list R;
  nweights : nat;
  weights : list R;
  theta : R;
  train_data : list (list nat * list nat);
  saved : option (list R);
  stdout : list string
}.

(** [__init__]; [theta] is [1e-4]. *)
Definition init : LinearCRF :=
  {| nwords := 2; nfeatures := 0; feature_index := ∅; index_feature := ∅;
     prior_feature_count := []; nweights := 0; weights := [];
     theta := (1 / 10000)%R; train_data := []; saved := None; stdout := [] |}.

Definition set_weights (self : LinearCRF) (w : list R) : LinearCRF :=
  {| nwords := nwords self; nfeatures := nfeatures self;
     feature_index := feature_index self; index_feature := index_feature self;
     prior_feature_count := prior_feature_count self;
     nweights := nweights self; weights := w; theta := theta self;
     train_data := train_data self; saved := saved self;
     stdout := stdout self |}.

(** ** feature_at (lines 65-89) *)

Definition feature_at (self : LinearCRF) (k : nat) (x : list nat)
    (yi_1 yi : nat) (i : nat) : result nat :=
  feature ← dict_get (index_feature self) k;
  match feature with
  | FU pos word tag =>
      let j := (Z.of_nat i + pos)%Z in
      if bool_decide (0 ≤ j)%Z && bool_decide (j ≤ Z.of_nat (length x) - 1)%Z
         && bool_decide (yi = tag)
      then xj ← getitem x j;
           if bool_decide (xj = word) then Ok 1 else Ok 0
      else Ok 0
  | FB pos word tag1 tag2 =>
      let j := (Z.of_nat i + pos)%Z in
      if bool_decide (1 ≤ j)%Z
      then xj ← getitem x j;
           if bool_decide (xj = word) && bool_decide (yi_1 = tag1)
              && bool_decide (yi = tag2)
           then Ok 1 else Ok 0
      else Ok 0
  end.

(** ** log_potential_at (lines 92-103) *)

(** The two loops that append to [activate_feature]; the same text is at
    lines 96-102, 274-280 and 394-400. *)
Definition append_U (self : LinearCRF) (x : list nat) (yi : nat) (i : nat)
    (pos : Z) (activate_feature : list nat) : result (list nat) :=
  if bool_decide (0 ≤ pos + Z.of_nat i)%Z
     && bool_decide (pos + Z.of_nat i < Z.of_nat (length x))%Z
  then w ← getitem x (pos + Z.of_nat i)%Z;
       k ← dict_get (feature_index self) (FU pos w yi);
       Ok (activate_feature ++ [k])
  else Ok activate_feature.

Definition append_B (self : LinearCRF) (x : list nat) (yi_1 yi : nat) (i : nat)
    (pos : Z) (activate_feature : list nat) : result (list nat) :=
  if bool_decide (1 ≤ pos + Z.of_nat i)%Z
     && bool_decide (pos + Z.of_nat i < Z.of_nat (length x))%Z
  then w ← getitem x (pos + Z.of_nat i)%Z;
       k ← dict_get (feature_index self) (FB pos w yi_1 yi);
       Ok (activate_feature ++ [k])
  else Ok activate_feature.

Definition append_active (self : LinearCRF) (x : list nat) (yi_1 yi : nat)
    (i : nat) (activate_feature : list nat) : result (list nat) :=
  af ← foldM (append_U self x yi i) U_feature_pos activate_feature;
  foldM (append_B self x yi_1 yi i) B_feature_pos af.

(** [np.sum] *)
Definition np_sum (arr : list R) : R := foldr Rplus 0%R arr.

(** [arr[ids]] with a list of indices *)
Fixpoint fancy_index (arr : list R) (ids : list nat) : result (list R) :=
  match ids with
  | [] => Ok []
  | k :: ids' => v ← get arr k; vs ← fancy_index arr ids'; Ok (v :: vs)
  end.

Definition log_potential_at (self : LinearCRF) (x : list nat)
    (yi_1 yi : nat) (i : nat) : result R :=
  activate_feature ← append_active self x yi_1 yi i [];
  ws ← fancy_index (weights self) activate_feature;
  Ok (np_sum ws).

(** ** Arrays *)

Definition zeros1 (n : nat) : list R := replicate n 0%R.
Definition zeros2 (r c : nat) : list (list R) := replicate r (zeros1 c).
Definition zeros3 (n r c : nat) : list (list (list R)) :=
  replicate n (zeros2 r c).

(** [t[i] = v] on a list or a 1-D array *)
Definition set1 {A : Type} (t : list A) (i : nat) (v : A) : result (list A) :=
  _ ← get t i; Ok (<[i := v]> t).

(** [t[i] = row]: the row is copied in, shapes must agree *)
Definition set_row {A : Type} (t : list (list A)) (i : nat) (row : list A)
  : result (list (list A)) :=
  old ← get t i;
  if bool_decide (length old = length row) then Ok (<[i := row]> t)
  else Err ValueError.

(** [t[i, j] = v] *)
Definition set2 {A : Type} (t : list (list A)) (i j : nat) (v : A)
  : result (list (list A)) :=
  ti ← get t i; ti' ← set1 ti j v; Ok (<[i := ti']> t).

(** [t[i, j, k] = v] *)
Definition set3 {A : Type} (t : list (list (list A))) (i j k : nat) (v : A)
  : result (list (list (list A))) :=
  ti ← get t i; ti' ← set2 ti j k v; Ok (<[i := ti']> t).

(** [t[i, j]] and [t[i, j, k]] *)
Definition get2 {A : Type} (t : list (list A)) (i j : nat) : result A :=
  ti ← get t i; get ti j.

Definition get3 {A : Type} (t : list (list (list A))) (i j k : nat)
  : result A :=
  ti ← get t i; get2 ti j k.

(** [m[:, k]] *)
Fixpoint column (m : list (list R)) (k : nat) : result (list R) :=
  match m with
  | [] => Ok []
  | row :: m' => v ← get row k; vs ← column m' k; Ok (v :: vs)
  end.

(** [a + b] on two 1-D arrays of one shape *)
Definition vadd (a b : list R) : result (list R) :=
  if bool_decide (length a = length b) then Ok (zip_with Rplus a b)
  else Err ValueError.

(** [np.max]: raises on an empty array *)
Definition np_max (arr : list R) : result R :=
  match arr with
  | [] => Err ValueError
  | a :: arr' => Ok (foldl Rmax a arr')
  end.

(** [np.argmax]: the index of the first occurrence of the maximum *)
Fixpoint argmax_from (best : R) (besti : nat) (i : nat) (arr : list R) : nat :=
  match arr with
  | [] => besti
  | a :: arr' =>
      if Rlt_dec best a then argmax_from a i (S i) arr'
      else argmax_from best besti (S i) arr'
  end.

Definition np_argmax (arr : list R) : result nat :=
  match arr with
  | [] => Err ValueError
  | a :: arr' => Ok (argmax_from a 0 1 arr')
  end.

(** ** log_potential_matrix (lines 106-118) *)

(** [len(x) - 2]; sequences are bracketed by the two sentinels, so the
    subtraction never goes below zero. *)
Definition nwords_of {A : Type} (x : list A) : nat := length x - 2.

Definition default_to {A : Type} (o : option A) (r : result A) : result A :=
  match o with
  | Some a => Ok a
  | None => r
  end.

Definition log_potential_matrix (self : LinearCRF) (x : list nat)
  : result (list (list (list R))) :=
  let nwords_x := nwords_of x in
  foldM (fun i M =>
    foldM (fun tag1 M =>
      foldM (fun tag2 M =>
        v ← log_potential_at self x tag1 tag2 i;
        set3 M i tag1 tag2 v)
      (py_range 0 ntags) M)
    (py_range 0 ntags) M)
  (py_range 1 (nwords_x + 2)) (zeros3 (nwords_x + 2) ntags ntags).

(** ** log_sum_exp (lines 121-123) *)

Definition log_sum_exp (arr : list R) : result R :=
  max_value ← np_max arr;
  Ok (max_value + ln (np_sum (map (fun a => exp (a - max_value)) arr)))%R.

(** ** log_alpha (lines 126-148) *)

Definition log_alpha (self : LinearCRF) (x : list nat)
    (M : option (list (list (list R)))) : result (list (list R)) :=
  let nwords_x := nwords_of x in
  let alpha := zeros2 (nwords_x + 1) ntags in
  M ← default_to M (log_potential_matrix self x);
  M1 ← get M 1;
  r ← get M1 start_index;
  alpha ← set_row alpha 1 r;
  foldM (fun i alpha =>
    foldM (fun tag alpha =>
      prev ← get alpha (i - 1);
      Mi ← get M i;
      col ← column Mi tag;
      s ← vadd prev col;
      v ← log_sum_exp s;
      set2 alpha i tag v)
    (py_range 0 ntags) alpha)
  (py_range 2 (nwords_x + 1)) alpha.

(** ** log_beta (lines 151-174) *)

Definition log_beta (self : LinearCRF) (x : list nat)
    (M : option (list (list (list R)))) : result (list (list R)) :=
  let nwords_x := nwords_of x in
  let beta := zeros2 (nwords_x + 1) ntags in
  M ← default_to M (log_potential_matrix self x);
  Mlast ← get M (nwords_x + 1);
  r ← column Mlast end_index;
  beta ← set_row beta nwords_x r;
  foldM (fun i beta =>
    foldM (fun tag beta =>
      let index := nwords_x - i in
      next ← get beta (index + 1);
      Mi ← get M (index + 1);
      row ← get Mi tag;
      s ← vadd next row;
      v ← log_sum_exp s;
      set2 beta index tag v)
    (py_range 0 ntags) beta)
  (py_range 1 nwords_x) beta.

(** ** log_z (lines 177-188) *)

Definition log_z (self : LinearCRF) (x : list nat)
    (M : option (list (list (list R)))) (alpha : option (list (list R)))
  : result R :=
  let nwords_x := nwords_of x in
  M ← default_to M (log_potential_matrix self x);
  alpha ← default_to alpha (log_alpha self x (Some M));
  an ← get alpha nwords_x;
  Mlast ← get M (nwords_x + 1);
  col ← column Mlast end_index;
  s ← vadd an col;
  log_sum_exp s.

(** ** log_potential (lines 191-208) *)

(** The loop of lines 203-205: the potential of a labelled path before the
    partition function is subtracted. *)
Definition path_potential (self : LinearCRF) (x y : list nat) : result R :=
  let nwords_x := nwords_of y in
  foldM (fun i log_p =>
    yi_1 ← get y (i - 1);
    yi ← get y i;
    v ← log_potential_at self x yi_1 yi i;
    Ok (log_p + v)%R)
  (py_range 1 (nwords_x + 1)) 0%R.

Definition log_potential (self : LinearCRF) (x y : list nat)
    (M : option (list (list (list R)))) (alpha : option (list (list R)))
  : result R :=
  M ← default_to M (log_potential_matrix self x);
  alpha ← default_to alpha (log_alpha self x (Some M));
  log_p ← path_potential self x y;
  z ← log_z self x (Some M) (Some alpha);
  Ok (log_p - z)%R.

(** ** inference_viterbi (lines 211-239) *)

(** Lines 218-228: the tables [delta] and [trace]. *)
Definition viterbi_tables (x : list nat) (M : list (list (list R)))
  : result (list (list R) * list (list nat)) :=
  let nwords_x := nwords_of x in
  let delta := zeros2 (nwords_x + 1) ntags in
  let trace := replicate (nwords_x + 1) (replicate ntags 0) in
  M1 ← get M 1;
  r ← get M1 start_index;
  delta ← set_row delta 1 r;
  foldM (fun i dt =>
    foldM (fun tag '(delta, trace) =>
      prev ← get delta (i - 1);
      Mi ← get M i;
      col ← column Mi tag;
      s ← vadd prev col;
      m ← np_max s;
      delta ← set2 delta i tag m;
      a ← np_argmax s;
      trace ← set2 trace i tag a;
      Ok (delta, trace))
    (py_range 0 ntags) dt)
  (py_range 2 (nwords_x + 1)) (delta, trace).

(** Lines 234-238: [while index > 0]. *)
Fixpoint backtrace (trace : list (list nat)) (index : nat) (best : nat)
    (y_char : list string) : result (list string) :=
  match index with
  | 0 => Ok y_char
  | S index' =>
      best ← get2 trace (index + 1) best;
      c ← index_tag best;
      y_char ← set1 y_char (index - 1) c;
      backtrace trace index' best y_char
  end.

Definition inference_viterbi (self : LinearCRF) (x : list nat)
    (M : option (list (list (list R)))) : result (list string) :=
  let nwords_x := nwords_of x in
  M ← default_to M (log_potential_matrix self x);
  '(delta, trace) ← viterbi_tables x M;
  let y_char := replicate nwords_x start_tag in
  dn ← get delta nwords_x;
  best ← np_argmax dn;
  c ← index_tag best;
  y_char ← set1 y_char (nwords_x - 1) c;
  backtrace trace (nwords_x - 1) best y_char.

(** ** model_gradient_x (lines 242-283) *)

(** Lines 259-269: the table [P], exponentiated as a whole at the end. *)
Definition gradient_P (x : list nat) (M : list (list (list R)))
    (alpha beta : list (list R)) (z : R) : result (list (list (list R))) :=
  let nwords_x := nwords_of x in
  let P := zeros3 (nwords_x + 1) ntags ntags in
  P ← foldM (fun i P =>
    foldM (fun yi_1 P =>
      foldM (fun yi P =>
        if bool_decide (i = 1) && bool_decide (yi_1 ≠ start_index) then Ok P
        else
          a ← get2 alpha (i - 1) yi_1;
          m ← get3 M i yi_1 yi;
          b ← get2 beta i yi;
          set3 P i yi_1 yi (a + m + b - z)%R)
      (py_range 0 ntags) P)
    (py_range 0 ntags) P)
  (py_range 1 (nwords_x + 1)) P;
  Ok (map (map (map exp)) P).

(** [g[ids] += p] with a list of indices: the right-hand side [g[ids] + p] is
    built first and then stored, so an index that occurs several times in
    [ids] is incremented once. *)
Definition fancy_add (g : list R) (ids : list nat) (p : R) : result (list R) :=
  _ ← fancy_index g ids;
  Ok (imap (fun k v => if bool_decide (k ∈ ids) then (v + p)%R else v) g).

(** Lines 270-281: [activate_feature] is created once, before the loops. *)
Definition gradient_accumulate (self : LinearCRF) (x : list nat)
    (P : list (list (list R))) (gradient : list R) : result (list R) :=
  let nwords_x := nwords_of x in
  ag ← foldM (fun i ag =>
    foldM (fun yi_1 ag =>
      foldM (fun yi '(activate_feature, gradient) =>
        activate_feature ← append_active self x yi_1 yi i activate_feature;
        p ← get3 P i yi_1 yi;
        gradient ← fancy_add gradient activate_feature p;
        Ok (activate_feature, gradient))
      (py_range 0 ntags) ag)
    (py_range 0 ntags) ag)
  (py_range 1 (nwords_x + 1)) ([], gradient);
  Ok ag.2.

Definition model_gradient_x (self : LinearCRF) (x : list nat)
    (M : option (list (list (list R)))) (alpha beta : option (list (list R)))
  : result (list R) :=
  M ← default_to M (log_potential_matrix self x);
  alpha ← default_to alpha (log_alpha self x (Some M));
  beta ← default_to beta (log_beta self x (Some M));
  z ← log_z self x (Some M) (Some alpha);
  P ← gradient_P x M alpha beta z;
  gradient_accumulate self x P (zeros1 (length (weights self))).

(** ** log_maximum_liklihood (lines 286-293) *)

Definition dot (a b : list R) : R := np_sum (zip_with Rmult a b).

Definition log_maximum_liklihood (self : LinearCRF) : result R :=
  log_ML ← foldM (fun '(x, y) log_ML =>
    v ← log_potential self x y None None;
    Ok (log_ML + v)%R) (train_data self) 0%R;
  Ok (log_ML - dot (weights self) (weights self) * theta self / 2)%R.

(** ** model_gradient (lines 296-302) *)

(** [a - b] on two 1-D arrays of one shape *)
Definition vsub (a b : list R) : result (list R) :=
  if bool_decide (length a = length b) then Ok (zip_with Rminus a b)
  else Err ValueError.

Definition model_gradient (self : LinearCRF) : result (list R) :=
  gradient ← vsub (prior_feature_count self)
                  (map (fun w => w * theta self)%R (weights self));
  foldM (fun '(x, _) gradient =>
    gx ← model_gradient_x self x None None None;
    vsub gradient gx) (train_data self) gradient.

(** ** ncallable, njac_callable (lines 305-316) *)

Definition ncallable (self : LinearCRF) (w : list R)
  : result (LinearCRF * R) :=
  let self := set_weights self w in
  v ← log_maximum_liklihood self;
  Ok (self, (- v)%R).

Definition njac_callable (self : LinearCRF) (w : list R)
  : result (LinearCRF * list R) :=
  let self := set_weights self w in
  g ← model_gradient self;
  Ok (self, map Ropp g).

(** ** train (lines 319-421) *)

(** Reading the corpus file (lines 325-353, 380-385) is modelled on its
    own, in the corpus reader further down: the training stages below start
    from the vocabulary size it leaves in [self.nwords] and from the
    sentences and labels already turned into ids. *)
Definition set_train_data (self : LinearCRF) (n : nat)
    (data : list (list nat * list nat)) : LinearCRF :=
  {| nwords := n; nfeatures := nfeatures self;
     feature_index := feature_index self; index_feature := index_feature self;
     prior_feature_count := prior_feature_count self;
     nweights := nweights self; weights := weights self; theta := theta self;
     train_data := data; saved := saved self; stdout := stdout self |}.

(** [print(line)]: the line is appended to what has been printed. *)
Definition print (self : LinearCRF) (line : string) : LinearCRF :=
  {| nwords := nwords self; nfeatures := nfeatures self;
     feature_index := feature_index self; index_feature := index_feature self;
     prior_feature_count := prior_feature_count self;
     nweights := nweights self; weights := weights self; theta := theta self;
     train_data := train_data self; saved := saved self;
     stdout := stdout self ++ [line] |}.

(** Lines 352-353: the two lines printed once the file is read.  The values
    that [format] puts into the printed lines are left out; the subscript
    [sentences[0]] of the second line is checked in [train] below. *)
Definition read_corpus (self : LinearCRF) (n : nat)
    (data : list (list nat * list nat)) : LinearCRF :=
  print (print (set_train_data self n data) "Total words in corpus is")
        "sentence[0] labels[0]".

(** The loop body of lines 359-362 and 368-371, on the two dictionaries and
    the counter [feature_id]. *)
Definition register (f : feature)
    (st : gmap feature nat * gmap nat feature * nat)
  : gmap feature nat * gmap nat feature * nat :=
  let '(fi, inf, feature_id) := st in
  (<[f := feature_id]> fi, <[feature_id := f]> inf, feature_id + 1).

(** Lines 355-371 *)
Definition enumerate_features (self : LinearCRF)
  : gmap feature nat * gmap nat feature * nat :=
  let st := (feature_index self, index_feature self, 0) in
  let st :=
    foldl (fun st pos =>
      foldl (fun st word =>
        foldl (fun st tag => register (FU pos word tag) st)
          st (py_range 0 ntags))
        st (py_range 0 (nwords self)))
      st U_feature_pos in
  foldl (fun st pos =>
    foldl (fun st word =>
      foldl (fun st yi_1 =>
        foldl (fun st yi => register (FB pos word yi_1 yi) st)
          st (py_range 0 ntags))
        st (py_range 0 ntags))
      st (py_range 0 (nwords self)))
    st B_feature_pos.

(** Lines 355-376 *)
Definition train_features (self : LinearCRF) : LinearCRF :=
  let '(fi, inf, feature_id) := enumerate_features self in
  {| nwords := nwords self; nfeatures := feature_id;
     feature_index := fi; index_feature := inf;
     prior_feature_count := zeros1 feature_id;
     nweights := feature_id;
     weights := replicate feature_id (1 / INR feature_id)%R;
     theta := theta self; train_data := train_data self;
     saved := saved self; stdout := stdout self |}.

Definition set_prior (self : LinearCRF) (c : list R) : LinearCRF :=
  {| nwords := nwords self; nfeatures := nfeatures self;
     feature_index := feature_index self; index_feature := index_feature self;
     prior_feature_count := c;
     nweights := nweights self; weights := weights self; theta := theta self;
     train_data := train_data self; saved := saved self;
     stdout := stdout self |}.

(** Lines 389-402: here [activate_feature] starts empty at every position. *)
Definition train_prior (self : LinearCRF) : result LinearCRF :=
  c ← foldM (fun '(x, y) c =>
    let n := nwords_of x in
    foldM (fun i c =>
      yi_1 ← get y (i - 1);
      yi ← get y i;
      activate_feature ← append_active self x yi_1 yi i [];
      fancy_add c activate_feature 1%R)
    (py_range 1 (n + 1)) c)
  (train_data self) (prior_feature_count self);
  Ok (set_prior self c).

(** The file system and [pickle] are external collaborators of [save].
    Whether [open(file_path, 'w')] finds the directory of the model file
    (an [OSError] if it does not), and whether the file object it returns
    takes what [pickle.dump] writes (a file opened in text mode raises
    [TypeError] on the bytes pickle writes under Python 3), is decided
    outside the program.  They are modelled by their outcome: the dictionary
    is written, or one of the two calls raises. *)
Inductive dump_outcome : Set :=
| Dumped
| Raised (e : exn).

(** [save] (lines 425-439): the serialised dictionary is kept as the weight
    vector it holds; the success message is printed only when lines 437-438
    have returned. *)
Definition save (fs : dump_outcome) (self : LinearCRF) : result LinearCRF :=
  match fs with
  | Dumped =>
      Ok (print
            {| nwords := nwords self; nfeatures := nfeatures self;
               feature_index := feature_index self;
               index_feature := index_feature self;
               prior_feature_count := prior_feature_count self;
               nweights := nweights self; weights := weights self;
               theta := theta self; train_data := train_data self;
               saved := Some (weights self); stdout := stdout self |}
            "Save model successful!")
  | Raised e => Err e
  end.

(** [scipy.optimize.minimize] is an external collaborator.  It is modelled by
    what it can do to the model: ask for the objective or the gradient at a
    vector of its choice, any finite number of times, each answer deciding
    its next move, and then return a vector and a success flag. *)
Inductive optimizer : Type :=
| Return (res_x : list R) (res_success : bool)
| AskFun (w : list R) (k : R → optimizer)
| AskJac (w : list R) (k : list R → optimizer).

Fixpoint minimize (opt : optimizer) (self : LinearCRF)
  : result (LinearCRF * (list R * bool)) :=
  match opt with
  | Return res_x res_success => Ok (self, (res_x, res_success))
  | AskFun w k => '(self, v) ← ncallable self w; minimize (k v) self
  | AskJac w k => '(self, g) ← njac_callable self w; minimize (k g) self
  end.

(** Lines 404-420; [opt] is the optimizer started at [x0 = self.weights],
    [fs] what the file system does when [save] is called. *)
Definition train_optimize (fs : dump_outcome) (opt : list R → optimizer)
    (self : LinearCRF) : result LinearCRF :=
  let self := print self "Start training!" in
  '(self, _) ← ncallable self (weights self);
  let self := print self "Callable Time cost" in
  '(self, _) ← njac_callable self (weights self);
  let self := print self "Jac_callable Time cost" in
  '(self, (res_x, res_success)) ← minimize (opt (weights self)) self;
  let self := print self "minimize Time cost" in
  if (res_success : bool) then save fs (set_weights self res_x)
  else Ok (print self "Fail to optimize CRF!").

(** The whole of [train] after the corpus has been read; the first line
    stands for the [sentences[0]] of line 353, which raises on an empty
    corpus. *)
Definition train (fs : dump_outcome) (opt : list R → optimizer)
    (self : LinearCRF) (n : nat) (data : list (list nat * list nat))
  : result LinearCRF :=
  _ ← get data 0;
  let self := read_corpus self n data in
  let self := print (train_features self) "Features" in
  let self := print self "sentence[0] labels[0]" in
  self ← train_prior self;
  train_optimize fs opt self.

(** * Reference definitions used by the statements *)

(** The features in the order the loops of lines 356-371 visit them. *)
Definition unigram_features (n : nat) : list feature :=
  pos ← U_feature_pos; word ← py_range 0 n; tag ← py_range 0 ntags;
  [FU pos word tag].

Definition bigram_features (n : nat) : list feature :=
  pos ← B_feature_pos; word ← py_range 0 n; yi_1 ← py_range 0 ntags;
  yi ← py_range 0 ntags; [FB pos word yi_1 yi].

Definition all_features (n : nat) : list feature :=
  unigram_features n ++ bigram_features n.

(** The state of the two dictionaries once [train] has enumerated the
    features of a vocabulary of [nwords] entries. *)
Record feature_space_built (self : LinearCRF) : Prop := {
  built_feature_index : ∀ f k,
    feature_index self !! f = Some k ↔ all_features (nwords self) !! k = Some f;
  built_index_feature : ∀ f k,
    index_feature self !! k = Some f ↔ all_features (nwords self) !! k = Some f;
  built_nfeatures : nfeatures self = length (all_features (nwords self))
}.

(** The features that fire at position [i] for the transition
    [(yi_1, yi)]: what the two loops of [log_potential_at] look up. *)
Definition active_U (x : list nat) (yi : nat) (i : nat) : list feature :=
  pos ← U_feature_pos;
  if bool_decide (0 ≤ pos + Z.of_nat i)%Z
     && bool_decide (pos + Z.of_nat i < Z.of_nat (length x))%Z
  then [FU pos (nth (Z.to_nat (pos + Z.of_nat i)) x 0) yi] else [].

Definition active_B (x : list nat) (yi_1 yi : nat) (i : nat) : list feature :=
  pos ← B_feature_pos;
  if bool_decide (1 ≤ pos + Z.of_nat i)%Z
     && bool_decide (pos + Z.of_nat i < Z.of_nat (length x))%Z
  then [FB pos (nth (Z.to_nat (pos + Z.of_nat i)) x 0) yi_1 yi] else [].

Definition active_features (x : list nat) (yi_1 yi : nat) (i : nat)
  : list feature :=
  active_U x yi i ++ active_B x yi_1 yi i.

(** The indicator-based reference sum: over every feature id [k] below
    [nfeatures], [weights[k] * feature_at(k, x, yi_1, yi, i)]. *)
Definition reference_potential (self : LinearCRF) (x : list nat)
    (yi_1 yi : nat) (i : nat) : result R :=
  foldM (fun k acc =>
    w ← get (weights self) k;
    f ← feature_at self k x yi_1 yi i;
    Ok (acc + w * INR f)%R)
  (py_range 0 (nfeatures self)) 0%R.

(** Every token of the sequence is a vocabulary id. *)
Definition in_vocabulary (self : LinearCRF) (x : list nat) : Prop :=
  ∀ w, w ∈ x → w < nwords self.

(** The id a feature has in the dictionary (0 where it has none). *)
Definition fid (self : LinearCRF) (f : feature) : nat :=
  default 0 (feature_index self !! f).

(** The sum of the weights of the active features. *)
Definition potential_value (self : LinearCRF) (x : list nat) (yi_1 yi : nat)
    (i : nat) : R :=
  np_sum (map (λ f, nth (fid self f) (weights self) 0%R)
              (active_features x yi_1 yi i)).

(** A model as [train] builds it for the one-sentence corpus made of the
    single character of id 2, tagged S: three vocabulary entries, 108
    features, uniform initial weights. *)
Definition example_model : LinearCRF :=
  train_features (read_corpus init 3 [([0; 2; 1], [3; 3; 3])]).

(** Tables given by their entries: [tabulate1 h] is the row
    [[h 0; ...; h (ntags-1)]], and so on with one more index each. *)
Definition tabulate1 (h : nat → R) : list R := map h (seq 0 ntags).
Definition tabulate2 (h : nat → nat → R) : list (list R) :=
  map (λ a, tabulate1 (h a)) (seq 0 ntags).
Definition tabulate3 (n : nat) (h : nat → nat → nat → R)
  : list (list (list R)) :=
  map (λ i, tabulate2 (h i)) (seq 0 n).

(** The entries of the table [log_potential_matrix] builds. *)
Definition potential_entry (self : LinearCRF) (x : list nat)
    (i yi_1 yi : nat) : R :=
  match i with
  | 0 => 0%R
  | _ => potential_value self x yi_1 yi i
  end.

(** The entries of the tables [log_alpha] and [log_beta] build from a table
    [M] with entries [m i a b]: the forward and backward recurrences, with
    [ln (sum (exp v))] for the value of [log_sum_exp v]. *)
Fixpoint alpha_entry (m : nat → nat → nat → R) (i : nat) (t : nat) : R :=
  match i with
  | 0 => 0%R
  | S i' =>
      match i' with
      | 0 => m 1 start_index t
      | S _ =>
          ln (np_sum (map exp
                (tabulate1 (λ p, alpha_entry m i' p + m i p t)%R)))
      end
  end.

(** [beta_down m n d] is row [n - d] of [beta]. *)
Fixpoint beta_down (m : nat → nat → nat → R) (n d : nat) (t : nat) : R :=
  match d with
  | 0 => m (n + 1) t end_index
  | S d' =>
      ln (np_sum (map exp
            (tabulate1 (λ u, beta_down m n d' u + m (n - d')%nat t u)%R)))
  end.

Definition beta_entry (m : nat → nat → nat → R) (n i : nat) (t : nat) : R :=
  match i with
  | 0 => 0%R
  | _ => beta_down m n (n - i) t
  end.

Definition z_value (m : nat → nat → nat → R) (n : nat) : R :=
  ln (np_sum (map exp
        (tabulate1 (λ t, alpha_entry m n t + m (n + 1)%nat t end_index)%R))).

(** The entries of the table [P] of [model_gradient_x] before [np.exp] is
    applied to the whole table: the cells the loop skips keep the 0 of
    [np.zeros]. *)
Definition P_entry (m : nat → nat → nat → R) (a b : nat → nat → R) (z : R)
    (i yi_1 yi : nat) : R :=
  match i with
  | 0 => 0%R
  | _ =>
      if bool_decide (i = 1) && bool_decide (yi_1 ≠ start_index) then 0%R
      else (a (i - 1)%nat yi_1 + m i yi_1 yi + b i yi - z)%R
  end.

(** A training pair as [train] builds it: in-vocabulary tokens, at least one
    of them between the sentinels, one tag below [ntags] per token. *)
Definition well_formed_pair (self : LinearCRF) (xy : list nat * list nat)
  : Prop :=
  in_vocabulary self xy.1 ∧ 1 ≤ nwords_of xy.1
  ∧ length xy.2 = length xy.1 ∧ Forall (λ t, t < ntags) xy.2.

(** A model ready for the optimizer: features enumerated, weight and count
    vectors of length [nfeatures], well-formed training pairs. *)
Record model_ready (self : LinearCRF) : Prop := {
  ready_built : feature_space_built self;
  ready_weights : length (weights self) = nfeatures self;
  ready_prior : length (prior_feature_count self) = nfeatures self;
  ready_data : Forall (well_formed_pair self) (train_data self)
}.

(** The value of the loop of [log_potential] on a labelled path. *)
Definition path_value (self : LinearCRF) (x y : list nat) : R :=
  np_sum (map (λ i, potential_value self x (nth (i - 1) y 0) (nth i y 0) i)
              (py_range 1 (nwords_of y + 1))).

(** The model as [train] hands it to [minimize] at line 413: after the
    objective and the gradient have been evaluated once at the starting
    weights, which the two callables store back, and the three lines
    printed so far. *)
Definition before_minimize (self : LinearCRF) : LinearCRF :=
  let self := print self "Start training!" in
  let self := print (set_weights self (weights self)) "Callable Time cost" in
  print (set_weights self (weights self)) "Jac_callable Time cost".

(** The vectors the optimizer asks the objective or the gradient at, in the
    order of a run. *)
Fixpoint asked (opt : optimizer) (self : LinearCRF)
  : result (list (list R)) :=
  match opt with
  | Return _ _ => Ok []
  | AskFun w k =>
      '(self, v) ← ncallable self w; ws ← asked (k v) self; Ok (w :: ws)
  | AskJac w k =>
      '(self, g) ← njac_callable self w; ws ← asked (k g) self; Ok (w :: ws)
  end.

(** An optimizer that evaluates the objective once, away from its starting
    point, and gives up. *)
Definition failing_optimizer (x0 : list R) : optimizer :=
  AskFun (map (λ w, w + 1)%R x0) (λ _, Return x0 false).

(** The expected count of feature id [k] as the gradient is specified: the
    sum of [P[i, yi_1, yi]] over the positions and tag pairs at which the
    feature is active. *)
Definition expected_count (self : LinearCRF) (x : list nat)
    (P : list (list (list R))) (k : nat) : R :=
  np_sum (i ← py_range 1 (nwords_of x + 1);
          yi_1 ← py_range 0 ntags;
          yi ← py_range 0 ntags;
          if bool_decide (k ∈ map (fid self) (active_features x yi_1 yi i))
          then [nth yi (nth yi_1 (nth i P []) []) 0%R] else []).

(** Brute-force enumeration: every tag path of length [n], bracketed by the
    sentinel tag, and the sum of [exp (log_potential x y)] over them. *)
Fixpoint tag_paths (n : nat) : list (list nat) :=
  match n with
  | 0 => [[]]
  | S n' => t ← py_range 0 ntags; p ← tag_paths n'; [t :: p]
  end.

Definition bracket (p : list nat) : list nat :=
  start_index :: p ++ [end_index].

Definition brute_force_total (self : LinearCRF) (x : list nat) : result R :=
  foldM (λ p acc,
    lp ← log_potential self x (bracket p) None None;
    Ok (acc + exp lp)%R)
  (tag_paths (nwords_of x)) 0%R.

(** [a] is the lowest index at which the array [v] is maximal. *)
Definition first_argmax (v : list R) (a : nat) : Prop :=
  ∃ va, v !! a = Some va
        ∧ ∀ p vp, v !! p = Some vp → (vp <= va)%R ∧ (p < a → (vp < va)%R).

(** The values [np.max] and [np.argmax] return on a non-empty array. *)
Definition max_value (v : list R) : R :=
  match v with
  | [] => 0%R
  | a :: v' => foldl Rmax a v'
  end.

Definition argmax_value (v : list R) : nat :=
  match v with
  | [] => 0
  | a :: v' => argmax_from a 0 1 v'
  end.

(** The entries of the tables [delta] and [trace] of the Viterbi decoder
    for a table [M] with entries [m i a b]. *)
Fixpoint delta_entry (m : nat → nat → nat → R) (i : nat) (t : nat) : R :=
  match i with
  | 0 => 0%R
  | S i' =>
      match i' with
      | 0 => m 1 start_index t
      | S _ => max_value (tabulate1 (λ p, delta_entry m i' p + m i p t)%R)
      end
  end.

Definition trace_entry (m : nat → nat → nat → R) (i : nat) (t : nat) : nat :=
  if bool_decide (2 ≤ i)
  then argmax_value (tabulate1 (λ p, delta_entry m (i - 1) p + m i p t)%R)
  else 0.

(** [back m n d] is the tag the backtrace gives to position [n - d]. *)
Fixpoint back (m : nat → nat → nat → R) (n d : nat) : nat :=
  match d with
  | 0 => argmax_value (tabulate1 (delta_entry m n))
  | S d' => trace_entry m (n - d') (back m n d')
  end.

Definition decoded_ids (m : nat → nat → nat → R) (n : nat) : list nat :=
  map (λ j, back m n (n - j)) (seq 1 n).

Definition tag_char (k : nat) : string :=
  match k with
  | 0 => "B"
  | 1 => "I"
  | 2 => "E"
  | _ => "S"
  end.

(** The potential of the first [k] transitions of a bracketed tag path [y]
    on a table with entries [m i a b]. *)
Definition score (m : nat → nat → nat → R) (y : list nat) (k : nat) : R :=
  np_sum (map (λ i, m i (nth (i - 1) y 0) (nth i y 0)) (seq 1 k)).

(** [register] with the state first, as [foldl] takes it. *)
Definition reg (st : gmap feature nat * gmap nat feature * nat) (f : feature)
  : gmap feature nat * gmap nat feature * nat :=
  register f st.

(** The shape of a table of [n] slabs of [ntags] rows of [ntags] cells. *)
Definition shape3 {A : Type} (n : nat) (M : list (list (list A))) : Prop :=
  length M = n
  ∧ Forall (λ Mi, length Mi = ntags ∧ Forall (λ r, length r = ntags) Mi) M.

(** A training pair as the corpus reader can leave it: like
    [well_formed_pair], but the sentence may be empty between its
    sentinels. *)
Definition parsed_pair (self : LinearCRF) (xy : list nat * list nat) : Prop :=
  in_vocabulary self xy.1 ∧ 2 ≤ length xy.1
  ∧ length xy.2 = length xy.1 ∧ Forall (λ t, t < ntags) xy.2.

(** Brute force over every tag path with the transition into the end
    sentinel counted, which [log_potential] leaves out: the sum of
    [exp (potential + end transition)], and the same sum with the
    normalised [log_potential]. *)
Definition brute_force_partition (self : LinearCRF) (x : list nat)
  : result R :=
  let n := nwords_of x in
  foldM (λ p acc,
    lp ← path_potential self x (bracket p);
    e ← log_potential_at self x (nth n (bracket p) 0) end_index (n + 1);
    Ok (acc + exp (lp + e))%R)
  (tag_paths n) 0%R.

Definition brute_force_closed_total (self : LinearCRF) (x : list nat)
  : result R :=
  let n := nwords_of x in
  foldM (λ p acc,
    lp ← log_potential self x (bracket p) None None;
    e ← log_potential_at self x (nth n (bracket p) 0) end_index (n + 1);
    Ok (acc + exp (lp + e))%R)
  (tag_paths n) 0%R.

(** The potential of the transitions that follow position [i], whose tag is
    [t]: through the tags [p] of the later positions and into the end
    sentinel. *)
Fixpoint suffix_score (m : nat → nat → nat → R) (i t : nat) (p : list nat)
  : R :=
  match p with
  | [] => m (i + 1) t end_index
  | u :: p' => Rplus (m (i + 1) t u) (suffix_score m (i + 1) u p')
  end.

(** The count of feature [k] over the training data by the indicator
    functions: the number of positions at which [feature_at] returns 1 for
    the labelled transition. *)
Definition indicator_count (self : LinearCRF) (k : nat) : result R :=
  foldM (λ '(x, y) acc,
    foldM (λ i acc,
      yi_1 ← get y (i - 1);
      yi ← get y i;
      f ← feature_at self k x yi_1 yi i;
      Ok (acc + INR f)%R)
    (py_range 1 (nwords_of x + 1)) acc)
  (train_data self) 0%R.

(** Whether the feature of id [k] is among those [log_potential_at] looks
    up at position [i] of a labelled sentence. *)
Definition fires (self : LinearCRF) (k : nat) (x y : list nat) (i : nat) : R :=
  if bool_decide (k ∈ map (fid self)
                    (active_features x (nth (i - 1) y 0) (nth i y 0) i))
  then 1%R else 0%R.

(** The feature of id [k] fires somewhere in the sentence: at some position
    between the sentinels and for some pair of tags [feature_at] returns
    1. *)
Definition fires_somewhere (self : LinearCRF) (k : nat) (x : list nat)
  : Prop :=
  ∃ i yi_1 yi, 1 ≤ i ≤ nwords_of x ∧ yi_1 < ntags ∧ yi < ntags
               ∧ feature_at self k x yi_1 yi i = Ok 1.

(** * The corpus reader of train (lines 325-353, 380-385) *)

(** A Python string is the list of its code points, a [list N]; [ustr_of]
    gives the code points of a string literal made of ASCII characters. *)
Definition ustr_of (s : string) : list N :=
  map Ascii.N_of_ascii (String.list_ascii_of_string s).

(** [self.start_char] and [self.end_char] *)
Definition start_char : list N := ustr_of "<START>".
Definition end_char : list N := ustr_of "<END>".

(** [self.tag_index[tag]] for a tag read from the file. *)
Definition tag_index_u (tag : list N) : result nat :=
  if decide (tag = ustr_of "B") then Ok 0
  else if decide (tag = ustr_of "I") then Ok 1
  else if decide (tag = ustr_of "E") then Ok 2
  else if decide (tag = ustr_of "S") then Ok 3
  else Err KeyError.

(** The variables of the reading loop: the lists [sentences] and [labels],
    the sentence and the label list under construction, and the vocabulary
    attributes [self.word_index], [self.index_word] and [self.nwords]. *)
Module reader.

Record state : Type := mk {
  sentences : list (list (list N));
  labels : list (list (list N));
  sentence : list (list N);
  label : list (list N);
  word_index : gmap (list N) nat;
  index_word : gmap nat (list N);
  nwords : nat
}.

(** Lines 325-326 and 332-333, on the vocabulary [__init__] leaves. *)
Definition init : state :=
  {| sentences := []; labels := [];
     sentence := [start_char]; label := [ustr_of start_tag];
     word_index := <[end_char := 1]> (<[start_char := 0]> ∅);
     index_word := <[1 := end_char]> (<[0 := start_char]> ∅);
     nwords := 2 |}.

End reader.

Section corpus_reader.

(** [str.isspace] on one code point.  Which code points count as whitespace
    is decided by the Unicode tables of the interpreter; the reader is
    modelled for any such table. *)
Variable isspace : N → bool.

(** [line.split()]: the maximal runs of code points that are not
    whitespace, in order; [cur] is the run being read. *)
Fixpoint split_from (cur : list N) (s : list N) : list (list N) :=
  match s with
  | [] => match cur with [] => [] | _ => [cur] end
  | c :: s' =>
      if isspace c
      then match cur with
           | [] => split_from [] s'
           | _ => cur :: split_from [] s'
           end
      else split_from (cur ++ [c]) s'
  end.

Definition py_split (line : list N) : list (list N) := split_from [] line.

(** The body of the loop of lines 334-350. *)
Definition read_line (line : list N) (st : reader.state)
  : result reader.state :=
  if bool_decide (length line < 2) then
    Ok {| reader.sentences :=
            reader.sentences st ++ [reader.sentence st ++ [end_char]];
          reader.labels :=
            reader.labels st ++ [reader.label st ++ [ustr_of end_tag]];
          reader.sentence := [start_char];
          reader.label := [ustr_of start_tag];
          reader.word_index := reader.word_index st;
          reader.index_word := reader.index_word st;
          reader.nwords := reader.nwords st |}
  else
    match py_split line with
    | [char; tag] =>
        if bool_decide (is_Some (reader.word_index st !! char)) then
          Ok {| reader.sentences := reader.sentences st;
                reader.labels := reader.labels st;
                reader.sentence := reader.sentence st ++ [char];
                reader.label := reader.label st ++ [tag];
                reader.word_index := reader.word_index st;
                reader.index_word := reader.index_word st;
                reader.nwords := reader.nwords st |}
        else
          Ok {| reader.sentences := reader.sentences st;
                reader.labels := reader.labels st;
                reader.sentence := reader.sentence st ++ [char];
                reader.label := reader.label st ++ [tag];
                reader.word_index :=
                  <[char := reader.nwords st]> (reader.word_index st);
                reader.index_word :=
                  <[reader.nwords st := char]> (reader.index_word st);
                reader.nwords := reader.nwords st + 1 |}
    | _ => Err ValueError
    end.

(** Lines 332-350 on the lines [f.readlines()] returned. *)
Definition read_lines (lines : list (list N)) : result reader.state :=
  foldM read_line lines reader.init.

(** Lines 380-381: the two nested list comprehensions. *)
Definition encode_sentences (st : reader.state) : result (list (list nat)) :=
  mapM (mapM (dict_get (reader.word_index st))) (reader.sentences st).

Definition encode_labels (st : reader.state) : result (list (list nat)) :=
  mapM (mapM tag_index_u) (reader.labels st).

(** [train] on the lines of the corpus file, for a model fresh from
    [__init__]: the reader, the subscript [sentences[0]] of line 353, the
    two comprehensions, and the stages of [train] above on their result. *)
Definition train_lines (fs : dump_outcome) (opt : list R → optimizer)
    (lines : list (list N)) : result LinearCRF :=
  st ← read_lines lines;
  _ ← get (reader.sentences st) 0;
  xs ← encode_sentences st;
  ys ← encode_labels st;
  train fs opt init (reader.nwords st) (zip xs ys).

End corpus_reader.

(** The whitespace code points below 128. *)
Definition isspace_ascii (c : N) : bool :=
  bool_decide (c ∈ [9; 10; 11; 12; 13; 28; 29; 30; 31; 32]%N).

(** What the reading loop keeps true of its variables: the two vocabulary
    dictionaries are inverse to each other, the ids in use are those below
    [nwords], the sentinels keep the ids 0 and 1, every string put into a
    sentence is a key of [word_index], and sentences and label lists grow
    together. *)
Record reader_inv (st : reader.state) : Prop := {
  inv_inverse : ∀ c k,
    reader.word_index st !! c = Some k ↔ reader.index_word st !! k = Some c;
  inv_dense : ∀ k,
    is_Some (reader.index_word st !! k) ↔ k < reader.nwords st;
  inv_start : reader.word_index st !! start_char = Some 0;
  inv_end : reader.word_index st !! end_char = Some 1;
  inv_known : Forall (Forall (λ c, is_Some (reader.word_index st !! c)))
                     (reader.sentences st);
  inv_known_open : Forall (λ c, is_Some (reader.word_index st !! c))
                          (reader.sentence st);
  inv_shape : Forall2 (λ s l,
                length s = length l
                ∧ (∃ chars, s = start_char :: chars ++ [end_char])
                ∧ (∃ tags, l = ustr_of start_tag :: tags ++ [ustr_of end_tag]))
              (reader.sentences st) (reader.labels st);
  inv_shape_open :
    length (reader.sentence st) = length (reader.label st)
    ∧ (∃ chars, reader.sentence st = start_char :: chars)
    ∧ (∃ tags, reader.label st = ustr_of start_tag :: tags)
}.

(** The lines that end a sentence. *)
Definition short_lines (lines : list (list N)) : list (list N) :=
  filter (λ line, length line < 2) lines.

(** A line the loop can take apart: shorter than two code points, or made
    of exactly two fields. *)
Definition readable (isspace : N → bool) (line : list N) : Prop :=
  length line < 2 ∨ length (py_split isspace line) = 2.

(** The four tag symbols as they are read from the file. *)
Definition tag_symbols : list (list N) :=
  [ustr_of "B"; ustr_of "I"; ustr_of "E"; ustr_of "S"].

(** A corpus of two sentences, the second one without the line that would
    end it: the code points of the characters U+4ECA, U+665A and U+7F8E with
    their tags, one token per line. *)
Definition example_corpus : list (list N) :=
  [[20170; 32; 66; 10]; [26202; 32; 69; 10]; [10]; [32654; 32; 83; 10]]%N.

(** The state in which the reader ends on lines it can read. *)
Definition reader_of (lines : list (list N)) : reader.state :=
  match read_lines isspace_ascii lines with
  | Ok st => st
  | Err _ => reader.init
  end.

(** * Verification *)

(** ** The error monad *)

Lemma bind_Ok {A B : Type} (f : A → result B) (a : A) :
  (Ok a ≫= f) = f a.
Proof. reflexivity. Qed.

Lemma bind_inv_Ok {A B : Type} (f : A → result B) (m : result A) (b : B) :
  (m ≫= f) = Ok b → ∃ a, m = Ok a ∧ f a = Ok b.
Proof. destruct m as [a|e]; [eauto | discriminate]. Qed.

Lemma get_Ok {A : Type} (l : list A) (i : nat) (a : A) :
  l !! i = Some a → get l i = Ok a.
Proof. unfold get. by intros ->. Qed.

Lemma get_inv_Ok {A : Type} (l : list A) (i : nat) (a : A) :
  get l i = Ok a → l !! i = Some a.
Proof. unfold get. destruct (l !! i); naive_solver. Qed.

(** ** Sums of exponentials *)

Section sums.
Local Open Scope R_scope.

Lemma np_sum_app (a b : list R) : np_sum (a ++ b) = np_sum a + np_sum b.
Proof. induction a as [|v a IH]; simpl; [lra | rewrite IH; lra]. Qed.

Lemma np_sum_scale (c : R) (f : R → R) (v : list R) :
  np_sum (map (fun a => c * f a) v) = c * np_sum (map f v).
Proof. induction v as [|a v IH]; simpl; [lra | rewrite IH; lra]. Qed.

Lemma np_sum_ext {A : Type} (f g : A → R) (v : list A) :
  (∀ a, a ∈ v → f a = g a) → np_sum (map f v) = np_sum (map g v).
Proof.
  induction v as [|a v IH]; intros Hfg; simpl; [done|].
  rewrite Hfg by left. rewrite IH; [done|]. intros b Hb. apply Hfg. by right.
Qed.

Lemma np_sum_exp_pos (f : R → R) (v : list R) :
  v ≠ [] → 0 < np_sum (map (fun a => exp (f a)) v).
Proof.
  destruct v as [|a v]; [done|]. intros _. simpl.
  assert (0 <= np_sum (map (fun a => exp (f a)) v)) as Hnn.
  { induction v as [|b v IH]; simpl; [lra|]. pose proof (exp_pos (f b)). lra. }
  pose proof (exp_pos (f a)). lra.
Qed.

Lemma np_sum_exp_shift (c : R) (v : list R) :
  np_sum (map (fun a => exp (a + c)) v) = exp c * np_sum (map exp v).
Proof.
  rewrite <- np_sum_scale. apply np_sum_ext. intros a _.
  rewrite exp_plus. lra.
Qed.

(** The value [log_sum_exp] returns on a non-empty array. *)
Lemma log_sum_exp_value (v : list R) :
  v ≠ [] → log_sum_exp v = Ok (ln (np_sum (map exp v))).
Proof.
  intros Hv. unfold log_sum_exp. destruct v as [|a0 v0] eqn:Ev; [done|].
  rewrite <- Ev in *. unfold np_max. rewrite Ev. rewrite <- Ev. simpl.
  set (m := foldl Rmax a0 v0). f_equal.
  assert (np_sum (map (fun a => exp (a - m)) v) = exp (- m) * np_sum (map exp v))
    as ->.
  { rewrite <- np_sum_exp_shift. apply np_sum_ext. intros a _. f_equal. }
  pose proof (np_sum_exp_pos (fun a => a) v Hv) as Hpos.
  rewrite ln_mult; [|apply exp_pos|exact Hpos]. rewrite ln_exp. lra.
Qed.

End sums.

(** C9.  On every non-empty array [v] of reals, [log_sum_exp v], computed as
    [max v + ln (sum (exp (v - max v)))], returns [ln (sum (exp v))], and
    adding a constant [c] to every entry adds [c] to the result. *)
Theorem log_sum_exp_correct_shift (v : list R) (c : R) :
  v ≠ [] →
  ∃ r, log_sum_exp v = Ok r
       ∧ r = ln (np_sum (map exp v))
       ∧ log_sum_exp (map (fun a => (a + c)%R) v) = Ok (r + c)%R.
Proof.
  intros Hv. exists (ln (np_sum (map exp v))). split_and!; [|done|].
  - by apply log_sum_exp_value.
  - rewrite log_sum_exp_value by (by destruct v).
    f_equal. rewrite map_map. rewrite np_sum_exp_shift.
    rewrite ln_mult; [|apply exp_pos|by apply (np_sum_exp_pos (fun a => a))].
    rewrite ln_exp. lra.
Qed.

Lemma log_sum_exp_correct_shift_witness :
  [0%R; 1%R] ≠ [] ∧
  ∃ r, log_sum_exp [0%R; 1%R] = Ok r
       ∧ r = ln (np_sum (map exp [0%R; 1%R]))
       ∧ log_sum_exp (map (fun a => (a + 2)%R) [0%R; 1%R]) = Ok (r + 2)%R.
Proof. split; [done | apply (log_sum_exp_correct_shift [0%R; 1%R] 2%R); done]. Defined.

(** ** The feature space *)

Section feature_space.

Lemma foldl_bind {A B S : Type} (g : S → B → S) (f : A → list B)
    (l : list A) (s : S) :
  foldl (fun s a => foldl g s (f a)) s l = foldl g s (l ≫= f).
Proof.
  revert s. induction l as [|a l IH]; intros s; [done|].
  rewrite bind_cons, foldl_app. simpl. apply IH.
Qed.

Lemma foldl_ext_in {A S : Type} (g h : S → A → S) (l : list A) (s : S) :
  (∀ s a, a ∈ l → g s a = h s a) → foldl g s l = foldl h s l.
Proof.
  revert s. induction l as [|a l IH]; intros s Hgh; [done|]. simpl.
  rewrite Hgh by left. apply IH. intros s' b Hb. apply Hgh. by right.
Qed.

Lemma enumerate_features_foldl (self : LinearCRF) :
  enumerate_features self =
  foldl reg (feature_index self, index_feature self, 0)
    (all_features (nwords self)).
Proof.
  unfold enumerate_features, all_features, unigram_features, bigram_features.
  rewrite foldl_app.
  set (st0 := (feature_index self, index_feature self, 0)).
  assert (∀ st, foldl reg st (U_feature_pos ≫= λ pos, py_range 0 (nwords self)
            ≫= λ word, py_range 0 ntags ≫= λ tag, [FU pos word tag]) =
          foldl (fun st pos =>
            foldl (fun st word =>
              foldl (fun st tag => register (FU pos word tag) st)
                st (py_range 0 ntags))
              st (py_range 0 (nwords self)))
            st U_feature_pos) as HU.
  { intros st.
    rewrite <- foldl_bind. apply foldl_ext_in. intros s pos _.
    rewrite <- foldl_bind. apply foldl_ext_in. intros s' word _.
    rewrite <- foldl_bind. apply foldl_ext_in. intros s'' tag _. done. }
  rewrite HU.
  rewrite <- foldl_bind. apply foldl_ext_in. intros s pos _.
  rewrite <- foldl_bind. apply foldl_ext_in. intros s' word _.
  rewrite <- foldl_bind. apply foldl_ext_in. intros s'' yi_1 _.
  rewrite <- foldl_bind. apply foldl_ext_in. intros s3 yi _. done.
Qed.

(** Registering a duplicate-free list of features from empty dictionaries
    numbers them by their position. *)
Lemma register_all (l : list feature) :
  NoDup l →
  ∃ fi inf,
    foldl reg (∅, ∅, 0) l = (fi, inf, length l)
    ∧ (∀ f k, fi !! f = Some k ↔ l !! k = Some f)
    ∧ (∀ f k, inf !! k = Some f ↔ l !! k = Some f).
Proof.
  induction l as [|x l IH] using rev_ind; intros Hnd.
  - exists ∅, ∅. split_and!; [done|..]; intros f k; by rewrite lookup_empty.
  - apply NoDup_app in Hnd as (Hnd & Hx & _).
    destruct (IH Hnd) as (fi & inf & Hfold & Hfi & Hinf).
    exists (<[x := length l]> fi), (<[length l := x]> inf).
    rewrite foldl_app, Hfold. simpl. rewrite length_app. simpl.
    split_and!; [done|..]; intros f k.
    + destruct (decide (x = f)) as [->|Hne].
      * rewrite lookup_insert_eq. split.
        -- intros [= <-]. by rewrite list_lookup_middle.
        -- intros Hk. f_equal.
           destruct (decide (k < length l)) as [Hlt|Hge].
           ++ rewrite lookup_app_l in Hk by done.
              exfalso. apply (Hx f); [|by left].
              by eapply list_elem_of_lookup_2.
           ++ apply lookup_lt_Some in Hk. rewrite length_app in Hk.
              simpl in Hk. lia.
      * rewrite lookup_insert_ne by done. rewrite Hfi. split.
        -- intros Hk. rewrite lookup_app_l; [done|]. by eapply lookup_lt_Some.
        -- intros Hk. destruct (decide (k < length l)) as [Hlt|Hge].
           ++ by rewrite lookup_app_l in Hk.
           ++ pose proof (lookup_lt_Some _ _ _ Hk) as Hlen.
              rewrite length_app in Hlen. simpl in Hlen.
              assert (k = length l) as -> by lia.
              rewrite list_lookup_middle in Hk by done. congruence.
    + destruct (decide (length l = k)) as [<-|Hne].
      * rewrite lookup_insert_eq, list_lookup_middle by done. done.
      * rewrite lookup_insert_ne by done. rewrite Hinf. split.
        -- intros Hk. rewrite lookup_app_l; [done|]. by eapply lookup_lt_Some.
        -- intros Hk. pose proof (lookup_lt_Some _ _ _ Hk) as Hlen.
           rewrite length_app in Hlen. simpl in Hlen.
           by rewrite lookup_app_l in Hk by lia.
Qed.

End feature_space.

Section enumeration.

Lemma length_bind_const {A B : Type} (f : A → list B) (c : nat) (l : list A) :
  (∀ a, length (f a) = c) → length (l ≫= f) = length l * c.
Proof.
  intros Hf. induction l as [|a l IH]; [done|].
  rewrite bind_cons, length_app, Hf, IH. simpl. lia.
Qed.

Lemma elem_of_py_range (a b k : nat) : k ∈ py_range a b ↔ a ≤ k < b.
Proof. unfold py_range. rewrite elem_of_seq. lia. Qed.

Lemma NoDup_py_range (a b : nat) : NoDup (py_range a b).
Proof. apply NoDup_seq. Qed.

Lemma elem_of_unigram_features (n : nat) (f : feature) :
  f ∈ unigram_features n ↔
  ∃ pos word tag, f = FU pos word tag ∧ pos ∈ U_feature_pos
                  ∧ word < n ∧ tag < ntags.
Proof.
  unfold unigram_features. rewrite list_elem_of_bind. split.
  - intros (pos & Hf & Hpos). apply list_elem_of_bind in Hf as (word & Hf & Hw).
    apply list_elem_of_bind in Hf as (tag & Hf & Ht).
    apply list_elem_of_singleton in Hf.
    apply elem_of_py_range in Hw, Ht. exists pos, word, tag. split_and!; [done..|lia|lia].
  - intros (pos & word & tag & -> & Hpos & Hw & Ht). exists pos. split; [|done].
    apply list_elem_of_bind. exists word. split; [|apply elem_of_py_range; lia].
    apply list_elem_of_bind. exists tag. split; [|apply elem_of_py_range; lia].
    by apply list_elem_of_singleton.
Qed.

Lemma elem_of_bigram_features (n : nat) (f : feature) :
  f ∈ bigram_features n ↔
  ∃ pos word yi_1 yi, f = FB pos word yi_1 yi ∧ pos ∈ B_feature_pos
                      ∧ word < n ∧ yi_1 < ntags ∧ yi < ntags.
Proof.
  unfold bigram_features. rewrite list_elem_of_bind. split.
  - intros (pos & Hf & Hpos). apply list_elem_of_bind in Hf as (word & Hf & Hw).
    apply list_elem_of_bind in Hf as (yi_1 & Hf & Ht1).
    apply list_elem_of_bind in Hf as (yi & Hf & Ht2).
    apply list_elem_of_singleton in Hf.
    apply elem_of_py_range in Hw, Ht1, Ht2.
    exists pos, word, yi_1, yi. split_and!; [done..|lia|lia|lia].
  - intros (pos & word & yi_1 & yi & -> & Hpos & Hw & Ht1 & Ht2).
    exists pos. split; [|done].
    apply list_elem_of_bind. exists word. split; [|apply elem_of_py_range; lia].
    apply list_elem_of_bind. exists yi_1. split; [|apply elem_of_py_range; lia].
    apply list_elem_of_bind. exists yi. split; [|apply elem_of_py_range; lia].
    by apply list_elem_of_singleton.
Qed.

Ltac bind_inv H :=
  repeat match type of H with
  | _ ∈ _ ≫= _ => let v := fresh "v" in let Hv := fresh "Hv" in
                  apply list_elem_of_bind in H as (v & H & Hv)
  | _ ∈ [_] => apply list_elem_of_singleton in H
  end.

Lemma NoDup_unigram_features (n : nat) : NoDup (unigram_features n).
Proof.
  unfold unigram_features.
  apply NoDup_bind; [| |apply (bool_decide_unpack _); by vm_compute].
  { intros p1 p2 f _ _ H1 H2. bind_inv H1. bind_inv H2. congruence. }
  intros pos _. apply NoDup_bind; [| |apply NoDup_py_range].
  { intros w1 w2 f _ _ H1 H2. bind_inv H1. bind_inv H2. congruence. }
  intros word _. apply NoDup_bind; [| |apply NoDup_py_range].
  { intros t1 t2 f _ _ H1 H2. bind_inv H1. bind_inv H2. congruence. }
  intros tag _. apply NoDup_singleton.
Qed.

Lemma NoDup_bigram_features (n : nat) : NoDup (bigram_features n).
Proof.
  unfold bigram_features.
  apply NoDup_bind; [| |apply (bool_decide_unpack _); by vm_compute].
  { intros p1 p2 f _ _ H1 H2. bind_inv H1. bind_inv H2. congruence. }
  intros pos _. apply NoDup_bind; [| |apply NoDup_py_range].
  { intros w1 w2 f _ _ H1 H2. bind_inv H1. bind_inv H2. congruence. }
  intros word _. apply NoDup_bind; [| |apply NoDup_py_range].
  { intros t1 t2 f _ _ H1 H2. bind_inv H1. bind_inv H2. congruence. }
  intros yi_1 _. apply NoDup_bind; [| |apply NoDup_py_range].
  { intros t1 t2 f _ _ H1 H2. bind_inv H1. bind_inv H2. congruence. }
  intros yi _. apply NoDup_singleton.
Qed.

Lemma NoDup_all_features (n : nat) : NoDup (all_features n).
Proof.
  apply NoDup_app. split_and!.
  - apply NoDup_unigram_features.
  - intros f (pos & word & tag & -> & _)%elem_of_unigram_features
             (? & ? & ? & ? & ? & _)%elem_of_bigram_features. done.
  - apply NoDup_bigram_features.
Qed.

Lemma length_py_range (a b : nat) : length (py_range a b) = b - a.
Proof. apply length_seq. Qed.

Lemma length_unigram_features (n : nat) :
  length (unigram_features n) = 5 * n * ntags.
Proof.
  unfold unigram_features.
  rewrite (length_bind_const _ (n * ntags)); [simpl; lia|].
  intros pos. rewrite (length_bind_const _ ntags), length_py_range; [lia|].
  intros word. rewrite (length_bind_const _ 1), length_py_range; [lia|done].
Qed.

Lemma length_bigram_features (n : nat) :
  length (bigram_features n) = n * ntags ^ 2.
Proof.
  unfold bigram_features.
  rewrite (length_bind_const _ (n * ntags ^ 2)); [simpl; lia|].
  intros pos. rewrite (length_bind_const _ (ntags ^ 2)), length_py_range; [lia|].
  intros word. rewrite (length_bind_const _ ntags), length_py_range; [simpl; lia|].
  intros yi_1. rewrite (length_bind_const _ 1), length_py_range; [lia|done].
Qed.

End enumeration.

Lemma train_features_built (self : LinearCRF) :
  feature_index self = ∅ → index_feature self = ∅ →
  feature_space_built (train_features self)
  ∧ nwords (train_features self) = nwords self
  ∧ length (weights (train_features self)) = nfeatures (train_features self).
Proof.
  intros Hfi Hinf. unfold train_features.
  rewrite enumerate_features_foldl, Hfi, Hinf.
  destruct (register_all (all_features (nwords self))) as (fi & inf & -> & H1 & H2).
  { apply NoDup_all_features. }
  simpl. split_and!; [|done|by rewrite length_replicate].
  constructor; simpl; done.
Qed.

Lemma length_all_features (n : nat) :
  length (all_features n) = 5 * n * ntags + n * ntags ^ 2.
Proof.
  unfold all_features.
  by rewrite length_app, length_unigram_features, length_bigram_features.
Qed.

Lemma all_features_unigram_lt (n k : nat) (pos : Z) (word tag : nat) :
  all_features n !! k = Some (FU pos word tag) →
  k < length (unigram_features n).
Proof.
  intros Hk. destruct (decide (k < length (unigram_features n))); [done|].
  unfold all_features in Hk. rewrite lookup_app_r in Hk by lia.
  apply list_elem_of_lookup_2, elem_of_bigram_features in Hk.
  by destruct Hk as (? & ? & ? & ? & ? & _).
Qed.

Lemma all_features_bigram_ge (n k : nat) (pos : Z) (word yi_1 yi : nat) :
  all_features n !! k = Some (FB pos word yi_1 yi) →
  length (unigram_features n) ≤ k.
Proof.
  intros Hk. destruct (decide (k < length (unigram_features n))); [|lia].
  unfold all_features in Hk. rewrite lookup_app_l in Hk by lia.
  apply list_elem_of_lookup_2, elem_of_unigram_features in Hk.
  by destruct Hk as (? & ? & ? & ? & _).
Qed.

(** C8.  After [train] has enumerated the features of a corpus with [n]
    vocabulary entries, [feature_index] and [index_feature] are inverse to
    each other, the ids in use are exactly [0 .. nfeatures-1], no id is given
    twice, every unigram feature has a lower id than every bigram feature,
    and [nfeatures = 5 * n * ntags + n * ntags^2]. *)
Theorem feature_enumeration_dense (n : nat) (data : list (list nat * list nat)) :
  let s := train_features (read_corpus init n data) in
  (∀ f k, feature_index s !! f = Some k ↔ index_feature s !! k = Some f)
  ∧ (∀ k, (∃ f, feature_index s !! f = Some k) ↔ k < nfeatures s)
  ∧ (∀ k, is_Some (index_feature s !! k) ↔ k < nfeatures s)
  ∧ (∀ f f' k, feature_index s !! f = Some k →
               feature_index s !! f' = Some k → f = f')
  ∧ (∀ pos word tag pos' word' yi_1 yi k k',
       feature_index s !! FU pos word tag = Some k →
       feature_index s !! FB pos' word' yi_1 yi = Some k' → k < k')
  ∧ nwords s = n
  ∧ nfeatures s = 5 * n * ntags + n * ntags ^ 2.
Proof.
  intros s.
  destruct (train_features_built (read_corpus init n data))
    as ([Hfi Hinf Hnf] & Hnw & _); [done..|].
  fold s in Hfi, Hinf, Hnf, Hnw. simpl in Hnw. rewrite Hnw in *.
  split_and!.
  - intros f k. by rewrite Hfi, Hinf.
  - intros k. rewrite Hnf. split.
    + intros (f & Hf). apply Hfi in Hf. by eapply lookup_lt_Some.
    + intros Hk. apply lookup_lt_is_Some in Hk as (f & Hf).
      exists f. by apply Hfi.
  - intros k. rewrite Hnf, <- lookup_lt_is_Some. unfold is_Some.
    split; intros (f & Hf); exists f; by apply Hinf.
  - intros f f' k H1%Hfi H2%Hfi. congruence.
  - intros pos word tag pos' word' yi_1 yi k k' H1%Hfi H2%Hfi.
    apply all_features_unigram_lt in H1. apply all_features_bigram_ge in H2.
    lia.
  - done.
  - by rewrite Hnf, length_all_features.
Qed.

(** ** log_potential_at *)

Section potential_at.

Lemma getitem_in_range (x : list nat) (j : Z) :
  (0 ≤ j < Z.of_nat (length x))%Z → getitem x j = Ok (nth (Z.to_nat j) x 0).
Proof.
  intros Hj. unfold getitem.
  destruct (Z.ltb_spec j 0) as [?|_]; [lia|].
  destruct (Z.ltb_spec j 0) as [?|_]; [lia|].
  destruct (x !! Z.to_nat j) as [a|] eqn:Hx.
  - by rewrite (nth_lookup_Some _ _ _ _ Hx).
  - apply lookup_ge_None in Hx. lia.
Qed.

Lemma foldM_app {X S : Type} (body : X → S → result S) (l1 l2 : list X) (s : S) :
  foldM body (l1 ++ l2) s = (foldM body l1 s ≫= foldM body l2).
Proof.
  revert s. induction l1 as [|v l1 IH]; intros s; [done|]. simpl.
  destruct (body v s) as [s'|e]; simpl; [apply IH|done].
Qed.

Lemma foldM_append {X A : Type} (body : X → list A → result (list A))
    (g : X → list A) (ps : list X) (acc : list A) :
  (∀ p acc, p ∈ ps → body p acc = Ok (acc ++ g p)) →
  foldM body ps acc = Ok (acc ++ (ps ≫= g)).
Proof.
  revert acc. induction ps as [|p ps IH]; intros acc Hbody.
  { simpl. by rewrite app_nil_r. }
  simpl foldM. rewrite Hbody by left. rewrite bind_Ok, IH.
  - by rewrite bind_cons, app_assoc.
  - intros q acc' Hq. apply Hbody. by right.
Qed.

Lemma append_U_Ok (self : LinearCRF) (x : list nat) (yi i : nat) (pos : Z)
    (acc : list nat) :
  (∀ f, f ∈ active_U x yi i → is_Some (feature_index self !! f)) →
  pos ∈ U_feature_pos →
  append_U self x yi i pos acc =
  Ok (acc ++ map (fid self)
        (if bool_decide (0 ≤ pos + Z.of_nat i)%Z
            && bool_decide (pos + Z.of_nat i < Z.of_nat (length x))%Z
         then [FU pos (nth (Z.to_nat (pos + Z.of_nat i)) x 0) yi] else [])).
Proof.
  intros Hall Hpos. unfold append_U.
  destruct (bool_decide (0 ≤ pos + Z.of_nat i)%Z
            && bool_decide (pos + Z.of_nat i < Z.of_nat (length x))%Z) eqn:Hb.
  - pose proof Hb as Hb'.
    apply andb_prop in Hb as [H0%bool_decide_eq_true H1%bool_decide_eq_true].
    rewrite getitem_in_range by lia. simpl.
    destruct (Hall (FU pos (nth (Z.to_nat (pos + Z.of_nat i)) x 0) yi))
      as [k Hk].
    { unfold active_U. apply list_elem_of_bind. exists pos. split; [|done].
      rewrite Hb'. by left. }
    unfold dict_get, fid. by rewrite Hk.
  - simpl. by rewrite app_nil_r.
Qed.

Lemma append_B_Ok (self : LinearCRF) (x : list nat) (yi_1 yi i : nat) (pos : Z)
    (acc : list nat) :
  (∀ f, f ∈ active_B x yi_1 yi i → is_Some (feature_index self !! f)) →
  pos ∈ B_feature_pos →
  append_B self x yi_1 yi i pos acc =
  Ok (acc ++ map (fid self)
        (if bool_decide (1 ≤ pos + Z.of_nat i)%Z
            && bool_decide (pos + Z.of_nat i < Z.of_nat (length x))%Z
         then [FB pos (nth (Z.to_nat (pos + Z.of_nat i)) x 0) yi_1 yi] else [])).
Proof.
  intros Hall Hpos. unfold append_B.
  destruct (bool_decide (1 ≤ pos + Z.of_nat i)%Z
            && bool_decide (pos + Z.of_nat i < Z.of_nat (length x))%Z) eqn:Hb.
  - pose proof Hb as Hb'.
    apply andb_prop in Hb as [H0%bool_decide_eq_true H1%bool_decide_eq_true].
    rewrite getitem_in_range by lia. simpl.
    destruct (Hall (FB pos (nth (Z.to_nat (pos + Z.of_nat i)) x 0) yi_1 yi))
      as [k Hk].
    { unfold active_B. apply list_elem_of_bind. exists pos. split; [|done].
      rewrite Hb'. by left. }
    unfold dict_get, fid. by rewrite Hk.
  - simpl. by rewrite app_nil_r.
Qed.

Lemma map_bind {A B C : Type} (h : B → C) (g : A → list B) (l : list A) :
  map h (l ≫= g) = l ≫= (λ a, map h (g a)).
Proof.
  induction l as [|a l IH]; [done|].
  by rewrite !bind_cons, map_app, IH.
Qed.

Lemma append_U_all_Ok (self : LinearCRF) (x : list nat) (yi i : nat)
    (acc : list nat) :
  (∀ f, f ∈ active_U x yi i → is_Some (feature_index self !! f)) →
  foldM (append_U self x yi i) U_feature_pos acc =
  Ok (acc ++ map (fid self) (active_U x yi i)).
Proof.
  intros Hall.
  rewrite (foldM_append _ (λ pos, map (fid self)
    (if bool_decide (0 ≤ pos + Z.of_nat i)%Z
        && bool_decide (pos + Z.of_nat i < Z.of_nat (length x))%Z
     then [FU pos (nth (Z.to_nat (pos + Z.of_nat i)) x 0) yi] else []))).
  2:{ intros p acc' Hp. by apply append_U_Ok. }
  unfold active_U. by rewrite map_bind.
Qed.

(** When every active feature has an id, the two loops append those ids. *)
Lemma append_active_all (self : LinearCRF) (x : list nat) (yi_1 yi i : nat)
    (acc : list nat) :
  (∀ f, f ∈ active_features x yi_1 yi i → is_Some (feature_index self !! f)) →
  append_active self x yi_1 yi i acc =
  Ok (acc ++ map (fid self) (active_features x yi_1 yi i)).
Proof.
  intros Hall. unfold append_active, active_features.
  rewrite (foldM_append _ (λ pos, map (fid self)
    (if bool_decide (0 ≤ pos + Z.of_nat i)%Z
        && bool_decide (pos + Z.of_nat i < Z.of_nat (length x))%Z
     then [FU pos (nth (Z.to_nat (pos + Z.of_nat i)) x 0) yi] else []))).
  2:{ intros p acc' Hp. apply append_U_Ok; [|done].
      intros f Hf. apply Hall, elem_of_app. by left. }
  rewrite bind_Ok.
  rewrite (foldM_append _ (λ pos, map (fid self)
    (if bool_decide (1 ≤ pos + Z.of_nat i)%Z
        && bool_decide (pos + Z.of_nat i < Z.of_nat (length x))%Z
     then [FB pos (nth (Z.to_nat (pos + Z.of_nat i)) x 0) yi_1 yi] else []))).
  2:{ intros p acc' Hp. apply append_B_Ok; [|done].
      intros f Hf. apply Hall, elem_of_app. by right. }
  f_equal. rewrite map_app, <- app_assoc. unfold active_U, active_B.
  by rewrite !map_bind.
Qed.

End potential_at.

Section potential_value.

Lemma foldM_append_Err {X A : Type} (body : X → list A → result (list A))
    (g : X → list A) (e : exn) (ps : list X) (acc : list A) :
  (∀ p, p ∈ ps → (∀ acc, body p acc = Ok (acc ++ g p))
                 ∨ (∀ acc, body p acc = Err e)) →
  (∃ p, p ∈ ps ∧ ∀ acc, body p acc = Err e) →
  foldM body ps acc = Err e.
Proof.
  revert acc. induction ps as [|p ps IH]; intros acc Hbody (q & Hq & Hqe).
  { by apply elem_of_nil in Hq. }
  simpl foldM. destruct (Hbody p) as [Hok|Herr]; [by left|..].
  - rewrite Hok, bind_Ok. apply IH.
    + intros p' Hp'. apply Hbody. by right.
    + apply elem_of_cons in Hq as [->|Hq]; [|by eauto].
      specialize (Hqe []). by rewrite Hok in Hqe.
  - by rewrite Herr.
Qed.

Lemma append_U_cases (self : LinearCRF) (x : list nat) (yi i : nat) (pos : Z) :
  (∀ acc, append_U self x yi i pos acc =
          Ok (acc ++ map (fid self)
            (if bool_decide (0 ≤ pos + Z.of_nat i)%Z
                && bool_decide (pos + Z.of_nat i < Z.of_nat (length x))%Z
             then [FU pos (nth (Z.to_nat (pos + Z.of_nat i)) x 0) yi] else [])))
  ∨ ((∀ acc, append_U self x yi i pos acc = Err KeyError)
     ∧ bool_decide (0 ≤ pos + Z.of_nat i)%Z
       && bool_decide (pos + Z.of_nat i < Z.of_nat (length x))%Z = true
     ∧ feature_index self
         !! FU pos (nth (Z.to_nat (pos + Z.of_nat i)) x 0) yi = None).
Proof.
  unfold append_U.
  destruct (bool_decide (0 ≤ pos + Z.of_nat i)%Z
            && bool_decide (pos + Z.of_nat i < Z.of_nat (length x))%Z) eqn:Hb.
  - pose proof Hb as Hb'.
    apply andb_prop in Hb as [H0%bool_decide_eq_true H1%bool_decide_eq_true].
    rewrite getitem_in_range by lia. unfold dict_get, fid.
    destruct (feature_index self !! _) as [k|] eqn:Hk.
    + left. intros acc. simpl. by rewrite Hk.
    + right. split_and!; [|done..]. intros acc. simpl. by rewrite Hk.
  - left. intros acc. simpl. by rewrite app_nil_r.
Qed.

Lemma append_B_cases (self : LinearCRF) (x : list nat) (yi_1 yi i : nat)
    (pos : Z) :
  (∀ acc, append_B self x yi_1 yi i pos acc =
          Ok (acc ++ map (fid self)
            (if bool_decide (1 ≤ pos + Z.of_nat i)%Z
                && bool_decide (pos + Z.of_nat i < Z.of_nat (length x))%Z
             then [FB pos (nth (Z.to_nat (pos + Z.of_nat i)) x 0) yi_1 yi]
             else [])))
  ∨ ((∀ acc, append_B self x yi_1 yi i pos acc = Err KeyError)
     ∧ bool_decide (1 ≤ pos + Z.of_nat i)%Z
       && bool_decide (pos + Z.of_nat i < Z.of_nat (length x))%Z = true
     ∧ feature_index self
         !! FB pos (nth (Z.to_nat (pos + Z.of_nat i)) x 0) yi_1 yi = None).
Proof.
  unfold append_B.
  destruct (bool_decide (1 ≤ pos + Z.of_nat i)%Z
            && bool_decide (pos + Z.of_nat i < Z.of_nat (length x))%Z) eqn:Hb.
  - pose proof Hb as Hb'.
    apply andb_prop in Hb as [H0%bool_decide_eq_true H1%bool_decide_eq_true].
    rewrite getitem_in_range by lia. unfold dict_get, fid.
    destruct (feature_index self !! _) as [k|] eqn:Hk.
    + left. intros acc. simpl. by rewrite Hk.
    + right. split_and!; [|done..]. intros acc. simpl. by rewrite Hk.
  - left. intros acc. simpl. by rewrite app_nil_r.
Qed.

(** A missing active feature makes the loops raise [KeyError]. *)
Lemma append_active_missing (self : LinearCRF) (x : list nat)
    (yi_1 yi i : nat) (acc : list nat) (f : feature) :
  f ∈ active_features x yi_1 yi i → feature_index self !! f = None →
  append_active self x yi_1 yi i acc = Err KeyError.
Proof.
  intros Hf Hnone. unfold append_active.
  destruct (decide (Exists (λ f, feature_index self !! f = None)
                      (active_U x yi i))) as [HU|HU].
  - apply Exists_exists in HU as (f' & Hf' & Hnone').
    rewrite (foldM_append_Err _ (λ pos, map (fid self)
      (if bool_decide (0 ≤ pos + Z.of_nat i)%Z
          && bool_decide (pos + Z.of_nat i < Z.of_nat (length x))%Z
       then [FU pos (nth (Z.to_nat (pos + Z.of_nat i)) x 0) yi] else []))
      KeyError); [done|..].
    + intros p _. destruct (append_U_cases self x yi i p) as [?|[? _]]; auto.
    + unfold active_U in Hf'. apply list_elem_of_bind in Hf' as (p & Hp & Hpin).
      exists p. split; [done|].
      destruct (append_U_cases self x yi i p) as [Hok|[? _]]; [|done].
      exfalso. destruct (bool_decide _ && bool_decide _) eqn:Hb in Hp;
        [|by apply elem_of_nil in Hp].
      apply list_elem_of_singleton in Hp as ->.
      specialize (Hok []). unfold append_U in Hok. rewrite Hb in Hok.
      apply andb_prop in Hb as [H0%bool_decide_eq_true H1%bool_decide_eq_true].
      rewrite getitem_in_range in Hok by lia. unfold dict_get in Hok.
      simpl in Hok. by rewrite Hnone' in Hok.
  - rewrite append_U_all_Ok; cycle 1.
    { intros f' Hf'. destruct (feature_index self !! f') eqn:E; [done|].
      exfalso. apply HU, Exists_exists. eauto. }
    rewrite bind_Ok.
    assert (f ∈ active_B x yi_1 yi i) as HfB.
    { apply elem_of_app in Hf as [Hf|Hf]; [|done].
      exfalso. apply HU, Exists_exists. eauto. }
    apply (foldM_append_Err _ (λ pos, map (fid self)
      (if bool_decide (1 ≤ pos + Z.of_nat i)%Z
          && bool_decide (pos + Z.of_nat i < Z.of_nat (length x))%Z
       then [FB pos (nth (Z.to_nat (pos + Z.of_nat i)) x 0) yi_1 yi]
       else []))).
    + intros p _. destruct (append_B_cases self x yi_1 yi i p) as [?|[? _]]; auto.
    + unfold active_B in HfB. apply list_elem_of_bind in HfB as (p & Hp & Hpin).
      exists p. split; [done|].
      destruct (append_B_cases self x yi_1 yi i p) as [Hok|[? _]]; [|done].
      exfalso. destruct (bool_decide _ && bool_decide _) eqn:Hb in Hp;
        [|by apply elem_of_nil in Hp].
      apply list_elem_of_singleton in Hp as ->.
      specialize (Hok []). unfold append_B in Hok. rewrite Hb in Hok.
      apply andb_prop in Hb as [H0%bool_decide_eq_true H1%bool_decide_eq_true].
      rewrite getitem_in_range in Hok by lia. unfold dict_get in Hok.
      simpl in Hok. by rewrite Hnone in Hok.
Qed.

End potential_value.

Section potential_total.

Lemma fancy_index_Ok (arr : list R) (ids : list nat) :
  (∀ k, k ∈ ids → k < length arr) →
  fancy_index arr ids = Ok (map (λ k, nth k arr 0%R) ids).
Proof.
  induction ids as [|k ids IH]; intros Hids; [done|]. simpl.
  destruct (lookup_lt_is_Some_2 arr k) as [v Hv]; [apply Hids; by left|].
  rewrite (get_Ok _ _ _ Hv), bind_Ok, IH, bind_Ok.
  - by rewrite (nth_lookup_Some _ _ _ _ Hv).
  - intros k' Hk'. apply Hids. by right.
Qed.

Lemma nth_in_vocabulary (self : LinearCRF) (x : list nat) (j : nat) :
  in_vocabulary self x → j < length x → nth j x 0 < nwords self.
Proof.
  intros Hx Hj. apply Hx. apply list_elem_of_In, nth_In. done.
Qed.

Lemma active_features_all (self : LinearCRF) (x : list nat) (yi_1 yi i : nat)
    (f : feature) :
  in_vocabulary self x → yi_1 < ntags → yi < ntags →
  f ∈ active_features x yi_1 yi i → f ∈ all_features (nwords self).
Proof.
  intros Hx H1 H2 [Hf|Hf]%elem_of_app.
  - apply elem_of_app. left. apply elem_of_unigram_features.
    unfold active_U in Hf. apply list_elem_of_bind in Hf as (pos & Hf & Hpos).
    destruct (bool_decide _ && bool_decide _) eqn:Hb in Hf;
      [|by apply elem_of_nil in Hf].
    apply list_elem_of_singleton in Hf as ->.
    apply andb_prop in Hb as [Ha%bool_decide_eq_true Hb%bool_decide_eq_true].
    eexists _, _, _. split_and!; [done|done| |done].
    apply nth_in_vocabulary; [done|lia].
  - apply elem_of_app. right. apply elem_of_bigram_features.
    unfold active_B in Hf. apply list_elem_of_bind in Hf as (pos & Hf & Hpos).
    destruct (bool_decide _ && bool_decide _) eqn:Hb in Hf;
      [|by apply elem_of_nil in Hf].
    apply list_elem_of_singleton in Hf as ->.
    apply andb_prop in Hb as [Ha%bool_decide_eq_true Hb%bool_decide_eq_true].
    eexists _, _, _, _. split_and!; [done|done| |done|done].
    apply nth_in_vocabulary; [done|lia].
Qed.

Lemma built_fid (self : LinearCRF) (f : feature) :
  feature_space_built self → f ∈ all_features (nwords self) →
  feature_index self !! f = Some (fid self f)
  ∧ all_features (nwords self) !! fid self f = Some f
  ∧ fid self f < nfeatures self.
Proof.
  intros [Hfi _ Hnf] (k & Hk)%list_elem_of_lookup_1.
  pose proof Hk as Hk'. apply Hfi in Hk'. unfold fid. rewrite Hk'. simpl.
  split_and!; [done..|]. rewrite Hnf. by eapply lookup_lt_Some.
Qed.

(** On an in-vocabulary sequence [log_potential_at] returns the sum of the
    weights of the active features. *)
Lemma log_potential_at_Ok (self : LinearCRF) (x : list nat) (yi_1 yi i : nat) :
  feature_space_built self → length (weights self) = nfeatures self →
  in_vocabulary self x → yi_1 < ntags → yi < ntags →
  log_potential_at self x yi_1 yi i = Ok (potential_value self x yi_1 yi i).
Proof.
  intros Hb Hw Hx H1 H2. unfold log_potential_at.
  rewrite append_active_all; cycle 1.
  { intros f Hf. eapply active_features_all in Hf; [|done..].
    destruct (built_fid self f Hb Hf) as (-> & _). done. }
  rewrite bind_Ok. simpl app. rewrite fancy_index_Ok; cycle 1.
  { intros k (f & -> & Hf)%list_elem_of_fmap.
    eapply active_features_all in Hf; [|done..].
    destruct (built_fid self f Hb Hf) as (_ & _ & Hlt). lia. }
  rewrite bind_Ok. unfold potential_value. by rewrite map_map.
Qed.

End potential_total.

(** C6, as the code has it.  Where one of the features active at the
    position has no id in [feature_index], be it for an unseen word id or an
    unseen (word, tag) combination, [log_potential_at] raises [KeyError];
    nothing is put in its place. *)
Theorem log_potential_at_unseen_KeyError (self : LinearCRF) (x : list nat)
    (yi_1 yi i : nat) (f : feature) :
  f ∈ active_features x yi_1 yi i →
  feature_index self !! f = None →
  log_potential_at self x yi_1 yi i = Err KeyError.
Proof.
  intros Hf Hnone. unfold log_potential_at.
  by rewrite (append_active_missing self x yi_1 yi i [] f Hf Hnone).
Qed.

Lemma log_potential_at_unseen_KeyError_witness :
  FU 0 3 0 ∈ active_features [0; 3; 1] 0 0 1
  ∧ feature_index example_model !! FU 0 3 0 = None
  ∧ log_potential_at example_model [0; 3; 1] 0 0 1 = Err KeyError.
Proof.
  assert (FU 0 3 0 ∈ active_features [0; 3; 1] 0 0 1) as H1.
  { apply (bool_decide_unpack _). by vm_compute. }
  assert (feature_index example_model !! FU 0 3 0 = None) as H2.
  { by vm_compute. }
  split_and!; [done..|].
  exact (log_potential_at_unseen_KeyError example_model [0; 3; 1] 0 0 1
           (FU 0 3 0) H1 H2).
Defined.

(** ** feature_at against the active-feature lists *)

Section reference_sum.
Local Open Scope R_scope.

Lemma elem_of_active_U (x : list nat) (yi i : nat) (pos : Z) (word tag : nat) :
  FU pos word tag ∈ active_U x yi i ↔
  pos ∈ U_feature_pos ∧ (0 ≤ pos + Z.of_nat i < Z.of_nat (length x))%Z
  ∧ word = nth (Z.to_nat (pos + Z.of_nat i)) x 0%nat ∧ tag = yi.
Proof.
  unfold active_U. rewrite list_elem_of_bind. split.
  - intros (p & Hf & Hp).
    destruct (bool_decide _ && bool_decide _) eqn:Hb in Hf;
      [|by apply elem_of_nil in Hf].
    apply list_elem_of_singleton in Hf. injection Hf as -> -> ->.
    apply andb_prop in Hb as [Ha%bool_decide_eq_true Hb%bool_decide_eq_true].
    done.
  - intros (Hp & [Ha Hb] & -> & ->). exists pos. split; [|done].
    rewrite !bool_decide_eq_true_2 by done. by left.
Qed.

Lemma elem_of_active_B (x : list nat) (yi_1 yi i : nat) (pos : Z)
    (word tag1 tag2 : nat) :
  FB pos word tag1 tag2 ∈ active_B x yi_1 yi i ↔
  pos ∈ B_feature_pos ∧ (1 ≤ pos + Z.of_nat i < Z.of_nat (length x))%Z
  ∧ word = nth (Z.to_nat (pos + Z.of_nat i)) x 0%nat
  ∧ tag1 = yi_1 ∧ tag2 = yi.
Proof.
  unfold active_B. rewrite list_elem_of_bind. split.
  - intros (p & Hf & Hp).
    destruct (bool_decide _ && bool_decide _) eqn:Hb in Hf;
      [|by apply elem_of_nil in Hf].
    apply list_elem_of_singleton in Hf. injection Hf as -> -> -> ->.
    apply andb_prop in Hb as [Ha%bool_decide_eq_true Hb%bool_decide_eq_true].
    done.
  - intros (Hp & [Ha Hb] & -> & -> & ->). exists pos. split; [|done].
    rewrite !bool_decide_eq_true_2 by done. by left.
Qed.

Lemma FU_not_active_B (x : list nat) (yi_1 yi i : nat) (pos : Z)
    (word tag : nat) :
  FU pos word tag ∉ active_B x yi_1 yi i.
Proof.
  unfold active_B. intros (p & Hf & _)%list_elem_of_bind.
  destruct (bool_decide _ && bool_decide _) in Hf;
    [by apply list_elem_of_singleton in Hf | by apply elem_of_nil in Hf].
Qed.

Lemma FB_not_active_U (x : list nat) (yi i : nat) (pos : Z)
    (word tag1 tag2 : nat) :
  FB pos word tag1 tag2 ∉ active_U x yi i.
Proof.
  unfold active_U. intros (p & Hf & _)%list_elem_of_bind.
  destruct (bool_decide _ && bool_decide _) in Hf;
    [by apply list_elem_of_singleton in Hf | by apply elem_of_nil in Hf].
Qed.

Ltac close_indicator Hiff :=
  exfalso; destruct Hiff as [Hiff1 Hiff2];
  match goal with
  | H : _ ∉ _ |- _ =>
      apply H, Hiff2; repeat split; first [lia | congruence]
  | H : _ ∈ _ |- _ =>
      apply Hiff1 in H; destruct_and?; first [lia | congruence]
  end.

(** [feature_at] is the indicator of the active-feature list. *)
Lemma feature_at_indicator (self : LinearCRF) (k : nat) (x : list nat)
    (yi_1 yi i : nat) (f : feature) :
  index_feature self !! k = Some f → f ∈ all_features (nwords self) →
  (1 ≤ i ≤ length x - 1)%nat →
  feature_at self k x yi_1 yi i =
  Ok (if bool_decide (f ∈ active_features x yi_1 yi i) then 1 else 0)%nat.
Proof.
  intros Hk Hf Hi. unfold feature_at, dict_get. rewrite Hk, bind_Ok.
  apply elem_of_app in Hf as [Hf|Hf].
  - apply elem_of_unigram_features in Hf
      as (pos & word & tag & -> & Hpos & Hw & Ht).
    replace (Z.of_nat i + pos)%Z with (pos + Z.of_nat i)%Z by lia.
    assert (FU pos word tag ∈ active_features x yi_1 yi i ↔
            (0 ≤ pos + Z.of_nat i < Z.of_nat (length x))%Z
            ∧ word = nth (Z.to_nat (pos + Z.of_nat i)) x 0%nat ∧ tag = yi)
      as Hiff.
    { unfold active_features. rewrite elem_of_app, elem_of_active_U.
      pose proof (FU_not_active_B x yi_1 yi i pos word tag). tauto. }
    repeat case_bool_decide; simpl;
      try (rewrite getitem_in_range by lia; rewrite bind_Ok);
      repeat case_bool_decide; try done; close_indicator Hiff.
  - apply elem_of_bigram_features in Hf
      as (pos & word & t1 & t2 & -> & Hpos & Hw & Ht1 & Ht2).
    apply list_elem_of_singleton in Hpos as ->.
    replace (Z.of_nat i + 0)%Z with (0 + Z.of_nat i)%Z by lia.
    assert (FB 0 word t1 t2 ∈ active_features x yi_1 yi i ↔
            (1 ≤ 0 + Z.of_nat i < Z.of_nat (length x))%Z
            ∧ word = nth (Z.to_nat (0 + Z.of_nat i)) x 0%nat
            ∧ t1 = yi_1 ∧ t2 = yi)
      as Hiff.
    { unfold active_features. rewrite elem_of_app, elem_of_active_B.
      pose proof (FB_not_active_U x yi i 0 word t1 t2).
      assert (0%Z ∈ B_feature_pos) by by left. tauto. }
    repeat case_bool_decide; simpl;
      try (rewrite getitem_in_range by lia; rewrite bind_Ok);
      repeat case_bool_decide; simpl; try done; close_indicator Hiff.
Qed.

End reference_sum.

Section indicator_sum.
Local Open Scope R_scope.

Lemma foldM_sum {X : Type} (body : X → R → result R) (h : X → R)
    (l : list X) (a : R) :
  (∀ k acc, k ∈ l → body k acc = Ok (acc + h k)) →
  foldM body l a = Ok (a + np_sum (map h l)).
Proof.
  revert a. induction l as [|k l IH]; intros a Hbody; simpl.
  { f_equal. lra. }
  rewrite Hbody by left. rewrite bind_Ok, IH.
  - f_equal. lra.
  - intros k' acc Hk'. apply Hbody. by right.
Qed.

Lemma np_sum_zero {A : Type} (g : A → R) (l : list A) :
  (∀ a, a ∈ l → g a = 0) → np_sum (map g l) = 0.
Proof.
  induction l as [|a l IH]; intros Hg; simpl; [done|].
  rewrite Hg by left. rewrite IH; [lra|]. intros b Hb. apply Hg. by right.
Qed.

Lemma np_sum_plus {A : Type} (g h : A → R) (l : list A) :
  np_sum (map (λ a, g a + h a) l) = np_sum (map g l) + np_sum (map h l).
Proof. induction l as [|a l IH]; simpl; [lra | rewrite IH; lra]. Qed.

(** A sum over [a, a+n) with a single non-zero term at [j]. *)
Lemma np_sum_single (c : nat → R) (j a n : nat) :
  (a ≤ j < a + n)%nat →
  np_sum (map (λ k, if bool_decide (k = j) then c k else 0) (seq a n)) = c j.
Proof.
  revert a. induction n as [|n IH]; intros a Hj; [lia|]. simpl.
  case_bool_decide as Ha.
  - subst a. rewrite np_sum_zero; [lra|].
    intros k Hk%elem_of_seq. rewrite bool_decide_eq_false_2; [done|lia].
  - rewrite IH by lia. lra.
Qed.

(** Summing [c k] over the positions [k] of a duplicate-free list [L] whose
    entry lies in [A] is summing over [A]. *)
Lemma indicator_sum (L A : list feature) (c : nat → R) (idx : feature → nat) :
  NoDup L → NoDup A → (∀ f, f ∈ A → L !! idx f = Some f) →
  np_sum (map (λ k, c k * INR (match L !! k with
                               | Some f => if bool_decide (f ∈ A) then 1 else 0
                               | None => 0
                               end)) (seq 0 (length L)))
  = np_sum (map (λ f, c (idx f)) A).
Proof.
  intros HL. induction A as [|a A IH]; intros HA Hidx.
  - simpl. apply np_sum_zero. intros k _. destruct (L !! k); simpl; lra.
  - apply NoDup_cons in HA as [Ha HA]. simpl.
    rewrite <- IH; [|done|intros f Hf; apply Hidx; by right].
    rewrite <- (np_sum_single c (idx a) 0 (length L)).
    2:{ split; [lia|]. simpl. eapply lookup_lt_Some, Hidx. by left. }
    rewrite <- np_sum_plus. apply np_sum_ext. intros k Hk.
    pose proof (Hidx a ltac:(by left)) as Hia.
    destruct (L !! k) as [f|] eqn:Hf.
    + cbv beta. destruct (decide (k = idx a)) as [Hk1|Hk1].
      * subst k. assert (f = a) as -> by congruence.
        rewrite (bool_decide_eq_true_2 (idx a = idx a)) by done.
        rewrite (bool_decide_eq_true_2 (a ∈ a :: A)) by by left.
        rewrite (bool_decide_eq_false_2 (a ∈ A)) by done. simpl. lra.
      * assert (f ≠ a) as Hne.
        { intros ->. apply Hk1. exact (NoDup_lookup L k (idx a) a HL Hf Hia). }
        rewrite (bool_decide_eq_false_2 (k = idx a)) by done.
        destruct (decide (f ∈ A)) as [HfA|HfA].
        -- rewrite (bool_decide_eq_true_2 (f ∈ A)) by done.
           rewrite (bool_decide_eq_true_2 (f ∈ a :: A)) by by right.
           lra.
        -- rewrite (bool_decide_eq_false_2 (f ∈ A)) by done.
           rewrite (bool_decide_eq_false_2 (f ∈ a :: A)); [lra|].
           intros [?|?]%elem_of_cons; done.
    + apply lookup_ge_None in Hf. apply elem_of_seq in Hk. lia.
Qed.

Lemma NoDup_active_features (x : list nat) (yi_1 yi i : nat) :
  NoDup (active_features x yi_1 yi i).
Proof.
  apply NoDup_app. split_and!.
  - unfold active_U. apply NoDup_bind;
      [| |apply (bool_decide_unpack _); by vm_compute].
    + intros p1 p2 f _ _ H1 H2.
      destruct (bool_decide _ && bool_decide _) in H1;
        [|by apply elem_of_nil in H1].
      destruct (bool_decide _ && bool_decide _) in H2;
        [|by apply elem_of_nil in H2].
      apply list_elem_of_singleton in H1, H2. congruence.
    + intros p _. destruct (bool_decide _ && bool_decide _);
        [apply NoDup_singleton | apply NoDup_nil_2].
  - intros f Hf HfB. destruct f.
    + by apply FU_not_active_B in HfB.
    + by apply FB_not_active_U in Hf.
  - unfold active_B, B_feature_pos. rewrite bind_singleton.
    destruct (bool_decide _ && bool_decide _);
      [apply NoDup_singleton | apply NoDup_nil_2].
Qed.

End indicator_sum.

(** C10.  Once the feature space is enumerated, on an in-vocabulary sequence
    [x], for tags [yi_1], [yi] and a position [1 <= i <= len(x) - 1],
    [log_potential_at] returns what the reference sum of
    [weights[k] * feature_at(k, x, yi_1, yi, i)] over all feature ids [k]
    returns. *)
Theorem log_potential_at_refines_reference (self : LinearCRF) (x : list nat)
    (yi_1 yi i : nat) :
  feature_space_built self → length (weights self) = nfeatures self →
  in_vocabulary self x → yi_1 < ntags → yi < ntags →
  1 ≤ i ≤ length x - 1 →
  ∃ r, log_potential_at self x yi_1 yi i = Ok r
       ∧ reference_potential self x yi_1 yi i = Ok r.
Proof.
  intros Hb Hw Hx H1 H2 Hi. exists (potential_value self x yi_1 yi i).
  split; [by apply log_potential_at_Ok|].
  unfold reference_potential.
  rewrite (foldM_sum _ (λ k, nth k (weights self) 0 *
    INR (match all_features (nwords self) !! k with
         | Some f => if bool_decide (f ∈ active_features x yi_1 yi i)
                     then 1 else 0
         | None => 0
         end))%R).
  - f_equal. unfold py_range. rewrite Nat.sub_0_r, (built_nfeatures _ Hb).
    rewrite (indicator_sum _ (active_features x yi_1 yi i) _ (fid self)).
    + unfold potential_value. lra.
    + apply NoDup_all_features.
    + apply NoDup_active_features.
    + intros f Hf. eapply active_features_all in Hf; [|done..].
      by destruct (built_fid self f Hb Hf) as (_ & ? & _).
  - intros k acc Hk%elem_of_py_range.
    destruct (lookup_lt_is_Some_2 (weights self) k) as [w Hwk]; [lia|].
    rewrite (get_Ok _ _ _ Hwk), bind_Ok.
    destruct (lookup_lt_is_Some_2 (all_features (nwords self)) k) as [f Hf].
    { rewrite <- (built_nfeatures _ Hb). lia. }
    rewrite (feature_at_indicator self k x yi_1 yi i f); [|by apply Hb| |done].
    + rewrite bind_Ok, Hf. by rewrite (nth_lookup_Some _ _ _ _ Hwk).
    + by eapply list_elem_of_lookup_2.
Qed.

Lemma log_potential_at_refines_reference_witness :
  ∃ r, log_potential_at example_model [0; 2; 1] 3 0 1 = Ok r
       ∧ reference_potential example_model [0; 2; 1] 3 0 1 = Ok r.
Proof.
  apply (log_potential_at_refines_reference example_model [0; 2; 1] 3 0 1).
  - apply (train_features_built (read_corpus init 3 [([0; 2; 1], [3; 3; 3])]));
      reflexivity.
  - vm_compute. reflexivity.
  - intros w Hw. change (w < 3).
    repeat (apply elem_of_cons in Hw as [->|Hw]); [lia..|].
    by apply elem_of_nil in Hw.
  - unfold ntags. lia.
  - unfold ntags. lia.
  - simpl. lia.
Defined.

(** ** Loops that fill a table *)

Section loops.

Lemma foldM_seq_inv {St : Type} (body : nat → St → result St)
    (I : nat → St → Prop) (a m : nat) (s : St) :
  I a s →
  (∀ k s, a ≤ k < a + m → I k s → ∃ s', body k s = Ok s' ∧ I (k + 1) s') →
  ∃ s', foldM body (seq a m) s = Ok s' ∧ I (a + m) s'.
Proof.
  revert a s. induction m as [|m IH]; intros a s HI Hstep.
  { exists s. by rewrite Nat.add_0_r. }
  simpl. destruct (Hstep a s) as (s1 & -> & HI1); [lia|done|].
  rewrite bind_Ok. destruct (IH (a + 1) s1) as (s' & Hs' & HI').
  - done.
  - intros k s2 Hk. apply Hstep. lia.
  - exists s'. replace (S a) with (a + 1) by lia. split; [done|].
    by replace (a + S m) with (a + 1 + m) by lia.
Qed.

(** A loop over [range(c)] that stores [h k] in cell [k] of one row of its
    state; [wr r] is the state with [r] for that row, [P] a property the
    cells keep. *)
Lemma foldM_fill {St A : Type} (P : A → Prop) (wr : list A → St)
    (body : nat → St → result St) (h : nat → A) (r0 : list A) (c : nat) :
  length r0 = c → Forall P r0 → (∀ k, k < c → P (h k)) →
  (∀ k r, k < c → length r = c → Forall P r →
     body k (wr r) = Ok (wr (<[k := h k]> r))) →
  foldM body (seq 0 c) (wr r0) = Ok (wr (map h (seq 0 c))).
Proof.
  intros Hlen HP Hh Hbody.
  destruct (foldM_seq_inv body
    (λ k s, k ≤ c ∧ s = wr (map h (seq 0 k) ++ drop k r0)) 0 c (wr r0))
    as (s' & -> & _ & ->).
  - split; [lia|]. simpl. by rewrite drop_0.
  - intros k s Hk (_ & ->). eexists. split.
    + apply Hbody; [lia| |].
      * rewrite length_app, length_map, length_seq, length_drop. lia.
      * apply Forall_app. split; [|by apply Forall_drop].
        apply Forall_forall. intros y (j & -> & Hj%elem_of_seq)%list_elem_of_fmap.
        apply Hh. lia.
    + split; [lia|]. f_equal.
      replace (k + 1) with (S k) by lia. rewrite seq_S, map_app. simpl.
      rewrite insert_app_r_alt by (rewrite length_map, length_seq; lia).
      rewrite length_map, length_seq, Nat.sub_diag.
      destruct (drop k r0) as [|y ys] eqn:Hd.
      { apply (f_equal length) in Hd. rewrite length_drop in Hd. simpl in Hd. lia. }
      simpl. rewrite <- app_assoc. simpl. do 2 f_equal.
      rewrite <- (Nat.add_1_r k) at 1. rewrite <- drop_drop, Hd. done.
  - simpl. rewrite drop_ge by lia. by rewrite app_nil_r.
Qed.

Lemma set1_Ok {A : Type} (t : list A) (i : nat) (v : A) :
  i < length t → set1 t i v = Ok (<[i := v]> t).
Proof.
  intros Hi. unfold set1. destruct (lookup_lt_is_Some_2 t i Hi) as [a Ha].
  by rewrite (get_Ok _ _ _ Ha).
Qed.

Lemma set2_Ok {A : Type} (t : list (list A)) (i j : nat) (v : A) (ti : list A) :
  t !! i = Some ti → j < length ti →
  set2 t i j v = Ok (<[i := <[j := v]> ti]> t).
Proof.
  intros Hi Hj. unfold set2. rewrite (get_Ok _ _ _ Hi), bind_Ok.
  by rewrite set1_Ok.
Qed.

Lemma set3_Ok {A : Type} (t : list (list (list A))) (i j k : nat) (v : A)
    (ti : list (list A)) (tij : list A) :
  t !! i = Some ti → ti !! j = Some tij → k < length tij →
  set3 t i j k v = Ok (<[i := <[j := <[k := v]> tij]> ti]> t).
Proof.
  intros Hi Hj Hk. unfold set3. rewrite (get_Ok _ _ _ Hi), bind_Ok.
  by rewrite (set2_Ok _ _ _ _ _ Hj Hk).
Qed.

Lemma set_row_Ok {A : Type} (t : list (list A)) (i : nat) (row old : list A) :
  t !! i = Some old → length old = length row →
  set_row t i row = Ok (<[i := row]> t).
Proof.
  intros Hi Hlen. unfold set_row. rewrite (get_Ok _ _ _ Hi), bind_Ok.
  by rewrite bool_decide_eq_true_2.
Qed.

Lemma length_tabulate1 (h : nat → R) : length (tabulate1 h) = ntags.
Proof. unfold tabulate1. by rewrite length_map, length_seq. Qed.

Lemma lookup_tabulate1 (h : nat → R) (k : nat) :
  k < ntags → tabulate1 h !! k = Some (h k).
Proof.
  intros Hk. unfold tabulate1. rewrite list_lookup_fmap.
  by rewrite (lookup_seq_lt 0 ntags k Hk).
Qed.

Lemma length_tabulate2 (h : nat → nat → R) : length (tabulate2 h) = ntags.
Proof. unfold tabulate2. by rewrite length_map, length_seq. Qed.

Lemma lookup_tabulate2 (h : nat → nat → R) (a : nat) :
  a < ntags → tabulate2 h !! a = Some (tabulate1 (h a)).
Proof.
  intros Ha. unfold tabulate2. rewrite list_lookup_fmap.
  by rewrite (lookup_seq_lt 0 ntags a Ha).
Qed.

Lemma length_tabulate3 (n : nat) (h : nat → nat → nat → R) :
  length (tabulate3 n h) = n.
Proof. unfold tabulate3. by rewrite length_map, length_seq. Qed.

Lemma lookup_tabulate3 (n : nat) (h : nat → nat → nat → R) (i : nat) :
  i < n → tabulate3 n h !! i = Some (tabulate2 (h i)).
Proof.
  intros Hi. unfold tabulate3. rewrite list_lookup_fmap.
  by rewrite (lookup_seq_lt 0 n i Hi).
Qed.

Lemma column_map (g : nat → list R) (h : nat → R) (l : list nat) (k : nat) :
  (∀ a, a ∈ l → g a !! k = Some (h a)) →
  column (map g l) k = Ok (map h l).
Proof.
  induction l as [|a l IH]; intros Hg; [done|]. simpl.
  rewrite (get_Ok _ _ _ (Hg a ltac:(by left))), bind_Ok, IH; [done|].
  intros b Hb. apply Hg. by right.
Qed.

Lemma column_tabulate2 (h : nat → nat → R) (k : nat) :
  k < ntags → column (tabulate2 h) k = Ok (tabulate1 (λ a, h a k)).
Proof.
  intros Hk. unfold tabulate2. apply column_map.
  intros a _. by apply lookup_tabulate1.
Qed.

Lemma vadd_tabulate1 (f g : nat → R) :
  vadd (tabulate1 f) (tabulate1 g) = Ok (tabulate1 (λ t, f t + g t)%R).
Proof.
  unfold vadd. rewrite !length_tabulate1, bool_decide_eq_true_2 by done.
  reflexivity.
Qed.

Lemma tabulate1_ext (f g : nat → R) :
  (∀ t, t < ntags → f t = g t) → tabulate1 f = tabulate1 g.
Proof.
  intros Hfg. unfold tabulate1. apply map_ext_in.
  intros t Ht%list_elem_of_In%elem_of_seq. apply Hfg. lia.
Qed.

End loops.

(** ** log_potential_matrix *)

Section potential_matrix.

Lemma py_range_0 (n : nat) : py_range 0 n = seq 0 n.
Proof. unfold py_range. by rewrite Nat.sub_0_r. Qed.

Lemma replicate_as_map {A : Type} (v : A) (k n : nat) :
  replicate n v = map (λ _, v) (seq k n).
Proof.
  revert k. induction n as [|n IH]; intros k; [done|].
  simpl. f_equal. apply IH.
Qed.

Lemma zeros1_tabulate : zeros1 ntags = tabulate1 (λ _, 0%R).
Proof. reflexivity. Qed.

Lemma zeros2_tabulate : zeros2 ntags ntags = tabulate2 (λ _ _, 0%R).
Proof. reflexivity. Qed.

(** The two inner loops of [log_potential_matrix] write the slab [M[i]]. *)
Lemma fill_slab (g : nat → nat → result R) (h : nat → nat → R) (i : nat)
    (M : list (list (list R))) (Mi : list (list R)) :
  M !! i = Some Mi → length Mi = ntags →
  Forall (λ row, length row = ntags) Mi →
  (∀ a b, a < ntags → b < ntags → g a b = Ok (h a b)) →
  foldM (fun tag1 M =>
    foldM (fun tag2 M => v ← g tag1 tag2; set3 M i tag1 tag2 v)
      (py_range 0 ntags) M) (py_range 0 ntags) M
  = Ok (<[i := tabulate2 h]> M).
Proof.
  intros HMi Hlen Hrows Hg. rewrite !py_range_0.
  rewrite <- (list_insert_id M i Mi HMi) at 1.
  pose proof (lookup_lt_Some _ _ _ HMi) as Hi.
  apply (foldM_fill (λ row, length row = ntags) (λ r, <[i := r]> M) _
           (λ a, tabulate1 (h a)) Mi ntags Hlen Hrows).
  { intros a _. apply length_tabulate1. }
  intros a r Ha Hr HPr.
  destruct (lookup_lt_is_Some_2 r a) as [ra Hra]; [lia|].
  assert (length ra = ntags) as Hlra.
  { eapply Forall_lookup_1 in HPr; [|exact Hra]. done. }
  rewrite <- (list_insert_id r a ra Hra) at 1.
  rewrite (foldM_fill (λ _, True) (λ row, <[i := <[a := row]> r]> M) _
             (h a) ra ntags Hlra); [done| |done|].
  { by apply Forall_true. }
  intros b row Hb Hrow _. rewrite Hg, bind_Ok by done.
  rewrite (set3_Ok _ _ _ _ _ (<[a := row]> r) row).
  - by rewrite !list_insert_insert_eq.
  - apply list_lookup_insert_eq. lia.
  - apply list_lookup_insert_eq. lia.
  - lia.
Qed.

Lemma Forall_tabulate2_length (h : nat → nat → R) :
  Forall (λ row, length row = ntags) (tabulate2 h).
Proof.
  apply Forall_forall. intros row (a & -> & _)%list_elem_of_fmap.
  apply length_tabulate1.
Qed.

Lemma insert_map_seq {A : Type} (f g : nat → A) (n k : nat) (v : A) :
  g k = v → (∀ j, j < n → j ≠ k → g j = f j) →
  <[k := v]> (map f (seq 0 n)) = map g (seq 0 n).
Proof.
  intros Hk Hne. apply list_eq. intros j.
  destruct (decide (j < n)) as [Hj|Hj].
  - rewrite (list_lookup_fmap g), (lookup_seq_lt 0 n j Hj). simpl.
    destruct (decide (j = k)) as [->|Hjk].
    + rewrite list_lookup_insert_eq by (by rewrite length_map, length_seq).
      by rewrite Hk.
    + rewrite list_lookup_insert_ne by done.
      rewrite (list_lookup_fmap f), (lookup_seq_lt 0 n j Hj). simpl.
      by rewrite Hne.
  - rewrite !lookup_ge_None_2; [done|..];
      rewrite ?length_insert, length_map, length_seq; lia.
Qed.

Lemma log_potential_matrix_tabulate (self : LinearCRF) (x : list nat)
    (h : nat → nat → nat → R) :
  (∀ i a b, 1 ≤ i < nwords_of x + 2 → a < ntags → b < ntags →
     log_potential_at self x a b i = Ok (h i a b)) →
  log_potential_matrix self x =
  Ok (tabulate3 (nwords_of x + 2)
        (λ i a b, match i with 0 => 0%R | _ => h i a b end)).
Proof.
  intros Hh. unfold log_potential_matrix. cbv zeta.
  set (N := nwords_of x + 2) in *.
  change (py_range 1 N) with (seq 1 (N - 1)).
  destruct (foldM_seq_inv
    (λ i M, foldM (λ tag1 M, foldM (λ tag2 M,
       v ← log_potential_at self x tag1 tag2 i; set3 M i tag1 tag2 v)
       (py_range 0 ntags) M) (py_range 0 ntags) M)
    (λ k M, M = map (λ i, if bool_decide (1 ≤ i < k) then tabulate2 (h i)
                          else tabulate2 (λ _ _, 0%R)) (seq 0 N))
    1 (N - 1) (zeros3 N ntags ntags)) as (M & -> & ->).
  - unfold zeros3. rewrite (replicate_as_map _ 0). apply map_ext_in.
    intros i _. rewrite bool_decide_eq_false_2 by lia. done.
  - intros k M Hk ->. eexists. split.
    + apply (fill_slab (λ a b, log_potential_at self x a b k) (h k) k _
               (tabulate2 (λ _ _, 0%R))).
      * rewrite list_lookup_fmap, (lookup_seq_lt 0 N k) by lia. simpl.
        by rewrite bool_decide_eq_false_2 by lia.
      * apply length_tabulate2.
      * apply Forall_tabulate2_length.
      * intros a b Ha Hb. apply Hh; [lia|done..].
    + apply insert_map_seq.
      * by rewrite bool_decide_eq_true_2 by lia.
      * intros j _ Hj. destruct (decide (1 ≤ j < k)).
        -- by rewrite !bool_decide_eq_true_2 by lia.
        -- by rewrite !bool_decide_eq_false_2 by lia.
  - f_equal. unfold tabulate3. apply map_ext_in.
    intros i Hi%list_elem_of_In%elem_of_seq. destruct i as [|i].
    + by rewrite bool_decide_eq_false_2 by lia.
    + by rewrite bool_decide_eq_true_2 by lia.
Qed.

Lemma log_potential_matrix_Ok (self : LinearCRF) (x : list nat) :
  feature_space_built self → length (weights self) = nfeatures self →
  in_vocabulary self x →
  log_potential_matrix self x =
  Ok (tabulate3 (nwords_of x + 2) (potential_entry self x)).
Proof.
  intros Hb Hw Hx.
  rewrite (log_potential_matrix_tabulate self x
             (λ i a b, potential_value self x a b i)).
  - f_equal.
  - intros i a b _ Ha Hb'. by apply log_potential_at_Ok.
Qed.

End potential_matrix.

(** ** log_alpha, log_beta, log_z *)

Section forward_backward.

Lemma tabulate1_nonempty (h : nat → R) : tabulate1 h ≠ [].
Proof. done. Qed.

Lemma log_sum_exp_tabulate1 (h : nat → R) :
  log_sum_exp (tabulate1 h) = Ok (ln (np_sum (map exp (tabulate1 h)))).
Proof. apply log_sum_exp_value, tabulate1_nonempty. Qed.

(** One pass of the inner loop of [log_alpha] or [log_beta]: row [k] of the
    table becomes [tabulate1 h]. *)
Lemma fill_row (body : nat → list (list R) → result (list (list R)))
    (h : nat → R) (k : nat) (t : list (list R)) (old : list R) :
  t !! k = Some old → length old = ntags →
  (∀ tag r, tag < ntags → length r = ntags →
     body tag (<[k := r]> t) = set2 (<[k := r]> t) k tag (h tag)) →
  foldM body (py_range 0 ntags) t = Ok (<[k := tabulate1 h]> t).
Proof.
  intros Hk Hlen Hg. rewrite py_range_0.
  rewrite <- (list_insert_id t k old Hk) at 1.
  pose proof (lookup_lt_Some _ _ _ Hk) as Hkt.
  apply (foldM_fill (λ _, True) (λ r, <[k := r]> t) _ h old ntags Hlen);
    [by apply Forall_true|done|].
  intros tag r Htag Hr _. rewrite Hg by done.
  rewrite (set2_Ok _ _ _ _ r).
  - by rewrite list_insert_insert_eq.
  - by apply list_lookup_insert_eq.
  - lia.
Qed.

Lemma alpha_entry_step (m : nat → nat → nat → R) (k t : nat) :
  2 ≤ k →
  alpha_entry m k t =
  ln (np_sum (map exp
        (tabulate1 (λ p, alpha_entry m (k - 1) p + m k p t)%R))).
Proof.
  intros Hk. destruct k as [|[|k]]; [lia|lia|].
  change (S (S k) - 1) with (S k). reflexivity.
Qed.

Lemma log_alpha_tabulate (self : LinearCRF) (x : list nat)
    (m : nat → nat → nat → R) :
  (1 ≤ nwords_of x)%nat →
  log_alpha self x (Some (tabulate3 (nwords_of x + 2) m)) =
  Ok (map (λ i, tabulate1 (alpha_entry m i)) (seq 0 (nwords_of x + 1))).
Proof.
  intros Hn. unfold log_alpha. cbv zeta. set (n := nwords_of x) in *.
  simpl default_to. rewrite bind_Ok.
  rewrite (get_Ok _ _ _ (lookup_tabulate3 (n + 2) m 1 ltac:(lia))), bind_Ok.
  rewrite (get_Ok _ _ _ (lookup_tabulate2 (m 1) start_index ltac:(unfold ntags, start_index; lia))), bind_Ok.
  unfold zeros2. rewrite (replicate_as_map _ 0).
  rewrite (set_row_Ok _ _ _ (zeros1 ntags)); cycle 1.
  { rewrite list_lookup_fmap, (lookup_seq_lt 0 (n + 1) 1) by lia. done. }
  { by rewrite length_tabulate1. }
  rewrite bind_Ok. change (py_range 2 (n + 1)) with (seq 2 (n + 1 - 2)).
  destruct (foldM_seq_inv
    (λ i alpha, foldM (λ tag alpha,
       prev ← get alpha (i - 1);
       Mi ← get (tabulate3 (n + 2) m) i;
       col ← column Mi tag;
       s ← vadd prev col;
       v ← log_sum_exp s;
       set2 alpha i tag v) (py_range 0 ntags) alpha)
    (λ k alpha, alpha = map (λ i, if bool_decide (i < k)%nat
                                  then tabulate1 (alpha_entry m i)
                                  else zeros1 ntags) (seq 0 (n + 1)))
    2 (n + 1 - 2)
    (<[1%nat := tabulate1 (m 1%nat start_index)]>
       (map (λ _, zeros1 ntags) (seq 0 (n + 1))))) as (alpha & -> & ->).
  - apply insert_map_seq; [done|].
    intros j _ Hj. destruct j as [|[|j]]; [done|done|].
    by rewrite bool_decide_eq_false_2 by lia.
  - intros k alpha Hk ->. eexists. split.
    + apply (fill_row _ (alpha_entry m k) k _ (zeros1 ntags)).
      * rewrite list_lookup_fmap, (lookup_seq_lt 0 (n + 1) k) by lia. simpl.
        by rewrite bool_decide_eq_false_2 by lia.
      * done.
      * intros tag r Htag Hr.
        rewrite (get_Ok _ (k - 1) (tabulate1 (alpha_entry m (k - 1)))); cycle 1.
        { rewrite list_lookup_insert_ne by lia.
          rewrite list_lookup_fmap, (lookup_seq_lt 0 (n + 1) (k - 1)) by lia.
          simpl. by rewrite bool_decide_eq_true_2 by lia. }
        rewrite bind_Ok.
        rewrite (get_Ok _ _ _ (lookup_tabulate3 (n + 2) m k ltac:(lia))), bind_Ok.
        rewrite column_tabulate2, bind_Ok by done.
        rewrite vadd_tabulate1, bind_Ok, log_sum_exp_tabulate1, bind_Ok.
        by rewrite (alpha_entry_step m k tag) by lia.
    + apply insert_map_seq.
      * by rewrite bool_decide_eq_true_2 by lia.
      * intros j _ Hj. destruct (decide (j < k)%nat).
        -- by rewrite !bool_decide_eq_true_2 by lia.
        -- by rewrite !bool_decide_eq_false_2 by lia.
  - f_equal. apply map_ext_in. intros i Hi%list_elem_of_In%elem_of_seq.
    by rewrite bool_decide_eq_true_2 by lia.
Qed.

Lemma beta_down_step (m : nat → nat → nat → R) (n k t : nat) :
  1 ≤ k →
  beta_down m n k t =
  ln (np_sum (map exp
        (tabulate1 (λ u, beta_down m n (k - 1) u
                         + m (n - (k - 1))%nat t u)%R))).
Proof.
  intros Hk. destruct k as [|k]; [lia|].
  change (S k - 1) with (k - 0). by rewrite Nat.sub_0_r.
Qed.

Lemma log_beta_tabulate (self : LinearCRF) (x : list nat)
    (m : nat → nat → nat → R) :
  1 ≤ nwords_of x →
  log_beta self x (Some (tabulate3 (nwords_of x + 2) m)) =
  Ok (map (λ i, tabulate1 (beta_entry m (nwords_of x) i))
          (seq 0 (nwords_of x + 1))).
Proof.
  intros Hn. unfold log_beta. cbv zeta. set (n := nwords_of x) in *.
  simpl default_to. rewrite bind_Ok.
  rewrite (get_Ok _ _ _ (lookup_tabulate3 (n + 2) m (n + 1) ltac:(lia))), bind_Ok.
  rewrite column_tabulate2, bind_Ok by (unfold end_index, ntags; lia).
  unfold zeros2. rewrite (replicate_as_map _ 0).
  rewrite (set_row_Ok _ _ _ (zeros1 ntags)); cycle 1.
  { rewrite list_lookup_fmap, (lookup_seq_lt 0 (n + 1) n) by lia. done. }
  { by rewrite length_tabulate1. }
  rewrite bind_Ok. change (py_range 1 n) with (seq 1 (n - 1)).
  match goal with
  | |- foldM ?body (seq 1 (n - 1)) ?s0 = _ =>
      destruct (foldM_seq_inv body
        (λ k beta, beta = map (λ j, if bool_decide (n - k < j)
                                    then tabulate1 (beta_down m n (n - j))
                                    else zeros1 ntags) (seq 0 (n + 1)))
        1 (n - 1) s0) as (beta & -> & ->)
  end.
  - apply insert_map_seq.
    + rewrite bool_decide_eq_true_2 by lia. by rewrite Nat.sub_diag.
    + intros j Hj Hjn. by rewrite bool_decide_eq_false_2 by lia.
  - intros k beta Hk ->. eexists. split.
    + apply (fill_row _ (beta_down m n k) (n - k) _ (zeros1 ntags)).
      * rewrite list_lookup_fmap, (lookup_seq_lt 0 (n + 1) (n - k)) by lia.
        simpl. by rewrite bool_decide_eq_false_2 by lia.
      * done.
      * intros tag r Htag Hr.
        rewrite (get_Ok _ (n - k + 1) (tabulate1 (beta_down m n (k - 1))));
          cycle 1.
        { rewrite list_lookup_insert_ne by lia.
          rewrite list_lookup_fmap, (lookup_seq_lt 0 (n + 1) (n - k + 1)) by lia.
          simpl. rewrite bool_decide_eq_true_2 by lia.
          by replace (n - (n - k + 1)) with (k - 1) by lia. }
        rewrite bind_Ok.
        rewrite (get_Ok _ _ _ (lookup_tabulate3 (n + 2) m (n - k + 1) ltac:(lia))),
          bind_Ok.
        rewrite (get_Ok _ _ _ (lookup_tabulate2 (m (n - k + 1)) tag Htag)), bind_Ok.
        rewrite vadd_tabulate1, bind_Ok, log_sum_exp_tabulate1, bind_Ok.
        rewrite (beta_down_step m n k tag) by lia.
        by replace (n - (k - 1)) with (n - k + 1) by lia.
    + apply insert_map_seq.
      * rewrite bool_decide_eq_true_2 by lia.
        by replace (n - (n - k)) with k by lia.
      * intros j _ Hj. destruct (decide (n - k < j)).
        -- by rewrite !bool_decide_eq_true_2 by lia.
        -- by rewrite !bool_decide_eq_false_2 by lia.
  - f_equal. apply map_ext_in. intros i Hi%list_elem_of_In%elem_of_seq.
    destruct i as [|i].
    + by rewrite bool_decide_eq_false_2 by lia.
    + by rewrite bool_decide_eq_true_2 by lia.
Qed.

Lemma log_z_tabulate (self : LinearCRF) (x : list nat)
    (m : nat → nat → nat → R) :
  1 ≤ nwords_of x →
  log_z self x (Some (tabulate3 (nwords_of x + 2) m))
    (Some (map (λ i, tabulate1 (alpha_entry m i)) (seq 0 (nwords_of x + 1))))
  = Ok (z_value m (nwords_of x)).
Proof.
  intros Hn. unfold log_z. cbv zeta. set (n := nwords_of x) in *.
  simpl default_to. rewrite !bind_Ok.
  rewrite (get_Ok _ n (tabulate1 (alpha_entry m n))); cycle 1.
  { by rewrite list_lookup_fmap, (lookup_seq_lt 0 (n + 1) n) by lia. }
  rewrite bind_Ok.
  rewrite (get_Ok _ _ _ (lookup_tabulate3 (n + 2) m (n + 1) ltac:(lia))), bind_Ok.
  rewrite column_tabulate2, bind_Ok by (unfold end_index, ntags; lia).
  by rewrite vadd_tabulate1, bind_Ok, log_sum_exp_tabulate1.
Qed.

End forward_backward.

Section agreement.
Local Open Scope R_scope.

Lemma np_sum_swap {A B : Type} (F : A → B → R) (l1 : list A) (l2 : list B) :
  np_sum (map (λ a, np_sum (map (λ b, F a b) l2)) l1)
  = np_sum (map (λ b, np_sum (map (λ a, F a b) l1)) l2).
Proof.
  induction l1 as [|a l1 IH]; simpl.
  - symmetry. by apply np_sum_zero.
  - by rewrite IH, <- np_sum_plus.
Qed.

Lemma np_sum_exp_tabulate1 (f : nat → R) :
  np_sum (map exp (tabulate1 f)) = np_sum (map (λ t, exp (f t)) (seq 0 ntags)).
Proof. unfold tabulate1. by rewrite map_map. Qed.

Lemma np_sum_exp_tabulate1_pos (f : nat → R) :
  0 < np_sum (map exp (tabulate1 f)).
Proof. by apply (np_sum_exp_pos (λ a, a)). Qed.

Lemma np_sum_scale_l {A : Type} (c : R) (f : A → R) (v : list A) :
  np_sum (map (fun a => c * f a) v) = c * np_sum (map f v).
Proof. induction v as [|a v IH]; simpl; [lra | rewrite IH; lra]. Qed.

Lemma np_sum_scale_r {A : Type} (c : R) (f : A → R) (v : list A) :
  np_sum (map (fun a => f a * c) v) = np_sum (map f v) * c.
Proof. induction v as [|a v IH]; simpl; [lra | rewrite IH; lra]. Qed.

(** One step of the agreement: the sum over the tags at position [i] is the
    sum at position [i + 1]. *)
Lemma forward_backward_step (m : nat → nat → nat → R) (n i d : nat) :
  (1 ≤ i)%nat → (n - d = i + 1)%nat →
  np_sum (map exp (tabulate1 (λ t, alpha_entry m i t + beta_down m n (S d) t)))
  = np_sum (map exp
      (tabulate1 (λ t, alpha_entry m (i + 1) t + beta_down m n d t))).
Proof.
  intros Hi Hd. rewrite !np_sum_exp_tabulate1.
  transitivity (np_sum (map (λ t, np_sum (map (λ u,
     exp (alpha_entry m i t + m (i + 1)%nat t u) * exp (beta_down m n d u))
     (seq 0 ntags))) (seq 0 ntags))).
  - apply np_sum_ext. intros t _. rewrite exp_plus.
    rewrite (beta_down_step m n (S d) t) by lia.
    rewrite exp_ln by apply np_sum_exp_tabulate1_pos.
    rewrite np_sum_exp_tabulate1, <- np_sum_scale_l.
    apply np_sum_ext. intros u _.
    replace (S d - 1)%nat with d by lia.
    replace (n - d)%nat with (i + 1)%nat by lia.
    rewrite <- !exp_plus. f_equal. lra.
  - rewrite np_sum_swap. apply np_sum_ext. intros u _.
    rewrite np_sum_scale_r, exp_plus. f_equal.
    rewrite (alpha_entry_step m (i + 1) u) by lia.
    rewrite exp_ln by apply np_sum_exp_tabulate1_pos.
    rewrite np_sum_exp_tabulate1.
    by replace (i + 1 - 1)%nat with i by lia.
Qed.

Lemma forward_backward_sum (m : nat → nat → nat → R) (n i : nat) :
  (1 ≤ i ≤ n)%nat →
  ln (np_sum (map exp
        (tabulate1 (λ t, alpha_entry m i t + beta_entry m n i t))))
  = z_value m n.
Proof.
  intros Hi. unfold z_value, beta_entry. destruct i as [|i']; [lia|].
  set (i := S i') in *. clearbody i. f_equal.
  remember (n - i)%nat as d eqn:Hd. revert i Hi Hd.
  induction d as [|d IH]; intros i Hi Hd.
  - replace i with n by lia. done.
  - rewrite (forward_backward_step m n i d) by lia.
    replace d with (n - (i + 1))%nat at 1 by lia.
    rewrite (IH (i + 1)%nat) by lia. done.
Qed.

End agreement.

Lemma example_model_built : feature_space_built example_model.
Proof.
  apply (train_features_built (read_corpus init 3 [([0; 2; 1], [3; 3; 3])]));
    reflexivity.
Qed.

Lemma example_model_weights :
  length (weights example_model) = nfeatures example_model.
Proof. vm_compute. reflexivity. Qed.

Lemma example_in_vocabulary (x : list nat) :
  Forall (λ w, w < 3) x → in_vocabulary example_model x.
Proof. intros Hx w Hw. eapply Forall_forall in Hx; [|done]. done. Qed.

(** C4.  For every in-vocabulary sequence with at least one token between
    the sentinels, [log_alpha], [log_beta] and [log_z] return, and at every
    position [i] in [1, n] the log-sum-exp of [alpha[i] + beta[i]] is the
    value [log_z] computes from the last forward row. *)
Theorem forward_backward_agreement (self : LinearCRF) (x : list nat) :
  feature_space_built self → length (weights self) = nfeatures self →
  in_vocabulary self x → 1 ≤ nwords_of x →
  ∃ alpha beta z,
    log_alpha self x None = Ok alpha
    ∧ log_beta self x None = Ok beta
    ∧ log_z self x None None = Ok z
    ∧ ∀ i, 1 ≤ i ≤ nwords_of x →
        ∃ ai bi s, alpha !! i = Some ai ∧ beta !! i = Some bi
                   ∧ vadd ai bi = Ok s ∧ log_sum_exp s = Ok z.
Proof.
  intros Hb Hw Hx Hn.
  set (m := potential_entry self x).
  exists (map (λ i, tabulate1 (alpha_entry m i)) (seq 0 (nwords_of x + 1))),
         (map (λ i, tabulate1 (beta_entry m (nwords_of x) i)) (seq 0 (nwords_of x + 1))),
         (z_value m (nwords_of x)).
  split_and!.
  - unfold log_alpha. cbv zeta. simpl default_to.
    rewrite (log_potential_matrix_Ok self x Hb Hw Hx), bind_Ok.
    apply (log_alpha_tabulate self x m Hn).
  - unfold log_beta. cbv zeta. simpl default_to.
    rewrite (log_potential_matrix_Ok self x Hb Hw Hx), bind_Ok.
    apply (log_beta_tabulate self x m Hn).
  - unfold log_z. cbv zeta. simpl default_to.
    rewrite (log_potential_matrix_Ok self x Hb Hw Hx), bind_Ok. fold m.
    rewrite (log_alpha_tabulate self x m Hn), bind_Ok.
    apply (log_z_tabulate self x m Hn).
  - intros i Hi.
    exists (tabulate1 (alpha_entry m i)), (tabulate1 (beta_entry m (nwords_of x) i)),
           (tabulate1 (λ t, alpha_entry m i t + beta_entry m (nwords_of x) i t)%R).
    split_and!.
    + by rewrite list_lookup_fmap, (lookup_seq_lt 0 (nwords_of x + 1) i) by lia.
    + by rewrite list_lookup_fmap, (lookup_seq_lt 0 (nwords_of x + 1) i) by lia.
    + apply vadd_tabulate1.
    + rewrite log_sum_exp_tabulate1. f_equal.
      by apply forward_backward_sum.
Qed.

Lemma forward_backward_agreement_witness :
  ∃ alpha beta z,
    log_alpha example_model [0; 2; 2; 1] None = Ok alpha
    ∧ log_beta example_model [0; 2; 2; 1] None = Ok beta
    ∧ log_z example_model [0; 2; 2; 1] None None = Ok z
    ∧ ∀ i, 1 ≤ i ≤ nwords_of [0; 2; 2; 1] →
        ∃ ai bi s, alpha !! i = Some ai ∧ beta !! i = Some bi
                   ∧ vadd ai bi = Ok s ∧ log_sum_exp s = Ok z.
Proof.
  apply (forward_backward_agreement example_model [0; 2; 2; 1]).
  - apply example_model_built.
  - apply example_model_weights.
  - apply example_in_vocabulary. repeat constructor.
  - vm_compute. lia.
Defined.

(** ** model_gradient_x: the table P *)

Section gradient_table.

Lemma get2_map_tabulate1 (a : nat → nat → R) (n i t : nat) :
  i < n → t < ntags →
  get2 (map (λ i, tabulate1 (a i)) (seq 0 n)) i t = Ok (a i t).
Proof.
  intros Hi Ht. unfold get2.
  rewrite (get_Ok _ i (tabulate1 (a i))), bind_Ok.
  - apply get_Ok. by apply lookup_tabulate1.
  - by rewrite list_lookup_fmap, (lookup_seq_lt 0 n i Hi).
Qed.

Lemma get3_tabulate3 (m : nat → nat → nat → R) (n i a b : nat) :
  i < n → a < ntags → b < ntags →
  get3 (tabulate3 n m) i a b = Ok (m i a b).
Proof.
  intros Hi Ha Hb. unfold get3, get2.
  rewrite (get_Ok _ _ _ (lookup_tabulate3 n m i Hi)), bind_Ok.
  rewrite (get_Ok _ _ _ (lookup_tabulate2 (m i) a Ha)), bind_Ok.
  apply get_Ok. by apply lookup_tabulate1.
Qed.

(** One pass of an innermost loop over a 3-D table: row [(i, a)] becomes
    [tabulate1 h]. *)
Lemma fill_row3 (body : nat → list (list (list R)) → result (list (list (list R))))
    (h : nat → R) (i a : nat) (M : list (list (list R)))
    (Mi : list (list R)) (old : list R) :
  M !! i = Some Mi → Mi !! a = Some old → length old = ntags →
  (∀ tag r, tag < ntags → length r = ntags →
     body tag (<[i := <[a := r]> Mi]> M)
     = set3 (<[i := <[a := r]> Mi]> M) i a tag (h tag)) →
  foldM body (py_range 0 ntags) M = Ok (<[i := <[a := tabulate1 h]> Mi]> M).
Proof.
  intros Hi Ha Hlen Hbody. rewrite py_range_0.
  pose proof (lookup_lt_Some _ _ _ Hi) as Hil.
  pose proof (lookup_lt_Some _ _ _ Ha) as Hal.
  rewrite <- (list_insert_id M i Mi Hi) at 1.
  rewrite <- (list_insert_id Mi a old Ha) at 1.
  apply (foldM_fill (λ _, True) (λ r, <[i := <[a := r]> Mi]> M) _ h old ntags
           Hlen); [by apply Forall_true|done|].
  intros tag r Htag Hr _. rewrite Hbody by done.
  rewrite (set3_Ok _ _ _ _ _ (<[a := r]> Mi) r).
  - by rewrite !list_insert_insert_eq.
  - by apply list_lookup_insert_eq.
  - by apply list_lookup_insert_eq.
  - lia.
Qed.

Lemma gradient_P_tabulate (x : list nat) (m : nat → nat → nat → R)
    (a b : nat → nat → R) (z : R) :
  gradient_P x (tabulate3 (nwords_of x + 2) m)
    (map (λ i, tabulate1 (a i)) (seq 0 (nwords_of x + 1)))
    (map (λ i, tabulate1 (b i)) (seq 0 (nwords_of x + 1))) z
  = Ok (tabulate3 (nwords_of x + 1)
          (λ i yi_1 yi, exp (P_entry m a b z i yi_1 yi))).
Proof.
  unfold gradient_P. cbv zeta. set (n := nwords_of x).
  change (py_range 1 (n + 1)) with (seq 1 (n + 1 - 1)).
  match goal with
  | |- foldM ?body (seq 1 (n + 1 - 1)) ?s0 ≫= _ = _ =>
      destruct (foldM_seq_inv body
        (λ k P, P = map (λ i, if bool_decide (1 ≤ i < k)
                              then tabulate2 (P_entry m a b z i)
                              else tabulate2 (λ _ _, 0%R)) (seq 0 (n + 1)))
        1 (n + 1 - 1) s0) as (P & -> & ->)
  end.
  - unfold zeros3. rewrite (replicate_as_map _ 0). apply map_ext_in.
    intros i _. by rewrite bool_decide_eq_false_2 by lia.
  - intros i P Hi ->. rewrite py_range_0.
    set (P0 := map (λ i0, if bool_decide (1 ≤ i0 < i)
                          then tabulate2 (P_entry m a b z i0)
                          else tabulate2 (λ _ _, 0%R)) (seq 0 (n + 1))).
    assert (P0 !! i = Some (tabulate2 (λ _ _, 0%R))) as HP0.
    { unfold P0. rewrite list_lookup_fmap, (lookup_seq_lt 0 (n + 1) i) by lia.
      simpl. by rewrite bool_decide_eq_false_2 by lia. }
    match goal with
    | |- ∃ s', foldM ?body (seq 0 ntags) P0 = Ok s' ∧ _ =>
        destruct (foldM_seq_inv body
          (λ k P, P = <[i := map (λ y1, if bool_decide (y1 < k)
                                        then tabulate1 (P_entry m a b z i y1)
                                        else tabulate1 (λ _, 0%R))
                                 (seq 0 ntags)]> P0)
          0 ntags P0) as (P & -> & ->)
    end.
    + symmetry. by apply list_insert_id.
    + intros y1 P Hy1 ->.
      destruct (bool_decide (i = 1) && bool_decide (y1 ≠ start_index)) eqn:Hskip.
      * exists (<[i := map (λ y1', if bool_decide (y1' < y1)
                                   then tabulate1 (P_entry m a b z i y1')
                                   else tabulate1 (λ _, 0%R))
                            (seq 0 ntags)]> P0).
        split.
        -- clear. generalize (<[i := map (λ y1', if bool_decide (y1' < y1)
                                   then tabulate1 (P_entry m a b z i y1')
                                   else tabulate1 (λ _, 0%R))
                            (seq 0 ntags)]> P0).
           intros P. induction (py_range 0 ntags) as [|v l IH]; [done|].
           simpl. apply IH.
        -- f_equal. apply map_ext_in. intros y Hy.
           destruct (decide (y = y1)) as [->|Hne].
           ++ rewrite bool_decide_eq_false_2, bool_decide_eq_true_2 by lia.
              apply tabulate1_ext. intros t _. unfold P_entry.
              destruct i; [lia|]. by rewrite Hskip.
           ++ destruct (decide (y < y1)).
              ** by rewrite !bool_decide_eq_true_2 by lia.
              ** by rewrite !bool_decide_eq_false_2 by lia.
      * eexists. split.
        -- eapply (fill_row3 _ (P_entry m a b z i y1) i y1 _ _
                     (tabulate1 (λ _, 0%R))).
           ++ apply list_lookup_insert_eq. by eapply lookup_lt_Some.
           ++ rewrite list_lookup_fmap, (lookup_seq_lt 0 ntags y1) by lia.
              simpl. by rewrite bool_decide_eq_false_2 by lia.
           ++ apply length_tabulate1.
           ++ intros tag r Htag Hr. cbv iota.
              rewrite (get2_map_tabulate1 a (n + 1) (i - 1) y1), bind_Ok by lia.
              rewrite get3_tabulate3, bind_Ok by lia.
              rewrite (get2_map_tabulate1 b (n + 1) i tag), bind_Ok by lia.
              f_equal. unfold P_entry. destruct i; [lia|]. by rewrite Hskip.
        -- rewrite list_insert_insert_eq. f_equal. apply insert_map_seq.
           ++ by rewrite bool_decide_eq_true_2 by lia.
           ++ intros j _ Hj. destruct (decide (j < y1)).
              ** by rewrite !bool_decide_eq_true_2 by lia.
              ** by rewrite !bool_decide_eq_false_2 by lia.
    + eexists. split; [done|]. unfold P0. apply insert_map_seq.
      * rewrite bool_decide_eq_true_2 by lia. unfold tabulate2.
        apply map_ext_in. intros y Hy%list_elem_of_In%elem_of_seq.
        by rewrite bool_decide_eq_true_2 by lia.
      * intros j _ Hj. destruct (decide (1 ≤ j < i)).
        -- by rewrite !bool_decide_eq_true_2 by lia.
        -- by rewrite !bool_decide_eq_false_2 by lia.
  - rewrite bind_Ok. f_equal. unfold tabulate3. rewrite !map_map.
    apply map_ext_in. intros i Hi%list_elem_of_In%elem_of_seq.
    unfold tabulate2.
    assert (∀ h : nat → nat → R,
      map (map exp) (map (λ y1, tabulate1 (h y1)) (seq 0 ntags))
      = map (λ y1, tabulate1 (λ y, exp (h y1 y))) (seq 0 ntags)) as Hexp.
    { intros h. rewrite map_map. apply map_ext. intros y1.
      unfold tabulate1. by rewrite map_map. }
    destruct i as [|i].
    + rewrite bool_decide_eq_false_2 by lia. apply Hexp.
    + rewrite bool_decide_eq_true_2 by lia. apply Hexp.
Qed.

End gradient_table.

(** ** Totality of the objective and of the gradient *)

Section totality.

Lemma foldM_preserve {X St : Type} (I : St → Prop)
    (body : X → St → result St) (l : list X) (s : St) :
  I s →
  (∀ v s, v ∈ l → I s → ∃ s', body v s = Ok s' ∧ I s') →
  ∃ s', foldM body l s = Ok s' ∧ I s'.
Proof.
  revert s. induction l as [|v l IH]; intros s HI Hbody; [by exists s|].
  simpl. destruct (Hbody v s) as (s1 & -> & HI1); [by left|done|].
  rewrite bind_Ok. apply IH; [done|].
  intros v' s' Hv'. apply Hbody. by right.
Qed.

Lemma fancy_add_Ok (g : list R) (ids : list nat) (p : R) :
  (∀ k, k ∈ ids → k < length g) →
  fancy_add g ids p =
  Ok (imap (fun k v => if bool_decide (k ∈ ids) then (v + p)%R else v) g).
Proof. intros Hids. unfold fancy_add. by rewrite fancy_index_Ok. Qed.

Lemma active_ids_lt (self : LinearCRF) (x : list nat) (yi_1 yi i k : nat) :
  feature_space_built self → in_vocabulary self x →
  yi_1 < ntags → yi < ntags →
  k ∈ map (fid self) (active_features x yi_1 yi i) → k < nfeatures self.
Proof.
  intros Hb Hx H1 H2 (f & -> & Hf)%list_elem_of_fmap.
  eapply active_features_all in Hf; [|done..].
  by destruct (built_fid self f Hb Hf) as (_ & _ & ?).
Qed.

Lemma append_active_Ok (self : LinearCRF) (x : list nat) (yi_1 yi i : nat)
    (acc : list nat) :
  feature_space_built self → in_vocabulary self x →
  yi_1 < ntags → yi < ntags →
  append_active self x yi_1 yi i acc =
  Ok (acc ++ map (fid self) (active_features x yi_1 yi i)).
Proof.
  intros Hb Hx H1 H2. apply append_active_all.
  intros f Hf. eapply active_features_all in Hf; [|done..].
  destruct (built_fid self f Hb Hf) as (-> & _). done.
Qed.

Lemma gradient_accumulate_Ok (self : LinearCRF) (x : list nat)
    (q : nat → nat → nat → R) (g : list R) :
  feature_space_built self → in_vocabulary self x →
  length g = nfeatures self →
  ∃ g', gradient_accumulate self x (tabulate3 (nwords_of x + 1) q) g = Ok g'
        ∧ length g' = nfeatures self.
Proof.
  intros Hb Hx Hg. unfold gradient_accumulate. cbv zeta.
  pose (I := λ ag : list nat * list R,
          (∀ k, k ∈ ag.1 → k < nfeatures self) ∧ length ag.2 = nfeatures self).
  match goal with
  | |- ∃ g', foldM ?body ?l ?s0 ≫= _ = _ ∧ _ =>
      destruct (foldM_preserve I body l s0) as (ag & -> & HI)
  end.
  - split; [|done]. intros k Hk. by apply elem_of_nil in Hk.
  - intros i ag Hi%elem_of_py_range HI. apply foldM_preserve; [done|].
    intros yi_1 ag1 H1%elem_of_py_range HI1. apply foldM_preserve; [done|].
    intros yi [af g2] H2%elem_of_py_range [Haf Hg2]. simpl in Haf, Hg2.
    rewrite append_active_Ok, bind_Ok by (done || lia).
    rewrite get3_tabulate3, bind_Ok by lia.
    assert (∀ k, k ∈ af ++ map (fid self) (active_features x yi_1 yi i) →
                 k < nfeatures self) as Hids.
    { intros k [Hk|Hk]%elem_of_app; [by apply Haf|].
      apply (active_ids_lt self x yi_1 yi i k Hb Hx); [lia|lia|done]. }
    rewrite fancy_add_Ok, bind_Ok by (intros k Hk; rewrite Hg2; by apply Hids).
    eexists. split; [done|]. split; [done|]. simpl. by rewrite length_imap.
  - rewrite bind_Ok. exists ag.2. split; [done|]. apply HI.
Qed.

Lemma model_gradient_x_Ok (self : LinearCRF) (x : list nat) :
  feature_space_built self → length (weights self) = nfeatures self →
  in_vocabulary self x → 1 ≤ nwords_of x →
  ∃ g, model_gradient_x self x None None None = Ok g
       ∧ length g = nfeatures self.
Proof.
  intros Hb Hw Hx Hn. unfold model_gradient_x. simpl default_to.
  rewrite (log_potential_matrix_Ok self x Hb Hw Hx), bind_Ok.
  rewrite (log_alpha_tabulate self x _ Hn), bind_Ok.
  rewrite (log_beta_tabulate self x _ Hn), bind_Ok.
  rewrite (log_z_tabulate self x _ Hn), bind_Ok.
  rewrite gradient_P_tabulate, bind_Ok.
  apply gradient_accumulate_Ok; [done..|]. unfold zeros1.
  by rewrite length_replicate.
Qed.

Lemma path_potential_Ok (self : LinearCRF) (x y : list nat) :
  feature_space_built self → length (weights self) = nfeatures self →
  in_vocabulary self x → Forall (λ t, t < ntags) y →
  path_potential self x y = Ok (path_value self x y).
Proof.
  intros Hb Hw Hx Hy. unfold path_potential. cbv zeta.
  rewrite (foldM_sum _
    (λ i, potential_value self x (nth (i - 1) y 0) (nth i y 0) i)).
  - f_equal. unfold path_value. lra.
  - intros i acc Hi%elem_of_py_range. unfold nwords_of in Hi.
    destruct (lookup_lt_is_Some_2 y (i - 1)) as [a Ha]; [lia|].
    destruct (lookup_lt_is_Some_2 y i) as [b Hb']; [lia|].
    rewrite (get_Ok _ _ _ Ha), bind_Ok, (get_Ok _ _ _ Hb'), bind_Ok.
    rewrite log_potential_at_Ok; [|done..| |].
    + rewrite bind_Ok. by rewrite (nth_lookup_Some _ _ _ _ Ha),
        (nth_lookup_Some _ _ _ _ Hb').
    + by eapply (Forall_lookup_1 _ _ _ _ Hy).
    + by eapply (Forall_lookup_1 _ _ _ _ Hy).
Qed.

Lemma log_potential_Ok (self : LinearCRF) (x y : list nat) :
  feature_space_built self → length (weights self) = nfeatures self →
  in_vocabulary self x → 1 ≤ nwords_of x → Forall (λ t, t < ntags) y →
  log_potential self x y None None =
  Ok (path_value self x y
      - z_value (potential_entry self x) (nwords_of x))%R.
Proof.
  intros Hb Hw Hx Hn Hy. unfold log_potential. simpl default_to.
  rewrite (log_potential_matrix_Ok self x Hb Hw Hx), bind_Ok.
  rewrite (log_alpha_tabulate self x _ Hn), bind_Ok.
  rewrite (path_potential_Ok self x y Hb Hw Hx Hy), bind_Ok.
  by rewrite (log_z_tabulate self x _ Hn), bind_Ok.
Qed.

End totality.

(** ** The training driver *)

Section driver.

Lemma set_weights_ready (self : LinearCRF) (w : list R) :
  model_ready self → length w = nfeatures self →
  model_ready (set_weights self w).
Proof.
  intros [[Hfi Hinf Hnf] Hw Hp Hd] Hlen.
  split; [split| | |]; [exact Hfi|exact Hinf|exact Hnf|exact Hlen|exact Hp|exact Hd].
Qed.

Lemma log_maximum_liklihood_Ok (self : LinearCRF) :
  model_ready self → ∃ v, log_maximum_liklihood self = Ok v.
Proof.
  intros [Hb Hw Hp Hd]. unfold log_maximum_liklihood.
  match goal with
  | |- ∃ v, foldM ?body ?l ?s0 ≫= _ = _ =>
      destruct (foldM_preserve (λ _, True) body l s0) as (v & -> & _)
  end; [done| |by eexists].
  intros [x y] acc Hxy _.
  eapply Forall_forall in Hd as (Hx & Hn & _ & Hy); [|done]. simpl in *.
  rewrite (log_potential_Ok self x y Hb Hw Hx Hn Hy), bind_Ok. by eexists.
Qed.

Lemma vsub_Ok (a b : list R) :
  length a = length b → vsub a b = Ok (zip_with Rminus a b).
Proof. intros Hl. unfold vsub. by rewrite bool_decide_eq_true_2. Qed.

Lemma model_gradient_Ok (self : LinearCRF) :
  model_ready self →
  ∃ g, model_gradient self = Ok g ∧ length g = nfeatures self.
Proof.
  intros [Hb Hw Hp Hd]. unfold model_gradient.
  rewrite vsub_Ok, bind_Ok by (by rewrite length_map, Hp, Hw).
  apply (foldM_preserve (λ g, length g = nfeatures self)).
  - rewrite length_zip_with, length_map, Hp, Hw. lia.
  - intros [x y] g Hxy Hg.
    eapply Forall_forall in Hd as (Hx & Hn & _); [|done]. simpl in *.
    destruct (model_gradient_x_Ok self x Hb Hw Hx Hn) as (gx & -> & Hgx).
    rewrite bind_Ok, vsub_Ok by congruence.
    eexists. split; [done|]. rewrite length_zip_with. lia.
Qed.

Lemma ncallable_Ok (self : LinearCRF) (w : list R) :
  model_ready self → length w = nfeatures self →
  ∃ v, ncallable self w = Ok (set_weights self w, v).
Proof.
  intros Hr Hw. unfold ncallable.
  destruct (log_maximum_liklihood_Ok (set_weights self w)) as (v & ->).
  { by apply set_weights_ready. }
  by eexists.
Qed.

Lemma njac_callable_Ok (self : LinearCRF) (w : list R) :
  model_ready self → length w = nfeatures self →
  ∃ g, njac_callable self w = Ok (set_weights self w, g).
Proof.
  intros Hr Hw. unfold njac_callable.
  destruct (model_gradient_Ok (set_weights self w)) as (g & -> & _).
  { by apply set_weights_ready. }
  by eexists.
Qed.

Lemma ncallable_inv (self self' : LinearCRF) (w : list R) (v : R) :
  ncallable self w = Ok (self', v) → self' = set_weights self w.
Proof.
  unfold ncallable. intros (? & _ & [= <- _])%bind_inv_Ok. done.
Qed.

Lemma njac_callable_inv (self self' : LinearCRF) (w g : list R) :
  njac_callable self w = Ok (self', g) → self' = set_weights self w.
Proof.
  unfold njac_callable. intros (? & _ & [= <- _])%bind_inv_Ok. done.
Qed.

(** What a run of the optimizer leaves in the model: the last vector it
    asked about; nothing is printed or saved. *)
Lemma minimize_state (opt : optimizer) (self self1 : LinearCRF)
    (res : list R * bool) :
  minimize opt self = Ok (self1, res) →
  ∃ ws, asked opt self = Ok ws
        ∧ weights self1 = default (weights self) (last ws)
        ∧ saved self1 = saved self ∧ stdout self1 = stdout self.
Proof.
  revert self. induction opt as [x ok|w k IH|w k IH]; intros self Hrun.
  - injection Hrun as <- _. by exists [].
  - simpl in Hrun. apply bind_inv_Ok in Hrun as ([s v] & Hcall & Hrun).
    pose proof (ncallable_inv _ _ _ _ Hcall) as ->.
    destruct (IH v _ Hrun) as (ws & Hws & Hw & Hs & Ho).
    exists (w :: ws). simpl. rewrite Hcall, bind_Ok, Hws, bind_Ok.
    split_and!; [done| |done..].
    rewrite Hw, last_cons. by destruct (last ws).
  - simpl in Hrun. apply bind_inv_Ok in Hrun as ([s g] & Hcall & Hrun).
    pose proof (njac_callable_inv _ _ _ _ Hcall) as ->.
    destruct (IH g _ Hrun) as (ws & Hws & Hw & Hs & Ho).
    exists (w :: ws). simpl. rewrite Hcall, bind_Ok, Hws, bind_Ok.
    split_and!; [done| |done..].
    rewrite Hw, last_cons. by destruct (last ws).
Qed.

End driver.

Section train_run.

Lemma train_prior_Ok (self : LinearCRF) :
  feature_space_built self →
  length (prior_feature_count self) = nfeatures self →
  Forall (well_formed_pair self) (train_data self) →
  ∃ c, train_prior self = Ok (set_prior self c) ∧ length c = nfeatures self.
Proof.
  intros Hb Hp Hd. unfold train_prior.
  match goal with
  | |- ∃ c, foldM ?body ?l ?s0 ≫= _ = _ ∧ _ =>
      destruct (foldM_preserve (λ c, length c = nfeatures self) body l s0)
        as (c & -> & Hc)
  end; [done| |by exists c].
  intros [x y] c Hxy Hc.
  eapply Forall_forall in Hd as (Hx & Hn & Hlen & Hy); [|done]. simpl in *.
  apply foldM_preserve; [done|].
  intros i c' Hi%elem_of_py_range Hc'. unfold nwords_of in Hi.
  destruct (lookup_lt_is_Some_2 y (i - 1)) as [a Ha]; [lia|].
  destruct (lookup_lt_is_Some_2 y i) as [b Hb']; [lia|].
  rewrite (get_Ok _ _ _ Ha), bind_Ok, (get_Ok _ _ _ Hb'), bind_Ok.
  pose proof (Forall_lookup_1 _ _ _ _ Hy Ha) as Hat.
  pose proof (Forall_lookup_1 _ _ _ _ Hy Hb') as Hbt.
  rewrite append_active_Ok, bind_Ok by done.
  rewrite fancy_add_Ok.
  - eexists. split; [done|]. by rewrite length_imap.
  - intros k Hk. rewrite Hc'.
    by apply (active_ids_lt self x a b i k Hb Hx Hat Hbt).
Qed.

Lemma train_reaches_optimizer (fs : dump_outcome)
    (opt : list R → optimizer) (n : nat)
    (data : list (list nat * list nat)) :
  data ≠ [] →
  Forall (well_formed_pair (set_train_data init n data)) data →
  ∃ self, model_ready self
          ∧ weights self = replicate (5 * n * ntags + n * ntags ^ 2)
                             (1 / INR (5 * n * ntags + n * ntags ^ 2))%R
          ∧ saved self = None
          ∧ train fs opt init n data = train_optimize fs opt self.
Proof.
  intros Hne Hd. unfold train.
  destruct data as [|xy0 data0] eqn:Edata; [done|]. rewrite <- Edata in *.
  replace (get data 0) with (Ok xy0) by (by rewrite Edata). rewrite bind_Ok.
  set (s0 := read_corpus init n data).
  destruct (train_features_built s0) as ([Hfi Hinf Hnf] & Hnw & Hw); [done..|].
  set (s1 := print (print (train_features s0) "Features")
                   "sentence[0] labels[0]").
  assert (feature_space_built s1) as Hb1.
  { split; [exact Hfi|exact Hinf|exact Hnf]. }
  assert (nfeatures s1 = 5 * n * ntags + n * ntags ^ 2) as HN.
  { change (nfeatures s1) with (nfeatures (train_features s0)).
    rewrite Hnf, Hnw. apply length_all_features. }
  assert (length (prior_feature_count s1) = nfeatures s1) as Hp1.
  { change (nfeatures s1) with (nfeatures (train_features s0)).
    change (prior_feature_count s1)
      with (prior_feature_count (train_features s0)).
    unfold train_features. destruct (enumerate_features s0) as [[fi inf] k].
    simpl. unfold zeros1. by rewrite length_replicate. }
  assert (train_data s1 = data) as Hdata.
  { change (train_data s1) with (train_data (train_features s0)).
    unfold train_features. by destruct (enumerate_features s0) as [[fi inf] k]. }
  assert (Forall (well_formed_pair s1) (train_data s1)) as Hd1.
  { rewrite Hdata. eapply Forall_impl; [exact Hd|].
    intros [x y] (Hx & Hrest). split; [|exact Hrest].
    intros w Hw'. change (nwords s1) with (nwords (train_features s0)).
    rewrite Hnw. by apply Hx. }
  destruct (train_prior_Ok s1 Hb1 Hp1 Hd1) as (c & -> & Hc).
  rewrite bind_Ok. exists (set_prior s1 c). split_and!; [|..|done].
  - split; [split| | |]; [apply Hb1..| | |].
    + exact Hw.
    + exact Hc.
    + exact Hd1.
  - change (weights (set_prior s1 c)) with (weights (train_features s0)).
    rewrite <- HN. change (nfeatures s1) with (nfeatures (train_features s0)).
    unfold train_features. by destruct (enumerate_features s0) as [[fi inf] k].
  - change (saved (set_prior s1 c)) with (saved (train_features s0)).
    unfold train_features. by destruct (enumerate_features s0) as [[fi inf] k].
Qed.

End train_run.

Lemma example_pair_well_formed (self : LinearCRF) :
  nwords self = 3 → well_formed_pair self ([0; 2; 1], [3; 3; 3]).
Proof.
  intros Hn. split_and!; simpl.
  - intros w Hw. rewrite Hn.
    repeat (apply elem_of_cons in Hw as [->|Hw]); [lia..|].
    by apply elem_of_nil in Hw.
  - unfold nwords_of. simpl. lia.
  - done.
  - apply Forall_forall. intros t Ht. unfold ntags.
    repeat (apply elem_of_cons in Ht as [->|Ht]); [lia..|].
    by apply elem_of_nil in Ht.
Qed.

Lemma example_model_ready : model_ready example_model.
Proof.
  split.
  - apply example_model_built.
  - apply example_model_weights.
  - vm_compute. reflexivity.
  - apply Forall_cons_2; [|apply Forall_nil_2].
    apply example_pair_well_formed. reflexivity.
Qed.

Lemma print_ready (self : LinearCRF) (msg : string) :
  model_ready self → model_ready (print self msg).
Proof.
  intros [[Hfi Hinf Hnf] Hw Hp Hd].
  split; [split| | |];
    [exact Hfi|exact Hinf|exact Hnf|exact Hw|exact Hp|exact Hd].
Qed.

(** Up to the call of [minimize] a ready model goes through [train_optimize]
    without an exception. *)
Lemma train_optimize_minimize (fs : dump_outcome) (opt : list R → optimizer)
    (self : LinearCRF) :
  model_ready self →
  train_optimize fs opt self
  = ('(self, (res_x, res_success)) ←
       minimize (opt (weights self)) (before_minimize self);
     let self := print self "minimize Time cost" in
     if (res_success : bool) then save fs (set_weights self res_x)
     else Ok (print self "Fail to optimize CRF!")).
Proof.
  intros Hr. unfold train_optimize.
  set (s0 := print self "Start training!").
  assert (model_ready s0) as Hr0 by by apply print_ready.
  destruct (ncallable_Ok s0 (weights s0) Hr0) as (v & ->);
    [apply Hr0|]. rewrite bind_Ok.
  set (s1 := print (set_weights s0 (weights s0)) "Callable Time cost").
  assert (model_ready s1) as Hr1.
  { apply print_ready, set_weights_ready; [done|apply Hr0]. }
  destruct (njac_callable_Ok s1 (weights s1) Hr1) as (g & ->);
    [apply Hr1|]. by rewrite bind_Ok.
Qed.

Lemma before_minimize_ready (self : LinearCRF) :
  model_ready self → model_ready (before_minimize self).
Proof.
  intros Hr. unfold before_minimize. cbv zeta.
  apply print_ready, set_weights_ready;
    [|apply (ready_weights _ Hr)].
  apply print_ready, set_weights_ready;
    [|apply (ready_weights _ Hr)].
  by apply print_ready.
Qed.

Lemma minimize_failing (self : LinearCRF) :
  model_ready self →
  ∃ self1, minimize (failing_optimizer (weights self)) (before_minimize self)
           = Ok (self1, (weights self, false))
           ∧ weights self1 = map (λ w, (w + 1)%R) (weights self)
           ∧ saved self1 = saved self.
Proof.
  intros Hr. unfold failing_optimizer. simpl minimize.
  destruct (ncallable_Ok (before_minimize self)
              (map (λ w, (w + 1)%R) (weights self))
              (before_minimize_ready self Hr)) as (v & ->).
  { rewrite length_map. apply Hr. }
  rewrite bind_Ok. by eexists.
Qed.

Lemma train_optimize_failing (fs : dump_outcome) (self : LinearCRF) :
  model_ready self →
  ∃ self', train_optimize fs failing_optimizer self = Ok self'
           ∧ weights self' = map (λ w, (w + 1)%R) (weights self)
           ∧ saved self' = saved self.
Proof.
  intros Hr. rewrite (train_optimize_minimize fs _ self Hr).
  destruct (minimize_failing self Hr) as (self1 & -> & Hw & Hs).
  rewrite bind_Ok. eexists. split; [done|]. done.
Qed.

(** C7, as the code has it.  On a model ready for training, let the
    optimizer return the vector [res_x] and the flag [ok].  When it reports
    failure the driver prints its failure message and saves nothing, and the
    model keeps the vector of the optimizer's last objective or gradient
    evaluation (the starting vector if it made none): the callables store
    their argument in [self.weights] and nothing puts the starting vector
    back.  When it reports success the returned vector is adopted and
    [save] is called: the model file is written and the success message
    printed if [open] and [pickle.dump] return, and if one of them raises,
    that exception leaves [train]. *)
Theorem train_optimize_outcome (fs : dump_outcome)
    (opt : list R → optimizer) (self self1 : LinearCRF) (res_x : list R)
    (ok : bool) :
  model_ready self →
  minimize (opt (weights self)) (before_minimize self)
  = Ok (self1, (res_x, ok)) →
  ∃ ws,
    asked (opt (weights self)) (before_minimize self) = Ok ws
    ∧ if ok then
        match fs with
        | Dumped =>
            ∃ self', train_optimize fs opt self = Ok self'
                     ∧ weights self' = res_x
                     ∧ saved self' = Some res_x
                     ∧ last (stdout self') = Some "Save model successful!"
        | Raised e => train_optimize fs opt self = Err e
        end
      else
        ∃ self', train_optimize fs opt self = Ok self'
                 ∧ weights self' = default (weights self) (last ws)
                 ∧ saved self' = saved self
                 ∧ last (stdout self') = Some "Fail to optimize CRF!".
Proof.
  intros Hr Hmin.
  destruct (minimize_state _ _ _ _ Hmin) as (ws & Hws & Hw & Hs & Ho).
  exists ws. split; [exact Hws|].
  rewrite (train_optimize_minimize fs opt self Hr), Hmin, bind_Ok.
  destruct ok.
  - destruct fs as [|e]; [|done].
    eexists. split; [done|]. split_and!; [done|done|].
    simpl. apply last_snoc.
  - eexists. split; [done|]. split_and!; [exact Hw|exact Hs|].
    simpl. apply last_snoc.
Qed.

Lemma train_optimize_outcome_witness :
  ∃ self1,
    minimize (failing_optimizer (weights example_model))
      (before_minimize example_model)
    = Ok (self1, (weights example_model, false))
    ∧ ∃ ws,
        asked (failing_optimizer (weights example_model))
          (before_minimize example_model) = Ok ws
        ∧ ∃ self',
            train_optimize (Raised TypeError) failing_optimizer example_model
            = Ok self'
            ∧ weights self' = default (weights example_model) (last ws)
            ∧ saved self' = saved example_model
            ∧ last (stdout self') = Some "Fail to optimize CRF!".
Proof.
  destruct (minimize_failing example_model example_model_ready)
    as (self1 & Hmin & _).
  exists self1. split; [exact Hmin|].
  exact (train_optimize_outcome (Raised TypeError) failing_optimizer
           example_model self1 (weights example_model) false
           example_model_ready Hmin).
Defined.

Lemma shifted_replicate_ne (n : nat) (a : R) :
  map (λ w, (w + 1)%R) (replicate (S n) a) ≠ replicate (S n) a.
Proof. simpl. intros [= Heq _]. lra. Qed.

(** C7 fails as stated: on the one-sentence corpus, an optimizer that
    evaluates the objective once at another vector and reports failure
    leaves that vector, not the initial weights, in the model. *)
Lemma failed_run_keeps_last_evaluated :
  ∃ self', train (Raised TypeError) failing_optimizer init 3
             [([0; 2; 1], [3; 3; 3])] = Ok self'
    ∧ saved self' = None
    ∧ weights self' = map (λ w, (w + 1)%R) (replicate 108 (1 / INR 108)%R)
    ∧ weights self' ≠ replicate 108 (1 / INR 108)%R.
Proof.
  destruct (train_reaches_optimizer (Raised TypeError) failing_optimizer 3
              [([0; 2; 1], [3; 3; 3])]) as (self & Hr & Hw & Hs & ->);
    [done| |].
  { apply Forall_cons_2; [|apply Forall_nil_2].
    apply example_pair_well_formed. reflexivity. }
  destruct (train_optimize_failing (Raised TypeError) self Hr)
    as (self' & -> & Hw' & Hs').
  exists self'. change (5 * 3 * ntags + 3 * ntags ^ 2) with 108 in Hw.
  rewrite Hw in Hw'. split_and!; [done|congruence|done|].
  rewrite Hw'. apply (shifted_replicate_ne 107).
Qed.

(** ** model_gradient_x on the one-character sentence *)

Section gradient_example.

Lemma model_gradient_x_pipeline (self : LinearCRF) (x : list nat) :
  feature_space_built self → length (weights self) = nfeatures self →
  in_vocabulary self x → 1 ≤ nwords_of x →
  let m := potential_entry self x in
  let n := nwords_of x in
  let P := tabulate3 (n + 1)
             (λ i yi_1 yi, exp (P_entry m (alpha_entry m) (beta_entry m n)
                                  (z_value m n) i yi_1 yi)) in
  log_potential_matrix self x = Ok (tabulate3 (n + 2) m)
  ∧ log_alpha self x (Some (tabulate3 (n + 2) m))
    = Ok (map (λ i, tabulate1 (alpha_entry m i)) (seq 0 (n + 1)))
  ∧ log_beta self x (Some (tabulate3 (n + 2) m))
    = Ok (map (λ i, tabulate1 (beta_entry m n i)) (seq 0 (n + 1)))
  ∧ log_z self x (Some (tabulate3 (n + 2) m))
      (Some (map (λ i, tabulate1 (alpha_entry m i)) (seq 0 (n + 1))))
    = Ok (z_value m n)
  ∧ gradient_P x (tabulate3 (n + 2) m)
      (map (λ i, tabulate1 (alpha_entry m i)) (seq 0 (n + 1)))
      (map (λ i, tabulate1 (beta_entry m n i)) (seq 0 (n + 1)))
      (z_value m n) = Ok P
  ∧ model_gradient_x self x None None None
    = gradient_accumulate self x P (zeros1 (length (weights self))).
Proof.
  intros Hb Hw Hx Hn m n P. split_and!.
  - by apply log_potential_matrix_Ok.
  - by apply log_alpha_tabulate.
  - by apply log_beta_tabulate.
  - by apply log_z_tabulate.
  - apply gradient_P_tabulate.
  - unfold model_gradient_x. simpl default_to.
    rewrite (log_potential_matrix_Ok self x Hb Hw Hx), bind_Ok.
    rewrite (log_alpha_tabulate self x _ Hn), bind_Ok.
    rewrite (log_beta_tabulate self x _ Hn), bind_Ok.
    rewrite (log_z_tabulate self x _ Hn), bind_Ok.
    by rewrite gradient_P_tabulate, bind_Ok.
Qed.

Lemma example_sentence_in_vocabulary :
  in_vocabulary example_model [0; 2; 1].
Proof. apply example_in_vocabulary. repeat constructor. Qed.

Lemma accumulate_example (q : nat → nat → nat → R) :
  (gradient_accumulate example_model [0; 2; 1] (tabulate3 2 q) (zeros1 108)
   ≫= λ g, get g 12)
  = Ok (foldl Rplus 0%R (a ← seq 0 4; b ← seq 0 4; [q 1 a b])).
Proof. vm_compute. reflexivity. Qed.

Lemma expected_count_example (q : nat → nat → nat → R) :
  expected_count example_model [0; 2; 1] (tabulate3 2 q) 12
  = foldr Rplus 0%R (a ← seq 0 4; [q 1 a 0]).
Proof. vm_compute. reflexivity. Qed.

End gradient_example.

(** C2 fails on the code.  On the one-character sentence [[0; 2; 1]] the
    cells [P[1, yi_1, yi]] with [yi_1] other than the start tag, which the
    loop skips, hold [exp 0 = 1] once [np.exp] has been applied to the whole
    table, not 0. *)
Theorem skipped_transition_holds_one :
  ∃ M alpha beta z P,
    log_potential_matrix example_model [0; 2; 1] = Ok M
    ∧ log_alpha example_model [0; 2; 1] (Some M) = Ok alpha
    ∧ log_beta example_model [0; 2; 1] (Some M) = Ok beta
    ∧ log_z example_model [0; 2; 1] (Some M) (Some alpha) = Ok z
    ∧ gradient_P [0; 2; 1] M alpha beta z = Ok P
    ∧ ∀ yi_1 yi, yi_1 < ntags → yi_1 ≠ start_index → yi < ntags →
        get3 P 1 yi_1 yi = Ok 1%R.
Proof.
  destruct (model_gradient_x_pipeline example_model [0; 2; 1]
              example_model_built example_model_weights
              example_sentence_in_vocabulary ltac:(vm_compute; lia))
    as (HM & Ha & Hb & Hz & HP & _).
  eexists _, _, _, _, _. split_and!; [exact HM|exact Ha|exact Hb|exact Hz|exact HP|].
  intros yi_1 yi H1 Hne H2.
  rewrite get3_tabulate3; [|unfold nwords_of; simpl; lia|exact H1|exact H2].
  f_equal. unfold P_entry.
  rewrite (bool_decide_eq_true_2 (1 = 1)) by done.
  rewrite (bool_decide_eq_true_2 (yi_1 ≠ start_index)) by done.
  simpl. apply exp_0.
Qed.

(** C3 fails on the code.  [activate_feature] is created once before the
    loops of [model_gradient_x] and never emptied, so a feature that fired
    at an earlier transition is incremented at every later one too.  On the
    one-character sentence, feature 12 (unigram, offset -1, start token,
    tag B) is active at the four transitions into tag B, yet its slot
    receives all sixteen cells of [P[1]]. *)
Theorem shared_active_list_overcounts :
  ∃ M alpha beta z P g v,
    log_potential_matrix example_model [0; 2; 1] = Ok M
    ∧ log_alpha example_model [0; 2; 1] (Some M) = Ok alpha
    ∧ log_beta example_model [0; 2; 1] (Some M) = Ok beta
    ∧ log_z example_model [0; 2; 1] (Some M) (Some alpha) = Ok z
    ∧ gradient_P [0; 2; 1] M alpha beta z = Ok P
    ∧ model_gradient_x example_model [0; 2; 1] None None None = Ok g
    ∧ feature_index example_model !! FU (-1) 0 0 = Some 12
    ∧ g !! 12 = Some v
    ∧ Rlt (expected_count example_model [0; 2; 1] P 12) v.
Proof.
  destruct (model_gradient_x_pipeline example_model [0; 2; 1]
              example_model_built example_model_weights
              example_sentence_in_vocabulary ltac:(vm_compute; lia))
    as (HM & Ha & Hb & Hz & HP & Hg).
  change (nwords_of [0; 2; 1] + 1) with 2 in HP, Hg.
  set (q := λ i yi_1 yi : nat, exp (P_entry (potential_entry example_model [0; 2; 1])
          (alpha_entry (potential_entry example_model [0; 2; 1]))
          (beta_entry (potential_entry example_model [0; 2; 1])
             (nwords_of [0; 2; 1]))
          (z_value (potential_entry example_model [0; 2; 1])
             (nwords_of [0; 2; 1])) i yi_1 yi)) in HP, Hg.
  assert (∀ i a b, (0 < q i a b)%R) as Hq by (intros; apply exp_pos).
  clearbody q.
  rewrite example_model_weights in Hg.
  change (nfeatures example_model) with 108 in Hg.
  destruct (gradient_accumulate_Ok example_model [0; 2; 1] q (zeros1 108)
              example_model_built example_sentence_in_vocabulary)
    as (g & Hacc & Hlen); [reflexivity|].
  change (nwords_of [0; 2; 1] + 1) with 2 in Hacc.
  pose proof (accumulate_example q) as Hv. rewrite Hacc, bind_Ok in Hv.
  apply get_inv_Ok in Hv.
  eexists _, _, _, _, _, g, _.
  split_and!; [exact HM|exact Ha|exact Hb|exact Hz|exact HP| | |exact Hv|].
  - by rewrite Hg.
  - vm_compute. reflexivity.
  - rewrite expected_count_example. vm_compute foldr. vm_compute foldl.
    pose proof (Hq 1 0 0). pose proof (Hq 1 0 1). pose proof (Hq 1 0 2).
    pose proof (Hq 1 0 3). pose proof (Hq 1 1 0). pose proof (Hq 1 1 1).
    pose proof (Hq 1 1 2). pose proof (Hq 1 1 3). pose proof (Hq 1 2 0).
    pose proof (Hq 1 2 1). pose proof (Hq 1 2 2). pose proof (Hq 1 2 3).
    pose proof (Hq 1 3 0). pose proof (Hq 1 3 1). pose proof (Hq 1 3 2).
    pose proof (Hq 1 3 3). lra.
Qed.

(** ** log_potential on the one-character sentence *)

Section normalisation_example.
Local Open Scope R_scope.

Lemma np_sum_const {A : Type} (c : R) (l : list A) :
  np_sum (map (λ _, c) l) = INR (length l) * c.
Proof.
  induction l as [|a l IH]; [simpl; lra|].
  cbn [map np_sum foldr length]. rewrite S_INR.
  change (foldr Rplus 0 (map (λ _, c) l)) with (np_sum (map (λ _, c) l)).
  rewrite IH. lra.
Qed.

Lemma potential_value_uniform (self : LinearCRF) (x : list nat)
    (yi_1 yi i N : nat) (c : R) :
  weights self = replicate N c →
  (∀ f, f ∈ active_features x yi_1 yi i → (fid self f < N)%nat) →
  potential_value self x yi_1 yi i
  = INR (length (active_features x yi_1 yi i)) * c.
Proof.
  intros Hw Hf. unfold potential_value. rewrite Hw.
  rewrite <- np_sum_const. apply np_sum_ext. intros f Hin.
  apply nth_lookup_Some with (d := 0), lookup_replicate_2. by apply Hf.
Qed.

Lemma example_potential_value (yi_1 yi i : nat) :
  (yi_1 < ntags)%nat → (yi < ntags)%nat → (1 ≤ i ≤ 2)%nat →
  potential_value example_model [0; 2; 1]%nat yi_1 yi i = 4 * (1 / INR 108).
Proof.
  intros H1 H2 Hi.
  rewrite (potential_value_uniform example_model _ _ _ _ 108 (1 / INR 108)).
  - assert (i = 1 ∨ i = 2)%nat as [-> | ->] by lia.
    + replace (length (active_features [0; 2; 1]%nat yi_1 yi 1)) with 4%nat
        by (vm_compute; reflexivity).
      simpl. lra.
    + replace (length (active_features [0; 2; 1]%nat yi_1 yi 2)) with 4%nat
        by (vm_compute; reflexivity).
      simpl. lra.
  - reflexivity.
  - intros f Hf. change 108%nat with (nfeatures example_model).
    apply (active_ids_lt example_model [0; 2; 1]%nat yi_1 yi i);
      [apply example_model_built|apply example_sentence_in_vocabulary
      |done|done|].
    by apply list_elem_of_fmap_2.
Qed.

End normalisation_example.

Section normalisation_total.
Local Open Scope R_scope.

Lemma example_z_value :
  z_value (potential_entry example_model [0; 2; 1]%nat) 1
  = ln (4 * exp (8 * (1 / INR 108))).
Proof.
  unfold z_value. f_equal. rewrite np_sum_exp_tabulate1.
  rewrite (np_sum_ext _ (λ _, exp (8 * (1 / INR 108)))).
  - rewrite np_sum_const. simpl. lra.
  - intros t Ht%elem_of_seq. f_equal.
    change (alpha_entry (potential_entry example_model [0; 2; 1]%nat) 1 t)
      with (potential_value example_model [0; 2; 1]%nat start_index t 1).
    change (potential_entry example_model [0; 2; 1]%nat (1 + 1) t end_index)
      with (potential_value example_model [0; 2; 1]%nat t end_index 2).
    rewrite !example_potential_value by (unfold ntags, start_index, end_index in *; lia).
    lra.
Qed.

Lemma example_path_value (t : nat) :
  (t < ntags)%nat →
  path_value example_model [0; 2; 1]%nat (bracket [t]) = 4 * (1 / INR 108).
Proof.
  intros Ht. unfold path_value, bracket.
  change (py_range 1 (nwords_of (start_index :: [t] ++ [end_index]) + 1))
    with [1%nat].
  cbn [map np_sum foldr].
  change (nth (1 - 1) (start_index :: [t] ++ [end_index]) 0%nat) with start_index.
  change (nth 1 (start_index :: [t] ++ [end_index]) 0%nat) with t.
  rewrite example_potential_value by (unfold ntags, start_index in *; lia).
  lra.
Qed.

End normalisation_total.

(** C1 fails on the code.  [log_potential] adds the potentials of the
    transitions 1..n of the path, while [log_z] also counts the transition
    into the end sentinel; the exponentials of [log_potential] over all tag
    paths therefore do not add up to 1.  On the one-character sentence with
    the initial weights [w = 1/108] the total is [exp (-4 w)]. *)
Theorem brute_force_total_below_one :
  ∃ total, brute_force_total example_model [0; 2; 1] = Ok total
           ∧ total = exp (- (4 * (1 / INR 108)))%R
           ∧ Rlt total 1.
Proof.
  exists (exp (- (4 * (1 / INR 108))))%R. split_and!; [|done|].
  - unfold brute_force_total.
    change (tag_paths (nwords_of [0; 2; 1])) with [[0]; [1]; [2]; [3]].
    rewrite (foldM_sum _ (λ _, exp (4 * (1 / INR 108)
                                    - ln (4 * exp (8 * (1 / INR 108)))))%R).
    + f_equal. cbn [map np_sum foldr].
      rewrite Rminus_def, exp_plus, exp_Ropp, exp_ln.
      2:{ pose proof (exp_pos (8 * (1 / INR 108))). lra. }
      replace (8 * (1 / INR 108))%R
        with (4 * (1 / INR 108) + 4 * (1 / INR 108))%R by lra.
      rewrite exp_Ropp, exp_plus.
      pose proof (exp_pos (4 * (1 / INR 108))) as Hpos.
      field. lra.
    + intros p acc Hp.
      assert (∃ t, p = [t] ∧ t < ntags) as (t & -> & Ht).
      { unfold ntags.
        repeat (apply elem_of_cons in Hp as [->|Hp]); [eexists; split; [done|lia]..|].
        by apply elem_of_nil in Hp. }
      rewrite (log_potential_Ok example_model [0; 2; 1] (bracket [t])
                 example_model_built example_model_weights
                 example_sentence_in_vocabulary).
      * rewrite bind_Ok, example_path_value by done.
        change (nwords_of [0; 2; 1]) with 1. by rewrite example_z_value.
      * vm_compute. lia.
      * unfold bracket, start_index, end_index, ntags in *. simpl.
        repeat (apply Forall_cons_2; [lia|]). apply Forall_nil_2.
  - apply Rlt_le_trans with (exp 0); [apply exp_increasing|rewrite exp_0; lra].
    assert (0 < 1 / INR 108)%R; [|lra].
    apply Rdiv_lt_0_compat; [lra|]. apply lt_0_INR. lia.
Qed.

Lemma foldM_cons_Err {X St : Type} (body : X → St → result St) (v : X)
    (l : list X) (s : St) (e : exn) :
  body v s = Err e → foldM body (v :: l) s = Err e.
Proof. intros H. simpl. by rewrite H. Qed.

(** The first call of [log_potential_at] that [log_potential_matrix] makes
    decides whether it gets any further. *)
Lemma log_potential_matrix_first_Err (self : LinearCRF) (x : list nat)
    (e : exn) :
  log_potential_at self x 0 0 1 = Err e → 1 ≤ nwords_of x + 1 →
  log_potential_matrix self x = Err e.
Proof.
  intros H Hn. unfold log_potential_matrix. cbv zeta.
  change (py_range 1 (nwords_of x + 2)) with (seq 1 (nwords_of x + 2 - 1)).
  replace (nwords_of x + 2 - 1) with (S (nwords_of x)) by lia.
  change (py_range 0 ntags) with (0 :: seq 1 3).
  rewrite <- cons_seq. apply foldM_cons_Err, foldM_cons_Err, foldM_cons_Err.
  by rewrite H.
Qed.

(** C6 fails as stated: the word id 3 is outside the vocabulary of the
    example model, [log_potential_at] raises [KeyError] on it, and so does
    the Viterbi decoder instead of returning a tag path. *)
Lemma unseen_word_raises_KeyError :
  log_potential_at example_model [0; 3; 1] 0 0 1 = Err KeyError
  ∧ inference_viterbi example_model [0; 3; 1] None = Err KeyError.
Proof.
  assert (log_potential_at example_model [0; 3; 1] 0 0 1 = Err KeyError) as H.
  { unfold log_potential_at.
    rewrite (append_active_missing example_model [0; 3; 1] 0 0 1 []
               (FU 0 3 0)); [done| |].
    - apply (bool_decide_unpack _). by vm_compute.
    - by vm_compute. }
  split; [exact H|].
  unfold inference_viterbi.
  rewrite (log_potential_matrix_first_Err _ _ _ H); [done|].
  unfold nwords_of. simpl. lia.
Qed.

(** ** np.max and np.argmax *)

Section argmax.
Local Open Scope R_scope.

Lemma argmax_from_spec (arr pre : list R) (best : R) (besti : nat) :
  (besti < length pre)%nat → nth besti pre 0 = best →
  (∀ p, (p < length pre)%nat → nth p pre 0 <= best) →
  (∀ p, (p < besti)%nat → nth p pre 0 < best) →
  let a := argmax_from best besti (length pre) arr in
  (a < length (pre ++ arr))%nat
  ∧ nth a (pre ++ arr) 0 = foldl Rmax best arr
  ∧ (∀ p, (p < length (pre ++ arr))%nat →
          nth p (pre ++ arr) 0 <= nth a (pre ++ arr) 0)
  ∧ (∀ p, (p < a)%nat → nth p (pre ++ arr) 0 < nth a (pre ++ arr) 0).
Proof.
  revert pre best besti.
  induction arr as [|v arr IH]; intros pre best besti Hi Hb Hle Hlt.
  - simpl. rewrite app_nil_r. rewrite Hb. split_and!; [done|done|..].
    + intros p Hp. by apply Hle.
    + intros p Hp. by apply Hlt.
  - cbn [argmax_from foldl].
    replace (pre ++ v :: arr) with ((pre ++ [v]) ++ arr)
      by (by rewrite <- app_assoc).
    replace (S (length pre)) with (length (pre ++ [v]))
      by (rewrite length_app; simpl; lia).
    destruct (Rlt_dec best v) as [Hbv|Hbv].
    + replace (Rmax best v) with v by (unfold Rmax; destruct (Rle_dec best v); lra).
      apply (IH (pre ++ [v]) v (length pre)).
      * rewrite length_app. simpl. lia.
      * by rewrite app_nth2, Nat.sub_diag by lia.
      * intros p Hp. rewrite length_app in Hp. simpl in Hp.
        destruct (decide (p < length pre)%nat).
        -- rewrite app_nth1 by lia. specialize (Hle p ltac:(lia)). lra.
        -- replace p with (length pre) by lia.
           rewrite app_nth2, Nat.sub_diag by lia. simpl. lra.
      * intros p Hp. rewrite app_nth1 by lia. specialize (Hle p Hp). lra.
    + replace (Rmax best v) with best by (unfold Rmax; destruct (Rle_dec best v); lra).
      apply (IH (pre ++ [v]) best besti).
      * rewrite length_app. simpl. lia.
      * by rewrite app_nth1 by lia.
      * intros p Hp. rewrite length_app in Hp. simpl in Hp.
        destruct (decide (p < length pre)%nat).
        -- rewrite app_nth1 by lia. by apply Hle.
        -- replace p with (length pre) by lia.
           rewrite app_nth2, Nat.sub_diag by lia. simpl. lra.
      * intros p Hp. rewrite app_nth1 by lia. by apply Hlt.
Qed.

Lemma argmax_value_spec (v : list R) :
  v ≠ [] →
  (argmax_value v < length v)%nat
  ∧ nth (argmax_value v) v 0 = max_value v
  ∧ (∀ p, (p < length v)%nat → nth p v 0 <= max_value v)
  ∧ (∀ p, (p < argmax_value v)%nat → nth p v 0 < max_value v).
Proof.
  destruct v as [|a v]; [done|]. intros _.
  destruct (argmax_from_spec v [a] a 0) as (H1 & H2 & H3 & H4).
  - simpl. lia.
  - done.
  - intros p Hp. simpl in Hp. replace p with 0%nat by lia. simpl. lra.
  - intros p Hp. lia.
  - simpl in *. split_and!; [done|done|..].
    + intros p Hp. rewrite <- H2. by apply H3.
    + intros p Hp. rewrite <- H2. by apply H4.
Qed.

Lemma np_max_Ok (v : list R) : v ≠ [] → np_max v = Ok (max_value v).
Proof. by destruct v. Qed.

Lemma np_argmax_Ok (v : list R) : v ≠ [] → np_argmax v = Ok (argmax_value v).
Proof. by destruct v. Qed.

Lemma argmax_value_first (v : list R) :
  v ≠ [] → first_argmax v (argmax_value v).
Proof.
  intros Hv. destruct (argmax_value_spec v Hv) as (H1 & H2 & H3 & H4).
  exists (max_value v). split.
  - rewrite <- H2. destruct (lookup_lt_is_Some_2 v (argmax_value v) H1) as [va Hva].
    by rewrite (nth_lookup_Some _ _ 0 _ Hva).
  - intros p vp Hp. pose proof (lookup_lt_Some _ _ _ Hp) as Hpl.
    rewrite <- (nth_lookup_Some _ _ 0 _ Hp). split; [by apply H3|by apply H4].
Qed.

Lemma nth_tabulate1 (h : nat → R) (p : nat) :
  (p < ntags)%nat → nth p (tabulate1 h) 0 = h p.
Proof. intros Hp. by apply nth_lookup_Some, lookup_tabulate1. Qed.

End argmax.

(** ** inference_viterbi: the tables *)

Section viterbi_tables_proof.

Lemma delta_entry_step (m : nat → nat → nat → R) (k t : nat) :
  2 ≤ k →
  delta_entry m k t =
  max_value (tabulate1 (λ p, delta_entry m (k - 1) p + m k p t)%R).
Proof.
  intros Hk. destruct k as [|[|k]]; [lia|lia|].
  change (S (S k) - 1) with (S k). reflexivity.
Qed.

(** One pass of the inner loop of the decoder: rows [k] of [delta] and of
    [trace] are filled together. *)
Lemma fill_row_pair
    (body : nat → list (list R) * list (list nat)
            → result (list (list R) * list (list nat)))
    (hd : nat → R) (ht : nat → nat) (k : nat)
    (delta : list (list R)) (trace : list (list nat))
    (oldd : list R) (oldt : list nat) :
  delta !! k = Some oldd → trace !! k = Some oldt →
  length oldd = ntags → length oldt = ntags →
  (∀ tag rd rt, tag < ntags → length rd = ntags → length rt = ntags →
     body tag (<[k := rd]> delta, <[k := rt]> trace)
     = Ok (<[k := <[tag := hd tag]> rd]> delta,
           <[k := <[tag := ht tag]> rt]> trace)) →
  foldM body (py_range 0 ntags) (delta, trace)
  = Ok (<[k := tabulate1 hd]> delta, <[k := map ht (seq 0 ntags)]> trace).
Proof.
  intros Hd Ht Hld Hlt Hbody. rewrite py_range_0.
  rewrite <- (list_insert_id delta k oldd Hd) at 1.
  rewrite <- (list_insert_id trace k oldt Ht) at 1.
  rewrite <- (fst_zip oldd oldt) at 1 by lia.
  rewrite <- (snd_zip oldd oldt) at 2 by lia.
  rewrite (foldM_fill (λ _, True)
             (λ r : list (R * nat), (<[k := r.*1]> delta, <[k := r.*2]> trace))
             body (λ tag, (hd tag, ht tag)) (zip oldd oldt) ntags).
  - reflexivity.
  - rewrite length_zip. lia.
  - by apply Forall_true.
  - done.
  - intros tag r Htag Hr _. rewrite Hbody by (by rewrite ?length_fmap).
    by rewrite !list_fmap_insert.
Qed.

Lemma viterbi_tables_tabulate (x : list nat) (m : nat → nat → nat → R) :
  1 ≤ nwords_of x →
  viterbi_tables x (tabulate3 (nwords_of x + 2) m) =
  Ok (map (λ i, tabulate1 (delta_entry m i)) (seq 0 (nwords_of x + 1)),
      map (λ i, map (trace_entry m i) (seq 0 ntags))
          (seq 0 (nwords_of x + 1))).
Proof.
  intros Hn. unfold viterbi_tables. cbv zeta. set (n := nwords_of x) in *.
  rewrite (get_Ok _ _ _ (lookup_tabulate3 (n + 2) m 1 ltac:(lia))), bind_Ok.
  rewrite (get_Ok _ _ _ (lookup_tabulate2 (m 1) start_index
             ltac:(unfold ntags, start_index; lia))), bind_Ok.
  unfold zeros2. rewrite !(replicate_as_map _ 0 (n + 1)).
  rewrite (set_row_Ok _ _ _ (zeros1 ntags)); cycle 1.
  { rewrite list_lookup_fmap, (lookup_seq_lt 0 (n + 1) 1) by lia. done. }
  { by rewrite length_tabulate1. }
  rewrite bind_Ok. change (py_range 2 (n + 1)) with (seq 2 (n + 1 - 2)).
  match goal with
  | |- foldM ?body (seq 2 (n + 1 - 2)) ?s0 = _ =>
      destruct (foldM_seq_inv body
        (λ k dt, dt =
           (map (λ i, if bool_decide (i < k)
                      then tabulate1 (delta_entry m i)
                      else zeros1 ntags) (seq 0 (n + 1)),
            map (λ i, if bool_decide (i < k)
                      then map (trace_entry m i) (seq 0 ntags)
                      else replicate ntags 0) (seq 0 (n + 1))))
        2 (n + 1 - 2) s0) as (dt & -> & ->)
  end.
  - f_equal.
    + apply insert_map_seq; [done|].
      intros j _ Hj. destruct j as [|[|j]]; [done|done|].
      by rewrite bool_decide_eq_false_2 by lia.
    + apply map_ext_in. intros i _. destruct i as [|[|i]]; [done|done|].
      by rewrite bool_decide_eq_false_2 by lia.
  - intros k dt Hk ->. eexists. split.
    + apply (fill_row_pair _ (delta_entry m k) (trace_entry m k) k _ _
               (zeros1 ntags) (replicate ntags 0)).
      * rewrite list_lookup_fmap, (lookup_seq_lt 0 (n + 1) k) by lia. simpl.
        by rewrite bool_decide_eq_false_2 by lia.
      * rewrite list_lookup_fmap, (lookup_seq_lt 0 (n + 1) k) by lia. simpl.
        by rewrite bool_decide_eq_false_2 by lia.
      * done.
      * done.
      * intros tag rd rt Htag Hrd Hrt.
        rewrite (get_Ok _ (k - 1) (tabulate1 (delta_entry m (k - 1)))); cycle 1.
        { rewrite list_lookup_insert_ne by lia.
          rewrite list_lookup_fmap, (lookup_seq_lt 0 (n + 1) (k - 1)) by lia.
          simpl. by rewrite bool_decide_eq_true_2 by lia. }
        rewrite bind_Ok.
        rewrite (get_Ok _ _ _ (lookup_tabulate3 (n + 2) m k ltac:(lia))), bind_Ok.
        rewrite column_tabulate2, bind_Ok by done.
        rewrite vadd_tabulate1, bind_Ok.
        rewrite np_max_Ok, bind_Ok by apply tabulate1_nonempty.
        rewrite (set2_Ok _ _ _ _ rd); cycle 1.
        { apply list_lookup_insert_eq.
          rewrite length_map, length_seq. lia. }
        { lia. }
        rewrite bind_Ok.
        rewrite np_argmax_Ok, bind_Ok by apply tabulate1_nonempty.
        rewrite (set2_Ok _ _ _ _ rt); cycle 1.
        { apply list_lookup_insert_eq.
          rewrite length_map, length_seq. lia. }
        { lia. }
        rewrite bind_Ok, !list_insert_insert_eq.
        rewrite (delta_entry_step m k tag) by lia.
        unfold trace_entry. by rewrite bool_decide_eq_true_2 by lia.
    + f_equal.
      * apply insert_map_seq.
        -- by rewrite bool_decide_eq_true_2 by lia.
        -- intros j _ Hj. destruct (decide (j < k)).
           ++ by rewrite !bool_decide_eq_true_2 by lia.
           ++ by rewrite !bool_decide_eq_false_2 by lia.
      * apply insert_map_seq.
        -- by rewrite bool_decide_eq_true_2 by lia.
        -- intros j _ Hj. destruct (decide (j < k)).
           ++ by rewrite !bool_decide_eq_true_2 by lia.
           ++ by rewrite !bool_decide_eq_false_2 by lia.
  - f_equal. f_equal.
    + apply map_ext_in. intros i Hi%list_elem_of_In%elem_of_seq.
      by rewrite bool_decide_eq_true_2 by lia.
    + apply map_ext_in. intros i Hi%list_elem_of_In%elem_of_seq.
      by rewrite bool_decide_eq_true_2 by lia.
Qed.

End viterbi_tables_proof.

Section backtrace_proof.

Lemma argmax_tabulate1_lt (h : nat → R) : argmax_value (tabulate1 h) < ntags.
Proof.
  destruct (argmax_value_spec (tabulate1 h) (tabulate1_nonempty h)) as (H & _).
  by rewrite length_tabulate1 in H.
Qed.

Lemma trace_entry_lt (m : nat → nat → nat → R) (i t : nat) :
  trace_entry m i t < ntags.
Proof.
  unfold trace_entry. case_bool_decide; [apply argmax_tabulate1_lt|].
  unfold ntags. lia.
Qed.

Lemma back_lt (m : nat → nat → nat → R) (n d : nat) : back m n d < ntags.
Proof.
  destruct d as [|d]; simpl; [apply argmax_tabulate1_lt|apply trace_entry_lt].
Qed.

Lemma index_tag_Ok (k : nat) : k < ntags → index_tag k = Ok (tag_char k).
Proof.
  unfold ntags. intros Hk.
  destruct k as [|[|[|[|k]]]]; [done..|lia].
Qed.

Lemma tag_index_tag_char (k : nat) : k < ntags → tag_index (tag_char k) = Ok k.
Proof.
  unfold ntags. intros Hk.
  destruct k as [|[|[|[|k]]]]; [done..|lia].
Qed.

Lemma backtrace_decoded (m : nat → nat → nat → R) (n index : nat) :
  index + 1 ≤ n →
  backtrace (map (λ i, map (trace_entry m i) (seq 0 ntags)) (seq 0 (n + 1)))
    index (back m n (n - (index + 1)))
    (replicate index start_tag
     ++ map (λ j, tag_char (back m n (n - j))) (seq (index + 1) (n - index)))
  = Ok (map (λ j, tag_char (back m n (n - j))) (seq 1 n)).
Proof.
  induction index as [|k IH]; intros Hk.
  { simpl. by rewrite Nat.sub_0_r. }
  cbn [backtrace]. unfold get2.
  rewrite (get_Ok _ (S k + 1) (map (trace_entry m (S k + 1)) (seq 0 ntags)));
    cycle 1.
  { by rewrite list_lookup_fmap, (lookup_seq_lt 0 (n + 1) (S k + 1)) by lia. }
  rewrite bind_Ok.
  rewrite (get_Ok _ _ (trace_entry m (S k + 1) (back m n (n - (S k + 1)))));
    cycle 1.
  { rewrite list_lookup_fmap, (lookup_seq_lt 0 ntags) by apply back_lt. done. }
  rewrite bind_Ok.
  assert (trace_entry m (S k + 1) (back m n (n - (S k + 1)))
          = back m n (n - (k + 1))) as ->.
  { replace (n - (k + 1)) with (S (n - (S k + 1))) by lia. simpl.
    f_equal. lia. }
  rewrite index_tag_Ok, bind_Ok by apply back_lt.
  rewrite set1_Ok, bind_Ok
    by (rewrite length_app, length_replicate; simpl; lia).
  rewrite <- IH by lia. f_equal.
  replace (S k - 1) with (k + 0) by lia.
  replace (S k) with (k + 1) at 1 by lia.
  rewrite replicate_add, <- app_assoc.
  rewrite insert_app_r_alt by (rewrite length_replicate; lia).
  rewrite length_replicate. replace (k + 0 - k) with 0 by lia.
  f_equal. simpl.
  replace (n - k) with (S (n - S k)) by lia. simpl.
  reflexivity.
Qed.

Lemma inference_viterbi_tabulate (self : LinearCRF) (x : list nat)
    (m : nat → nat → nat → R) :
  1 ≤ nwords_of x →
  inference_viterbi self x (Some (tabulate3 (nwords_of x + 2) m))
  = Ok (map tag_char (decoded_ids m (nwords_of x))).
Proof.
  intros Hn. unfold inference_viterbi. cbv zeta. simpl default_to.
  rewrite bind_Ok, (viterbi_tables_tabulate x m Hn), bind_Ok.
  set (n := nwords_of x) in *.
  rewrite (get_Ok _ n (tabulate1 (delta_entry m n))); cycle 1.
  { by rewrite list_lookup_fmap, (lookup_seq_lt 0 (n + 1) n) by lia. }
  rewrite bind_Ok, np_argmax_Ok, bind_Ok by apply tabulate1_nonempty.
  rewrite index_tag_Ok, bind_Ok by apply argmax_tabulate1_lt.
  rewrite set1_Ok, bind_Ok by (rewrite length_replicate; lia).
  pose proof (backtrace_decoded m n (n - 1) ltac:(lia)) as Hbt.
  replace (n - (n - 1 + 1)) with 0 in Hbt by lia.
  replace (n - 1 + 1) with n in Hbt by lia.
  replace (n - (n - 1)) with 1 in Hbt by lia.
  cbn [seq map] in Hbt. rewrite Nat.sub_diag in Hbt.
  change (back m n 0) with (argmax_value (tabulate1 (delta_entry m n))) in Hbt.
  unfold decoded_ids. rewrite map_map. rewrite <- Hbt. f_equal.
  replace (replicate n start_tag)
    with (replicate (n - 1) start_tag ++ replicate 1 start_tag)
    by (rewrite <- replicate_add; f_equal; lia).
  rewrite insert_app_r_alt by (rewrite length_replicate; lia).
  rewrite length_replicate, Nat.sub_diag. done.
Qed.

End backtrace_proof.

(** ** Optimality of the decoded path *)

Section optimality.
Local Open Scope R_scope.

Lemma score_S (m : nat → nat → nat → R) (y : list nat) (k : nat) :
  score m y (S k)
  = score m y k + m (S k) (nth k y 0%nat) (nth (S k) y 0%nat).
Proof.
  unfold score. rewrite seq_S, map_app, np_sum_app. simpl.
  rewrite Nat.sub_0_r. lra.
Qed.

Lemma max_value_ge (h : nat → R) (p : nat) :
  (p < ntags)%nat → h p <= max_value (tabulate1 h).
Proof.
  intros Hp.
  destruct (argmax_value_spec (tabulate1 h) (tabulate1_nonempty h))
    as (_ & _ & H & _).
  rewrite <- (nth_tabulate1 h p Hp). apply H. by rewrite length_tabulate1.
Qed.

Lemma max_value_argmax (h : nat → R) :
  max_value (tabulate1 h) = h (argmax_value (tabulate1 h)).
Proof.
  destruct (argmax_value_spec (tabulate1 h) (tabulate1_nonempty h))
    as (_ & H & _).
  rewrite <- H. apply nth_tabulate1, argmax_tabulate1_lt.
Qed.

(** No path scores more than the entry of [delta] at its last tag. *)
Lemma score_le_delta (m : nat → nat → nat → R) (y : list nat) (k : nat) :
  nth 0 y 0%nat = start_index →
  (∀ i, (1 ≤ i ≤ k)%nat → (nth i y 0 < ntags)%nat) →
  (1 ≤ k)%nat →
  score m y k <= delta_entry m k (nth k y 0%nat).
Proof.
  intros H0 Hy Hk. induction k as [|k IH]; [lia|].
  rewrite score_S. destruct (decide (k = 0)%nat) as [->|Hk0].
  - unfold score. simpl. rewrite H0. lra.
  - rewrite (delta_entry_step m (S k)) by lia.
    replace (S k - 1)%nat with k by lia.
    etransitivity;
      [|apply (max_value_ge (λ p, delta_entry m k p
                                  + m (S k) p (nth (S k) y 0%nat))
                            (nth k y 0%nat)); apply Hy; lia].
    apply Rplus_le_compat_r. apply IH; [|lia].
    intros i Hi. apply Hy. lia.
Qed.

Lemma nth_bracket_0 (p : list nat) : nth 0 (bracket p) 0%nat = start_index.
Proof. done. Qed.

Lemma nth_bracket (p : list nat) (i : nat) :
  (1 ≤ i ≤ length p)%nat → nth i (bracket p) 0%nat = nth (i - 1) p 0%nat.
Proof.
  intros Hi. unfold bracket. destruct i as [|i]; [lia|]. simpl.
  rewrite app_nth1 by lia. by rewrite Nat.sub_0_r.
Qed.

Lemma length_decoded_ids (m : nat → nat → nat → R) (n : nat) :
  length (decoded_ids m n) = n.
Proof. unfold decoded_ids. by rewrite length_map, length_seq. Qed.

Lemma lookup_decoded_ids (m : nat → nat → nat → R) (n j : nat) :
  (1 ≤ j ≤ n)%nat → decoded_ids m n !! (j - 1)%nat = Some (back m n (n - j)).
Proof.
  intros Hj. unfold decoded_ids.
  rewrite list_lookup_fmap, (lookup_seq_lt 1 n (j - 1)) by lia. simpl.
  do 3 f_equal. lia.
Qed.

Lemma nth_bracket_decoded (m : nat → nat → nat → R) (n j : nat) :
  (1 ≤ j ≤ n)%nat →
  nth j (bracket (decoded_ids m n)) 0%nat = back m n (n - j).
Proof.
  intros Hj. rewrite nth_bracket by (rewrite length_decoded_ids; lia).
  apply nth_lookup_Some. by apply lookup_decoded_ids.
Qed.

(** The decoded path scores exactly the entry of [delta] at its tag. *)
Lemma score_decoded (m : nat → nat → nat → R) (n k : nat) :
  (1 ≤ k ≤ n)%nat →
  score m (bracket (decoded_ids m n)) k = delta_entry m k (back m n (n - k)).
Proof.
  intros Hk. induction k as [|k IH]; [lia|].
  rewrite score_S. destruct (decide (k = 0)%nat) as [->|Hk0].
  - rewrite nth_bracket_0, nth_bracket_decoded by lia.
    unfold score. cbn [seq map np_sum foldr delta_entry]. lra.
  - rewrite IH by lia.
    rewrite !nth_bracket_decoded by lia.
    rewrite (delta_entry_step m (S k)) by lia.
    rewrite max_value_argmax.
    replace (S k - 1)%nat with k by lia.
    assert (back m n (n - k)
            = argmax_value (tabulate1 (λ p, delta_entry m k p
                                + m (S k) p (back m n (n - S k))))) as <-;
      [|done].
    replace (n - k)%nat with (S (n - S k)) by lia.
    cbn [back]. unfold trace_entry.
    replace (n - (n - S k))%nat with (S k) by lia.
    rewrite bool_decide_eq_true_2 by lia.
    by replace (S k - 1)%nat with k by lia.
Qed.

Lemma decoded_optimal (m : nat → nat → nat → R) (n : nat) (p : list nat) :
  (1 ≤ n)%nat → length p = n → Forall (λ t, (t < ntags)%nat) p →
  score m (bracket p) n <= score m (bracket (decoded_ids m n)) n.
Proof.
  intros Hn Hlen Hp.
  etransitivity; [apply score_le_delta; [done| |done]|].
  - intros i Hi. rewrite nth_bracket by lia.
    destruct (lookup_lt_is_Some_2 p (i - 1)) as [t Ht]; [lia|].
    rewrite (nth_lookup_Some _ _ _ _ Ht).
    by eapply (Forall_lookup_1 _ _ _ _ Hp).
  - rewrite score_decoded by lia. rewrite Nat.sub_diag. cbn [back].
    rewrite <- max_value_argmax. apply max_value_ge.
    rewrite nth_bracket by lia.
    destruct (lookup_lt_is_Some_2 p (n - 1)) as [t Ht]; [lia|].
    rewrite (nth_lookup_Some _ _ _ _ Ht).
    by eapply (Forall_lookup_1 _ _ _ _ Hp).
Qed.

Lemma elem_of_tag_paths (n : nat) (p : list nat) :
  p ∈ tag_paths n → length p = n ∧ Forall (λ t, (t < ntags)%nat) p.
Proof.
  revert p. induction n as [|n IH]; intros p Hp.
  - apply list_elem_of_singleton in Hp as ->. by split.
  - change (tag_paths (S n))
      with (t ← py_range 0 ntags; p ← tag_paths n; [t :: p]) in Hp.
    apply list_elem_of_bind in Hp as (t & Hp & Ht).
    apply list_elem_of_bind in Hp as (p' & Hp & Hp').
    apply list_elem_of_singleton in Hp as ->.
    apply elem_of_py_range in Ht. destruct (IH p' Hp') as [Hl Hf].
    split; [simpl; lia|]. apply Forall_cons_2; [lia|done].
Qed.

Lemma path_value_score (self : LinearCRF) (x p : list nat) :
  path_value self x (bracket p)
  = score (potential_entry self x) (bracket p) (length p).
Proof.
  unfold path_value, score.
  replace (py_range 1 (nwords_of (bracket p) + 1)) with (seq 1 (length p)).
  - apply np_sum_ext. intros i Hi%elem_of_seq.
    destruct i as [|i]; [lia|]. done.
  - unfold py_range, nwords_of, bracket. simpl. rewrite length_app. simpl.
    f_equal. lia.
Qed.

End optimality.

Section decoder.

Lemma decoded_ids_lt (m : nat → nat → nat → R) (n : nat) :
  Forall (λ k, k < ntags) (decoded_ids m n).
Proof.
  apply Forall_forall. intros k (j & -> & _)%list_elem_of_fmap. apply back_lt.
Qed.

Lemma tag_chars_Forall2 (ids : list nat) :
  Forall (λ k, k < ntags) ids →
  Forall2 (λ c k, tag_index c = Ok k ∧ index_tag k = Ok c)
          (map tag_char ids) ids.
Proof.
  induction 1 as [|k ids Hk _ IH]; [constructor|]. simpl. constructor; [|done].
  split; [by apply tag_index_tag_char|by apply index_tag_Ok].
Qed.

Lemma get2_trace (m : nat → nat → nat → R) (n i t : nat) :
  i < n + 1 → t < ntags →
  get2 (map (λ i, map (trace_entry m i) (seq 0 ntags)) (seq 0 (n + 1))) i t
  = Ok (trace_entry m i t).
Proof.
  intros Hi Ht. unfold get2.
  rewrite (get_Ok _ i (map (trace_entry m i) (seq 0 ntags))), bind_Ok.
  - apply get_Ok. by rewrite list_lookup_fmap, (lookup_seq_lt 0 ntags t Ht).
  - by rewrite list_lookup_fmap, (lookup_seq_lt 0 (n + 1) i Hi).
Qed.

Lemma Forall_bracket (p : list nat) :
  Forall (λ t, t < ntags) p → Forall (λ t, t < ntags) (bracket p).
Proof.
  intros Hp. unfold bracket. apply Forall_cons_2.
  - unfold start_index, ntags. lia.
  - apply Forall_app. split; [done|]. apply Forall_cons_2; [|apply Forall_nil_2].
    unfold end_index, ntags. lia.
Qed.

End decoder.

(** C5.  On every in-vocabulary sequence with at least one token between the
    sentinels (the short ones of the claim among them), [inference_viterbi]
    returns a list of tag symbols, one per token; the path it names has the
    largest potential among all tag paths of that length; each backpointer
    [trace[i, tag]] and the final tag are the lowest index at which the
    maximised array is maximal, and the path follows the backpointers. *)
Theorem viterbi_optimal_lowest_index (self : LinearCRF) (x : list nat) :
  feature_space_built self → length (weights self) = nfeatures self →
  in_vocabulary self x → 1 ≤ nwords_of x →
  ∃ y_char ids M delta trace,
    inference_viterbi self x None = Ok y_char
    ∧ length y_char = nwords_of x
    ∧ Forall2 (λ c k, tag_index c = Ok k ∧ index_tag k = Ok c) y_char ids
    ∧ (∀ p, p ∈ tag_paths (nwords_of x) →
         ∃ sp s, path_potential self x (bracket p) = Ok sp
                 ∧ path_potential self x (bracket ids) = Ok s
                 ∧ Rle sp s)
    ∧ log_potential_matrix self x = Ok M
    ∧ viterbi_tables x M = Ok (delta, trace)
    ∧ (∀ i tag, 2 ≤ i ≤ nwords_of x → tag < ntags →
         ∃ prev Mi col s a,
           delta !! (i - 1) = Some prev ∧ M !! i = Some Mi
           ∧ column Mi tag = Ok col ∧ vadd prev col = Ok s
           ∧ get2 trace i tag = Ok a ∧ first_argmax s a)
    ∧ (∃ dn best, delta !! nwords_of x = Some dn ∧ first_argmax dn best
                  ∧ last ids = Some best)
    ∧ (∀ j tj1, 1 ≤ j < nwords_of x → ids !! j = Some tj1 →
         ∃ tj, get2 trace (j + 1) tj1 = Ok tj ∧ ids !! (j - 1) = Some tj).
Proof.
  intros Hb Hw Hx Hn.
  pose (m := potential_entry self x).
  exists (map tag_char (decoded_ids m (nwords_of x))),
         (decoded_ids m (nwords_of x)),
         (tabulate3 (nwords_of x + 2) m),
         (map (λ i, tabulate1 (delta_entry m i)) (seq 0 (nwords_of x + 1))),
         (map (λ i, map (trace_entry m i) (seq 0 ntags))
              (seq 0 (nwords_of x + 1))).
  split_and!.
  - rewrite <- (inference_viterbi_tabulate self x m Hn).
    unfold inference_viterbi. simpl default_to.
    by rewrite (log_potential_matrix_Ok self x Hb Hw Hx).
  - by rewrite length_map, length_decoded_ids.
  - apply tag_chars_Forall2, decoded_ids_lt.
  - intros p [Hlen Hp]%elem_of_tag_paths.
    exists (path_value self x (bracket p)),
           (path_value self x (bracket (decoded_ids m (nwords_of x)))).
    split_and!.
    + apply path_potential_Ok; [done..|]. by apply Forall_bracket.
    + apply path_potential_Ok; [done..|]. apply Forall_bracket, decoded_ids_lt.
    + rewrite !path_value_score, Hlen, length_decoded_ids.
      by apply decoded_optimal.
  - by apply log_potential_matrix_Ok.
  - by apply viterbi_tables_tabulate.
  - intros i tag Hi Htag.
    exists (tabulate1 (delta_entry m (i - 1))), (tabulate2 (m i)),
           (tabulate1 (λ p, m i p tag)),
           (tabulate1 (λ p, delta_entry m (i - 1) p + m i p tag)%R),
           (trace_entry m i tag).
    split_and!.
    + by rewrite list_lookup_fmap, (lookup_seq_lt 0 _ (i - 1)) by lia.
    + apply lookup_tabulate3. lia.
    + by apply column_tabulate2.
    + apply vadd_tabulate1.
    + apply get2_trace; [lia|done].
    + unfold trace_entry. rewrite bool_decide_eq_true_2 by lia.
      apply argmax_value_first, tabulate1_nonempty.
  - exists (tabulate1 (delta_entry m (nwords_of x))),
           (argmax_value (tabulate1 (delta_entry m (nwords_of x)))).
    split_and!.
    + by rewrite list_lookup_fmap, (lookup_seq_lt 0 _ (nwords_of x)) by lia.
    + apply argmax_value_first, tabulate1_nonempty.
    + rewrite last_lookup, length_decoded_ids.
      replace (Nat.pred (nwords_of x)) with (nwords_of x - 1) by lia.
      rewrite lookup_decoded_ids by lia. by rewrite Nat.sub_diag.
  - intros j tj1 Hj Hj1.
    replace j with (j + 1 - 1) in Hj1 by lia.
    rewrite lookup_decoded_ids in Hj1 by lia. injection Hj1 as <-.
    exists (back m (nwords_of x) (nwords_of x - j)). split.
    + rewrite get2_trace by (lia || apply back_lt). f_equal.
      replace (nwords_of x - j) with (S (nwords_of x - (j + 1))) by lia.
      cbn [back]. f_equal. lia.
    + apply lookup_decoded_ids. lia.
Qed.

Lemma viterbi_optimal_lowest_index_witness :
  ∃ y_char ids M delta trace,
    inference_viterbi example_model [0; 2; 2; 1] None = Ok y_char
    ∧ length y_char = nwords_of [0; 2; 2; 1]
    ∧ Forall2 (λ c k, tag_index c = Ok k ∧ index_tag k = Ok c) y_char ids
    ∧ (∀ p, p ∈ tag_paths (nwords_of [0; 2; 2; 1]) →
         ∃ sp s, path_potential example_model [0; 2; 2; 1] (bracket p) = Ok sp
                 ∧ path_potential example_model [0; 2; 2; 1] (bracket ids)
                   = Ok s
                 ∧ Rle sp s)
    ∧ log_potential_matrix example_model [0; 2; 2; 1] = Ok M
    ∧ viterbi_tables [0; 2; 2; 1] M = Ok (delta, trace)
    ∧ (∀ i tag, 2 ≤ i ≤ nwords_of [0; 2; 2; 1] → tag < ntags →
         ∃ prev Mi col s a,
           delta !! (i - 1) = Some prev ∧ M !! i = Some Mi
           ∧ column Mi tag = Ok col ∧ vadd prev col = Ok s
           ∧ get2 trace i tag = Ok a ∧ first_argmax s a)
    ∧ (∃ dn best, delta !! nwords_of [0; 2; 2; 1] = Some dn
                  ∧ first_argmax dn best ∧ last ids = Some best)
    ∧ (∀ j tj1, 1 ≤ j < nwords_of [0; 2; 2; 1] → ids !! j = Some tj1 →
         ∃ tj, get2 trace (j + 1) tj1 = Ok tj ∧ ids !! (j - 1) = Some tj).
Proof.
  apply (viterbi_optimal_lowest_index example_model [0; 2; 2; 1]).
  - apply example_model_built.
  - apply example_model_weights.
  - apply example_in_vocabulary. repeat constructor.
  - vm_compute. lia.
Defined.

(** ** The embedding on concrete inputs *)

Section sanity.

Example getitem_negative : getitem [10; 20; 30] (-1) = Ok 30.
Proof. reflexivity. Qed.

Example getitem_out_of_range : getitem [10; 20; 30] 3 = Err IndexError.
Proof. reflexivity. Qed.

Example example_model_nfeatures : nfeatures example_model = 108.
Proof. vm_compute. reflexivity. Qed.

(** The ids appended at the first transition of the one-character sentence:
    three unigram features and the bigram feature. *)
Example example_first_active :
  append_active example_model [0; 2; 1] 0 0 1 [] = Ok [12; 32; 40; 92].
Proof. vm_compute. reflexivity. Qed.

(** At the next transition the list still holds the ids of the first. *)
Example example_second_active :
  append_active example_model [0; 2; 1] 0 1 1 [12; 32; 40; 92]
  = Ok [12; 32; 40; 92; 13; 33; 41; 93].
Proof. vm_compute. reflexivity. Qed.

Example fancy_add_repeated_index :
  fancy_add [0%R; 0%R] [1; 1] 1%R = Ok [0%R; (0 + 1)%R].
Proof. reflexivity. Qed.

Example tag_paths_count : length (tag_paths 2) = 16.
Proof. reflexivity. Qed.

(** A sentence with no token between the sentinels is outside the domain of
    the forward pass and of the decoder: row 1 of their tables does not
    exist. *)
Lemma log_alpha_empty_sentence (self : LinearCRF) :
  feature_space_built self → length (weights self) = nfeatures self →
  in_vocabulary self [0; 1] →
  log_alpha self [0; 1] None = Err IndexError
  ∧ inference_viterbi self [0; 1] None = Err IndexError.
Proof.
  intros Hb Hw Hx. split.
  - unfold log_alpha. simpl default_to.
    rewrite (log_potential_matrix_Ok self [0; 1] Hb Hw Hx), bind_Ok.
    rewrite (get_Ok _ _ _ (lookup_tabulate3 (nwords_of [0; 1] + 2)
               (potential_entry self [0; 1]) 1 ltac:(vm_compute; lia))),
      bind_Ok.
    rewrite (get_Ok _ _ _ (lookup_tabulate2 (potential_entry self [0; 1] 1)
               start_index ltac:(vm_compute; lia))), bind_Ok.
    reflexivity.
  - unfold inference_viterbi, viterbi_tables. simpl default_to.
    rewrite (log_potential_matrix_Ok self [0; 1] Hb Hw Hx), bind_Ok.
    rewrite (get_Ok _ _ _ (lookup_tabulate3 (nwords_of [0; 1] + 2)
               (potential_entry self [0; 1]) 1 ltac:(vm_compute; lia))),
      bind_Ok.
    rewrite (get_Ok _ _ _ (lookup_tabulate2 (potential_entry self [0; 1] 1)
               start_index ltac:(vm_compute; lia))), bind_Ok.
    reflexivity.
Qed.

End sanity.

(** * Further properties of the code *)

(** ** log_sum_exp: the shift by the maximum *)

Section log_sum_exp_range.
Local Open Scope R_scope.

Lemma np_sum_le_length (f : R → R) (v : list R) :
  (∀ a, a ∈ v → f a <= 1) → np_sum (map f v) <= INR (length v).
Proof.
  induction v as [|a v IH]; intros Hf; [simpl; lra|].
  rewrite length_cons, S_INR. simpl.
  pose proof (Hf a ltac:(left)) as Ha.
  assert (np_sum (map f v) <= INR (length v)) as Hv.
  { apply IH. intros b Hb. apply Hf. by right. }
  lra.
Qed.

Lemma np_sum_ge_term (f : R → R) (v : list R) (a : R) :
  (∀ b, b ∈ v → 0 <= f b) → a ∈ v → f a <= np_sum (map f v).
Proof.
  induction v as [|b v IH]; intros Hf Ha; [by apply elem_of_nil in Ha|].
  assert (0 <= np_sum (map f v)) as Hnn.
  { clear IH Ha. induction v as [|c v IHv]; simpl; [lra|].
    pose proof (Hf c ltac:(right; left)).
    assert (0 <= np_sum (map f v)); [|lra].
    apply IHv. intros d Hd. apply Hf.
    apply elem_of_cons in Hd as [->|Hd]; [left|right; by right]. }
  simpl. apply elem_of_cons in Ha as [->|Ha].
  - lra.
  - pose proof (Hf b ltac:(left)).
    assert (f a <= np_sum (map f v)); [|lra].
    apply IH; [|done]. intros c Hc. apply Hf. by right.
Qed.

Lemma max_value_bounds (v : list R) :
  v ≠ [] → max_value v ∈ v ∧ ∀ a, a ∈ v → a <= max_value v.
Proof.
  intros Hv. destruct (argmax_value_spec v Hv) as (H1 & H2 & H3 & _). split.
  - rewrite <- H2.
    destruct (lookup_lt_is_Some_2 v (argmax_value v) H1) as [va Hva].
    rewrite (nth_lookup_Some _ _ 0 _ Hva). by eapply list_elem_of_lookup_2.
  - intros a (p & Hp)%list_elem_of_lookup_1.
    rewrite <- (nth_lookup_Some _ _ 0 _ Hp). apply H3.
    by eapply lookup_lt_Some.
Qed.

End log_sum_exp_range.

(** X1.  On a non-empty array [log_sum_exp] exponentiates only numbers that
    are at most 0, so every exponential lies in (0, 1] and their sum between
    1 and the length of the array; the result lies between the maximum [m]
    of the array and [m + ln (length arr)]. *)
Theorem log_sum_exp_stable (arr : list R) :
  arr ≠ [] →
  ∃ m r, np_max arr = Ok m ∧ log_sum_exp arr = Ok r
    ∧ Forall (λ a, a - m <= 0 ∧ 0 < exp (a - m) <= 1)%R arr
    ∧ (1 <= np_sum (map (λ a, exp (a - m)) arr) <= INR (length arr))%R
    ∧ (m <= r <= m + ln (INR (length arr)))%R.
Proof.
  intros Hv. destruct (max_value_bounds arr Hv) as [Hin Hle].
  assert (∀ a, a ∈ arr → (exp (a - max_value arr) <= 1)%R) as Hexp.
  { intros a Ha. rewrite <- exp_0.
    destruct (Req_dec (a - max_value arr) 0) as [->|Hne]; [lra|].
    left. apply exp_increasing. pose proof (Hle a Ha). lra. }
  assert (1 <= np_sum (map (λ a, exp (a - max_value arr)) arr)
          <= INR (length arr))%R as Hsum.
  { split.
    - etransitivity;
        [|apply (np_sum_ge_term (λ a, exp (a - max_value arr)) arr
                   (max_value arr)); [|done]].
      + rewrite Rminus_diag, exp_0. lra.
      + intros b _. left. apply exp_pos.
    - by apply np_sum_le_length. }
  exists (max_value arr),
    (max_value arr + ln (np_sum (map (λ a, exp (a - max_value arr)) arr)))%R.
  split_and!.
  - by apply np_max_Ok.
  - unfold log_sum_exp. by rewrite (np_max_Ok arr Hv).
  - apply Forall_forall. intros a Ha. split_and!.
    + pose proof (Hle a Ha). lra.
    + apply exp_pos.
    + by apply Hexp.
  - apply Hsum.
  - apply Hsum.
  - assert (0 <= ln (np_sum (map (λ a, exp (a - max_value arr)) arr)))%R; [|lra].
    rewrite <- ln_1. destruct Hsum as [[Hlt|Heq] _].
    + left. apply ln_increasing; lra.
    + rewrite <- Heq. lra.
  - assert (ln (np_sum (map (λ a, exp (a - max_value arr)) arr))
            <= ln (INR (length arr)))%R; [|lra].
    destruct Hsum as [H1 [Hlt|Heq]].
    + left. apply ln_increasing; lra.
    + rewrite Heq. lra.
Qed.

Lemma log_sum_exp_stable_witness :
  ∃ m r, np_max [0%R; 1%R] = Ok m ∧ log_sum_exp [0%R; 1%R] = Ok r
    ∧ Forall (λ a, a - m <= 0 ∧ 0 < exp (a - m) <= 1)%R [0%R; 1%R]
    ∧ (1 <= np_sum (map (λ a, exp (a - m)) [0%R; 1%R])
       <= INR (length [0%R; 1%R]))%R
    ∧ (m <= r <= m + ln (INR (length [0%R; 1%R])))%R.
Proof. apply (log_sum_exp_stable [0%R; 1%R]). discriminate. Defined.

(** ** The feature ids in closed form *)

Section feature_ids.

Lemma lookup_bind_block {A B : Type} (f : A → list B) (l : list A)
    (c i j : nat) (a : A) (b : B) :
  (∀ a, length (f a) = c) → l !! i = Some a → f a !! j = Some b →
  (l ≫= f) !! (i * c + j) = Some b.
Proof.
  intros Hf. revert i. induction l as [|a0 l IH]; intros i Hi Hj; [done|].
  rewrite bind_cons. destruct i as [|i].
  - injection Hi as ->. rewrite lookup_app_l; [done|].
    by eapply lookup_lt_Some.
  - rewrite lookup_app_r; rewrite Hf; [|simpl; lia].
    replace (S i * c + j - c) with (i * c + j) by (simpl; lia).
    by apply IH.
Qed.

Lemma lookup_py_range_0 (n k : nat) : k < n → py_range 0 n !! k = Some k.
Proof.
  intros Hk. unfold py_range. rewrite Nat.sub_0_r. by apply lookup_seq_lt.
Qed.

Lemma lookup_U_feature_pos (p : nat) :
  p < 5 → U_feature_pos !! p = Some (Z.of_nat p - 2)%Z.
Proof. intros Hp. do 5 (destruct p as [|p]; [done|]). lia. Qed.

Lemma lookup_unigram_features (n p word tag : nat) :
  p < 5 → word < n → tag < ntags →
  unigram_features n !! ((p * n + word) * ntags + tag)
  = Some (FU (Z.of_nat p - 2) word tag).
Proof.
  intros Hp Hw Ht. unfold unigram_features.
  replace ((p * n + word) * ntags + tag)
    with (p * (n * ntags) + (word * ntags + tag)) by lia.
  eapply lookup_bind_block; [|by apply lookup_U_feature_pos|].
  { intros pos. rewrite (length_bind_const _ ntags), length_py_range; [lia|].
    intros w. by rewrite (length_bind_const _ 1), length_py_range; [lia|]. }
  eapply lookup_bind_block; [|by apply lookup_py_range_0|].
  { intros w. by rewrite (length_bind_const _ 1), length_py_range; [lia|]. }
  replace tag with (tag * 1 + 0) at 1 by lia.
  eapply lookup_bind_block; [done|by apply lookup_py_range_0|done].
Qed.

Lemma lookup_bigram_features (n word yi_1 yi : nat) :
  word < n → yi_1 < ntags → yi < ntags →
  bigram_features n !! ((word * ntags + yi_1) * ntags + yi)
  = Some (FB 0 word yi_1 yi).
Proof.
  intros Hw H1 H2. unfold bigram_features.
  replace ((word * ntags + yi_1) * ntags + yi)
    with (0 * (n * ntags ^ 2) + (word * ntags ^ 2 + (yi_1 * ntags + yi)))
    by (unfold ntags; simpl; lia).
  eapply lookup_bind_block; [|done|].
  { intros pos.
    rewrite (length_bind_const _ (ntags ^ 2)), length_py_range; [lia|].
    intros w.
    rewrite (length_bind_const _ ntags), length_py_range; [simpl; lia|].
    intros t. by rewrite (length_bind_const _ 1), length_py_range; [lia|]. }
  eapply lookup_bind_block; [|by apply lookup_py_range_0|].
  { intros w.
    rewrite (length_bind_const _ ntags), length_py_range; [simpl; lia|].
    intros t. by rewrite (length_bind_const _ 1), length_py_range; [lia|]. }
  eapply lookup_bind_block; [|by apply lookup_py_range_0|].
  { intros t. by rewrite (length_bind_const _ 1), length_py_range; [lia|]. }
  replace yi with (yi * 1 + 0) at 1 by lia.
  eapply lookup_bind_block; [done|by apply lookup_py_range_0|done].
Qed.

Lemma elem_of_U_feature_pos (pos : Z) :
  pos ∈ U_feature_pos ↔ (-2 ≤ pos ≤ 2)%Z.
Proof.
  unfold U_feature_pos. rewrite !elem_of_cons, elem_of_nil. lia.
Qed.

Lemma elem_of_B_feature_pos (pos : Z) : pos ∈ B_feature_pos ↔ pos = 0%Z.
Proof. unfold B_feature_pos. by rewrite list_elem_of_singleton. Qed.

End feature_ids.

(** X2.  The id [train] gives to a feature is a mixed-radix number: the
    unigram feature [('U', pos, word, tag)] has the id
    [((pos + 2) * nwords + word) * ntags + tag], and the bigram feature
    [('B', 0, word, yi_1, yi)] the id
    [5 * nwords * ntags + (word * ntags + yi_1) * ntags + yi]. *)
Theorem feature_id_closed_form (n : nat) (data : list (list nat * list nat)) :
  let s := train_features (read_corpus init n data) in
  (∀ p word tag, p < 5 → word < n → tag < ntags →
     dict_get (feature_index s) (FU (Z.of_nat p - 2) word tag)
     = Ok ((p * n + word) * ntags + tag))
  ∧ (∀ word yi_1 yi, word < n → yi_1 < ntags → yi < ntags →
       dict_get (feature_index s) (FB 0 word yi_1 yi)
       = Ok (5 * n * ntags + (word * ntags + yi_1) * ntags + yi)).
Proof.
  intros s.
  destruct (train_features_built (read_corpus init n data))
    as ([Hfi _ _] & Hnw & _); [done..|].
  fold s in Hfi, Hnw. simpl in Hnw. rewrite Hnw in Hfi. unfold dict_get.
  split.
  - intros p word tag Hp Hw Ht.
    rewrite (proj2 (Hfi (FU (Z.of_nat p - 2) word tag)
                        ((p * n + word) * ntags + tag))); [done|].
    unfold all_features. rewrite lookup_app_l.
    + by apply lookup_unigram_features.
    + rewrite length_unigram_features. unfold ntags in *. nia.
  - intros word yi_1 yi Hw H1 H2.
    rewrite (proj2 (Hfi (FB 0 word yi_1 yi)
               (5 * n * ntags + (word * ntags + yi_1) * ntags + yi)));
      [done|].
    unfold all_features.
    rewrite lookup_app_r; rewrite length_unigram_features; [|lia].
    replace (5 * n * ntags + (word * ntags + yi_1) * ntags + yi
             - 5 * n * ntags)
      with ((word * ntags + yi_1) * ntags + yi) by lia.
    by apply lookup_bigram_features.
Qed.

(** X3.  After the enumeration a feature tuple is a key of [feature_index]
    exactly when its position is one of the template positions, its word id
    is below the vocabulary size and its tags are below [ntags]; the
    subscript [feature_index[f]] raises [KeyError] on every other tuple. *)
Theorem feature_index_domain (n : nat) (data : list (list nat * list nat))
    (f : feature) :
  let s := train_features (read_corpus init n data) in
  let known :=
    match f with
    | FU pos word tag => (-2 ≤ pos ≤ 2)%Z ∧ word < n ∧ tag < ntags
    | FB pos word yi_1 yi => pos = 0%Z ∧ word < n ∧ yi_1 < ntags ∧ yi < ntags
    end in
  (known → ∃ k, dict_get (feature_index s) f = Ok k ∧ k < nfeatures s)
  ∧ (¬ known → dict_get (feature_index s) f = Err KeyError).
Proof.
  intros s known.
  destruct (train_features_built (read_corpus init n data))
    as ([Hfi _ Hnf] & Hnw & _); [done..|].
  fold s in Hfi, Hnw, Hnf. simpl in Hnw. rewrite Hnw in Hfi, Hnf.
  assert (known ↔ f ∈ all_features n) as Hk.
  { unfold all_features.
    rewrite elem_of_app, elem_of_unigram_features, elem_of_bigram_features.
    subst known. destruct f as [pos word tag|pos word yi_1 yi].
    - rewrite <- elem_of_U_feature_pos. split.
      + intros (? & ? & ?). left. by exists pos, word, tag.
      + intros [(? & ? & ? & [= <- <- <-] & ? & ? & ?)
               |(? & ? & ? & ? & [=] & _)]. done.
    - rewrite <- elem_of_B_feature_pos. split.
      + intros (? & ? & ? & ?). right. by exists pos, word, yi_1, yi.
      + intros [(? & ? & ? & [=] & _)
               |(? & ? & ? & ? & [= <- <- <- <-] & ? & ? & ? & ?)]. done. }
  unfold dict_get. split.
  - intros (k & Hl)%Hk%list_elem_of_lookup_1. exists k.
    rewrite (proj2 (Hfi f k) Hl). split; [done|]. rewrite Hnf.
    by eapply lookup_lt_Some.
  - intros Hn. destruct (feature_index s !! f) as [k|] eqn:E; [|done].
    exfalso. apply Hn, Hk. apply Hfi in E. by eapply list_elem_of_lookup_2.
Qed.

(** ** feature_at: its values and its exceptions *)

Section feature_at_range.

Lemma getitem_beyond {A : Type} (x : list A) (j : Z) :
  (Z.of_nat (length x) ≤ j)%Z → getitem x j = Err IndexError.
Proof.
  intros Hj. unfold getitem.
  destruct (Z.ltb_spec j 0) as [?|_]; [lia|].
  destruct (Z.ltb_spec j 0) as [?|_]; [lia|].
  rewrite (proj2 (lookup_ge_None x (Z.to_nat j))); [done|lia].
Qed.

Lemma index_feature_unigram (self : LinearCRF) (k : nat) :
  feature_space_built self → k < 5 * nwords self * ntags →
  ∃ pos word tag, index_feature self !! k = Some (FU pos word tag).
Proof.
  intros [_ Hinf _] Hk.
  destruct (lookup_lt_is_Some_2 (unigram_features (nwords self)) k)
    as [f Hf]; [by rewrite length_unigram_features|].
  pose proof (list_elem_of_lookup_2 _ _ _ Hf) as Hin.
  apply elem_of_unigram_features in Hin as (pos & word & tag & -> & _).
  exists pos, word, tag. apply Hinf. unfold all_features.
  rewrite lookup_app_l; [done|]. by rewrite length_unigram_features.
Qed.

Lemma index_feature_bigram (self : LinearCRF) (k : nat) :
  feature_space_built self →
  5 * nwords self * ntags ≤ k < nfeatures self →
  ∃ word yi_1 yi, index_feature self !! k = Some (FB 0 word yi_1 yi).
Proof.
  intros [_ Hinf Hnf] Hk.
  destruct (lookup_lt_is_Some_2 (all_features (nwords self)) k)
    as [f Hf]; [lia|].
  pose proof Hf as Hf'. unfold all_features in Hf'.
  rewrite lookup_app_r in Hf' by (rewrite length_unigram_features; lia).
  apply list_elem_of_lookup_2, elem_of_bigram_features in Hf'
    as (pos & word & yi_1 & yi & -> & ->%list_elem_of_singleton & _).
  exists word, yi_1, yi. by apply Hinf.
Qed.

End feature_at_range.

(** X4.  On a model whose features are enumerated, [feature_at] raises
    [KeyError] for an id that is not below [nfeatures]; for a unigram id it
    returns 0 or 1 at every position; for a bigram id it returns 0 or 1 at a
    position inside the sequence and raises [IndexError] at a position past
    its end, where the subscript [x[i + pos]] is not guarded. *)
Theorem feature_at_values_and_errors (self : LinearCRF) (k : nat)
    (x : list nat) (yi_1 yi i : nat) :
  feature_space_built self →
  (nfeatures self ≤ k → feature_at self k x yi_1 yi i = Err KeyError)
  ∧ (k < 5 * nwords self * ntags →
       feature_at self k x yi_1 yi i = Ok 0
       ∨ feature_at self k x yi_1 yi i = Ok 1)
  ∧ (5 * nwords self * ntags ≤ k < nfeatures self →
       (i < length x →
          feature_at self k x yi_1 yi i = Ok 0
          ∨ feature_at self k x yi_1 yi i = Ok 1)
       ∧ (1 ≤ i → length x ≤ i →
            feature_at self k x yi_1 yi i = Err IndexError)).
Proof.
  intros Hb. split_and!.
  - intros Hk. unfold feature_at, dict_get.
    destruct (index_feature self !! k) as [f|] eqn:E; [|done].
    apply (built_index_feature _ Hb), lookup_lt_Some in E.
    rewrite (built_nfeatures _ Hb) in Hk. lia.
  - intros Hk.
    destruct (index_feature_unigram self k Hb Hk) as (pos & word & tag & E).
    unfold feature_at, dict_get. rewrite E, bind_Ok.
    destruct (bool_decide (0 ≤ Z.of_nat i + pos)%Z) eqn:E1; [|by left].
    destruct (bool_decide (Z.of_nat i + pos ≤ Z.of_nat (length x) - 1)%Z)
      eqn:E2; [|by left].
    destruct (bool_decide (yi = tag)); [|by left]. simpl.
    apply bool_decide_eq_true in E1, E2.
    rewrite getitem_in_range by lia. rewrite bind_Ok.
    destruct (bool_decide _); [by right|by left].
  - intros Hk.
    destruct (index_feature_bigram self k Hb Hk) as (word & t1 & t2 & E).
    unfold feature_at, dict_get. rewrite E, bind_Ok. split.
    + intros Hi.
      destruct (bool_decide (1 ≤ Z.of_nat i + 0)%Z) eqn:E1; [|by left].
      rewrite getitem_in_range by lia. rewrite bind_Ok.
      destruct (_ && _); [by right|by left].
    + intros H1 Hi. rewrite bool_decide_eq_true_2 by lia.
      rewrite getitem_beyond by lia. done.
Qed.

Lemma feature_at_values_and_errors_witness :
  (nfeatures example_model ≤ 108 →
     feature_at example_model 108 [0; 2; 1] 3 3 1 = Err KeyError)
  ∧ (108 < 5 * nwords example_model * ntags →
       feature_at example_model 108 [0; 2; 1] 3 3 1 = Ok 0
       ∨ feature_at example_model 108 [0; 2; 1] 3 3 1 = Ok 1)
  ∧ (5 * nwords example_model * ntags ≤ 108 < nfeatures example_model →
       (1 < length [0; 2; 1] →
          feature_at example_model 108 [0; 2; 1] 3 3 1 = Ok 0
          ∨ feature_at example_model 108 [0; 2; 1] 3 3 1 = Ok 1)
       ∧ (1 ≤ 1 → length [0; 2; 1] ≤ 1 →
            feature_at example_model 108 [0; 2; 1] 3 3 1 = Err IndexError)).
Proof.
  apply (feature_at_values_and_errors example_model 108 [0; 2; 1] 3 3 1).
  apply example_model_built.
Defined.

(** ** log_potential_matrix: its entries, and the sequences it rejects *)

Section matrix.

Lemma foldM_cases {X St : Type} (I : St → Prop) (body : X → St → result St)
    (e : exn) (l : list X) (s : St) :
  I s →
  (∀ v s, v ∈ l → I s → (∃ s', body v s = Ok s' ∧ I s') ∨ body v s = Err e) →
  (∃ s', foldM body l s = Ok s' ∧ I s') ∨ foldM body l s = Err e.
Proof.
  revert s. induction l as [|v l IH]; intros s HI Hbody; [left; by exists s|].
  simpl. destruct (Hbody v s) as [(s1 & -> & HI1)| ->]; [by left|done| |by right].
  rewrite bind_Ok. apply IH; [done|].
  intros v' s' Hv'. apply Hbody. by right.
Qed.

Lemma foldM_Err_exists {X St : Type} (I : St → Prop)
    (body : X → St → result St) (e : exn) (l : list X) (s : St) (v0 : X) :
  I s →
  (∀ v s, v ∈ l → I s → (∃ s', body v s = Ok s' ∧ I s') ∨ body v s = Err e) →
  v0 ∈ l → (∀ s, I s → body v0 s = Err e) →
  foldM body l s = Err e.
Proof.
  revert s. induction l as [|v l IH]; intros s HI Hbody Hv0 Hbad.
  { by apply elem_of_nil in Hv0. }
  simpl. destruct (Hbody v s) as [(s1 & E & HI1)|E]; [by left|done|..].
  - rewrite E, bind_Ok. apply elem_of_cons in Hv0 as [<-|Hv0].
    + rewrite Hbad in E; done.
    + apply IH; [done| |done..]. intros v' s' Hv'. apply Hbody. by right.
  - by rewrite E.
Qed.

Lemma set3_shape {A : Type} (n : nat) (M : list (list (list A)))
    (i a b : nat) (v : A) :
  shape3 n M → i < n → a < ntags → b < ntags →
  ∃ M', set3 M i a b v = Ok M' ∧ shape3 n M'.
Proof.
  intros [Hlen Hall] Hi Ha Hb.
  destruct (lookup_lt_is_Some_2 M i) as [Mi HMi]; [lia|].
  destruct (Forall_lookup_1 _ _ _ _ Hall HMi) as [Hl Hrows].
  destruct (lookup_lt_is_Some_2 Mi a) as [r Hr]; [lia|].
  pose proof (Forall_lookup_1 _ _ _ _ Hrows Hr) as Hlr. simpl in Hlr.
  rewrite (set3_Ok M i a b v Mi r HMi Hr) by lia.
  eexists. split; [done|]. split; [by rewrite length_insert|].
  apply Forall_insert; [done|]. split; [by rewrite length_insert|].
  apply Forall_insert; [done|]. by rewrite length_insert.
Qed.

Lemma shape3_zeros3 (n : nat) : shape3 n (zeros3 n ntags ntags).
Proof.
  split; [apply length_replicate|]. apply Forall_replicate.
  split; [apply length_replicate|]. apply Forall_replicate.
  apply length_replicate.
Qed.

(** [log_potential_at] has one way to fail on a model whose weight vector
    has its full length: a feature tuple that is not a key. *)
Lemma log_potential_at_cases (self : LinearCRF) (x : list nat)
    (yi_1 yi i : nat) :
  feature_space_built self → length (weights self) = nfeatures self →
  (∃ v, log_potential_at self x yi_1 yi i = Ok v)
  ∨ log_potential_at self x yi_1 yi i = Err KeyError.
Proof.
  intros Hb Hw. unfold log_potential_at.
  destruct (decide (Forall (λ f, is_Some (feature_index self !! f))
                      (active_features x yi_1 yi i))) as [Hall|Hno].
  - left. rewrite append_active_all by (by apply Forall_forall).
    rewrite bind_Ok, fancy_index_Ok, bind_Ok; [by eexists|].
    intros k (f & -> & Hf)%list_elem_of_fmap.
    eapply Forall_forall in Hall as [k Hk]; [|done].
    unfold fid. rewrite Hk. simpl. rewrite Hw, (built_nfeatures _ Hb).
    apply (built_feature_index _ Hb) in Hk. by eapply lookup_lt_Some.
  - right. apply not_Forall_Exists in Hno; [|apply _].
    apply Exists_exists in Hno as (f & Hf & Hnone).
    rewrite (append_active_missing self x yi_1 yi i [] f Hf); [done|].
    by apply eq_None_not_Some.
Qed.

(** A position whose window holds a token outside the vocabulary. *)
Lemma unseen_token_position (self : LinearCRF) (x : list nat) (w : nat) :
  feature_space_built self → w ∈ x → nwords self ≤ w → 2 ≤ length x →
  ∃ i, 1 ≤ i < length x
       ∧ ∀ yi_1 yi, log_potential_at self x yi_1 yi i = Err KeyError.
Proof.
  intros Hb (j & Hj)%list_elem_of_lookup_1 Hw Hlen.
  pose proof (lookup_lt_Some _ _ _ Hj) as Hjl.
  assert (∀ pos tag, feature_index self !! FU pos w tag = None) as Hnone.
  { intros pos tag. destruct (feature_index self !! _) as [k|] eqn:E; [|done].
    apply (built_feature_index _ Hb), list_elem_of_lookup_2 in E.
    apply elem_of_app in E as [E|E].
    - apply elem_of_unigram_features in E
        as (? & ? & ? & [= <- <- <-] & _ & ? & _). lia.
    - apply elem_of_bigram_features in E as (? & ? & ? & ? & [=] & _). }
  destruct j as [|j].
  - exists 1. split; [lia|]. intros yi_1 yi. unfold log_potential_at.
    rewrite (append_active_missing self x yi_1 yi 1 [] (FU (-1) w yi));
      [done| |done].
    apply elem_of_app. left. apply elem_of_active_U. split_and!; [|lia..| |done].
    + apply elem_of_U_feature_pos. lia.
    + simpl. by rewrite (nth_lookup_Some _ _ _ _ Hj).
  - exists (S j). split; [lia|]. intros yi_1 yi. unfold log_potential_at.
    rewrite (append_active_missing self x yi_1 yi (S j) [] (FU 0 w yi));
      [done| |done].
    apply elem_of_app. left. apply elem_of_active_U. split_and!; [|lia..| |done].
    + apply elem_of_U_feature_pos. lia.
    + replace (Z.to_nat (0 + Z.of_nat (S j))) with (S j) by lia.
      by rewrite (nth_lookup_Some _ _ _ _ Hj).
Qed.

Lemma log_potential_matrix_unseen (self : LinearCRF) (x : list nat) :
  feature_space_built self → length (weights self) = nfeatures self →
  2 ≤ length x → (∃ w, w ∈ x ∧ nwords self ≤ w) →
  log_potential_matrix self x = Err KeyError.
Proof.
  intros Hb Hw Hlen (w & Hin & Hge).
  destruct (unseen_token_position self x w Hb Hin Hge Hlen) as (i0 & Hi0 & Hbad).
  unfold log_potential_matrix. cbv zeta.
  assert (nwords_of x + 2 = length x) as HN by (unfold nwords_of; lia).
  set (N := nwords_of x + 2) in *.
  assert (∀ i a, i < N → a < ntags → ∀ M, shape3 N M →
    (∃ M', foldM (λ tag2 M, v ← log_potential_at self x a tag2 i;
                            set3 M i a tag2 v) (py_range 0 ntags) M = Ok M'
           ∧ shape3 N M')
    ∨ foldM (λ tag2 M, v ← log_potential_at self x a tag2 i;
                       set3 M i a tag2 v) (py_range 0 ntags) M
      = Err KeyError) as Hrow.
  { intros i a Hi Ha M HM. apply foldM_cases; [done|].
    intros b M1 Hb1%elem_of_py_range HM1.
    destruct (log_potential_at_cases self x a b i Hb Hw) as [[v ->]| ->];
      [left|by right].
    rewrite bind_Ok. apply set3_shape; [done|lia..]. }
  assert (∀ i, i < N → ∀ M, shape3 N M →
    (∃ M', foldM (λ tag1 M, foldM (λ tag2 M,
                    v ← log_potential_at self x tag1 tag2 i;
                    set3 M i tag1 tag2 v) (py_range 0 ntags) M)
             (py_range 0 ntags) M = Ok M' ∧ shape3 N M')
    ∨ foldM (λ tag1 M, foldM (λ tag2 M,
                    v ← log_potential_at self x tag1 tag2 i;
                    set3 M i tag1 tag2 v) (py_range 0 ntags) M)
             (py_range 0 ntags) M = Err KeyError) as Hslab.
  { intros i Hi M HM. apply foldM_cases; [done|].
    intros a M1 Ha%elem_of_py_range HM1. apply Hrow; [done|lia|done]. }
  apply (foldM_Err_exists (shape3 N) _ KeyError _ _ i0).
  - apply shape3_zeros3.
  - intros i M Hi%elem_of_py_range HM. apply Hslab; [lia|done].
  - apply elem_of_py_range. lia.
  - intros M HM. apply (foldM_Err_exists (shape3 N) _ KeyError _ _ 0).
    + done.
    + intros a M1 Ha%elem_of_py_range HM1. apply Hrow; [lia..|done].
    + apply elem_of_py_range. unfold ntags. lia.
    + intros M1 HM1. apply (foldM_Err_exists (shape3 N) _ KeyError _ _ 0).
      * done.
      * intros b M2 Hb2%elem_of_py_range HM2.
        destruct (log_potential_at_cases self x 0 b i0 Hb Hw) as [[v ->]| ->];
          [left|by right].
        rewrite bind_Ok. apply set3_shape; [done|lia|unfold ntags; lia|lia].
      * apply elem_of_py_range. unfold ntags. lia.
      * intros M2 _. by rewrite Hbad.
Qed.

End matrix.

(** X5.  On a sequence of vocabulary ids, [log_potential_matrix] returns a
    table with one slab of [ntags] by [ntags] cells per element of the
    sequence; slab 0 keeps the zeros it was created with, and cell
    [(i, a, b)] of every other slab holds what [log_potential_at] returns
    for the transition from tag [a] to tag [b] at position [i]. *)
Theorem log_potential_matrix_entries (self : LinearCRF) (x : list nat) :
  feature_space_built self → length (weights self) = nfeatures self →
  in_vocabulary self x → 2 ≤ length x →
  ∃ M, log_potential_matrix self x = Ok M
       ∧ shape3 (length x) M
       ∧ (∀ a b, a < ntags → b < ntags → get3 M 0 a b = Ok 0%R)
       ∧ (∀ i a b, 1 ≤ i < length x → a < ntags → b < ntags →
            ∃ v, log_potential_at self x a b i = Ok v
                 ∧ get3 M i a b = Ok v).
Proof.
  intros Hb Hw Hx Hlen.
  assert (nwords_of x + 2 = length x) as HN by (unfold nwords_of; lia).
  exists (tabulate3 (nwords_of x + 2) (potential_entry self x)). split_and!.
  - by apply log_potential_matrix_Ok.
  - rewrite <- HN. split; [apply length_tabulate3|].
    apply Forall_forall. intros Mi (i & -> & _)%list_elem_of_fmap.
    split; [apply length_tabulate2|].
    apply Forall_forall. intros r (a & -> & _)%list_elem_of_fmap.
    apply length_tabulate1.
  - intros a b Ha Hb'. rewrite get3_tabulate3 by (done || lia). done.
  - intros i a b Hi Ha Hb'. exists (potential_value self x a b i). split.
    + by apply log_potential_at_Ok.
    + rewrite get3_tabulate3 by (done || lia). by destruct i; [lia|].
Qed.

Lemma log_potential_matrix_entries_witness :
  ∃ M, log_potential_matrix example_model [0; 2; 1] = Ok M
       ∧ shape3 (length [0; 2; 1]) M
       ∧ (∀ a b, a < ntags → b < ntags → get3 M 0 a b = Ok 0%R)
       ∧ (∀ i a b, 1 ≤ i < length [0; 2; 1] → a < ntags → b < ntags →
            ∃ v, log_potential_at example_model [0; 2; 1] a b i = Ok v
                 ∧ get3 M i a b = Ok v).
Proof.
  apply (log_potential_matrix_entries example_model [0; 2; 1]).
  - apply example_model_built.
  - apply example_model_weights.
  - apply example_in_vocabulary. repeat constructor.
  - simpl. lia.
Defined.

(** X6.  A sequence that holds an id outside the vocabulary is rejected by
    every function that scores it: the table of potentials, the forward and
    backward passes, the partition function, the decoder, the conditional
    log-probability and the per-sentence gradient all raise [KeyError]. *)
Theorem unseen_token_rejected (self : LinearCRF) (x : list nat) :
  feature_space_built self → length (weights self) = nfeatures self →
  2 ≤ length x → (∃ w, w ∈ x ∧ nwords self ≤ w) →
  log_potential_matrix self x = Err KeyError
  ∧ log_alpha self x None = Err KeyError
  ∧ log_beta self x None = Err KeyError
  ∧ log_z self x None None = Err KeyError
  ∧ inference_viterbi self x None = Err KeyError
  ∧ (∀ y, log_potential self x y None None = Err KeyError)
  ∧ model_gradient_x self x None None None = Err KeyError.
Proof.
  intros Hb Hw Hlen Hx.
  pose proof (log_potential_matrix_unseen self x Hb Hw Hlen Hx) as HM.
  split_and!; [done|..].
  - unfold log_alpha. simpl default_to. by rewrite HM.
  - unfold log_beta. simpl default_to. by rewrite HM.
  - unfold log_z. simpl default_to. by rewrite HM.
  - unfold inference_viterbi. simpl default_to. by rewrite HM.
  - intros y. unfold log_potential. simpl default_to. by rewrite HM.
  - unfold model_gradient_x. simpl default_to. by rewrite HM.
Qed.

Lemma unseen_token_rejected_witness :
  log_potential_matrix example_model [0; 2; 5; 1] = Err KeyError
  ∧ log_alpha example_model [0; 2; 5; 1] None = Err KeyError
  ∧ log_beta example_model [0; 2; 5; 1] None = Err KeyError
  ∧ log_z example_model [0; 2; 5; 1] None None = Err KeyError
  ∧ inference_viterbi example_model [0; 2; 5; 1] None = Err KeyError
  ∧ (∀ y, log_potential example_model [0; 2; 5; 1] y None None
          = Err KeyError)
  ∧ model_gradient_x example_model [0; 2; 5; 1] None None None
    = Err KeyError.
Proof.
  apply (unseen_token_rejected example_model [0; 2; 5; 1]).
  - apply example_model_built.
  - apply example_model_weights.
  - simpl. lia.
  - exists 5. split; [by apply (bool_decide_unpack _)|].
    change (nwords example_model) with 3. lia.
Defined.

(** ** The sentence with no token *)

Section empty_sentence.

Lemma log_alpha_no_token (self : LinearCRF) (x : list nat)
    (m : nat → nat → nat → R) :
  length x = 2 →
  log_alpha self x (Some (tabulate3 (nwords_of x + 2) m)) = Err IndexError.
Proof.
  intros Hlen. assert (nwords_of x = 0) as Hn by (unfold nwords_of; lia).
  unfold log_alpha. simpl default_to. rewrite bind_Ok, Hn.
  rewrite (get_Ok _ _ _ (lookup_tabulate3 (0 + 2) m 1 ltac:(lia))), bind_Ok.
  rewrite (get_Ok _ _ _ (lookup_tabulate2 _ start_index
             ltac:(unfold start_index, ntags; lia))), bind_Ok.
  reflexivity.
Qed.

Lemma viterbi_tables_no_token (x : list nat) (m : nat → nat → nat → R) :
  length x = 2 →
  viterbi_tables x (tabulate3 (nwords_of x + 2) m) = Err IndexError.
Proof.
  intros Hlen. assert (nwords_of x = 0) as Hn by (unfold nwords_of; lia).
  unfold viterbi_tables. rewrite Hn.
  rewrite (get_Ok _ _ _ (lookup_tabulate3 (0 + 2) m 1 ltac:(lia))), bind_Ok.
  rewrite (get_Ok _ _ _ (lookup_tabulate2 _ start_index
             ltac:(unfold start_index, ntags; lia))), bind_Ok.
  reflexivity.
Qed.

Lemma log_beta_no_token (self : LinearCRF) (x : list nat)
    (m : nat → nat → nat → R) :
  length x = 2 →
  log_beta self x (Some (tabulate3 (nwords_of x + 2) m))
  = Ok [tabulate1 (λ t, m 1 t end_index)].
Proof.
  intros Hlen. assert (nwords_of x = 0) as Hn by (unfold nwords_of; lia).
  unfold log_beta. simpl default_to. rewrite bind_Ok, Hn.
  rewrite (get_Ok _ _ _ (lookup_tabulate3 (0 + 2) m (0 + 1) ltac:(lia))),
    bind_Ok.
  rewrite column_tabulate2, bind_Ok by (unfold end_index, ntags; lia).
  reflexivity.
Qed.

Lemma log_potential_no_token (self : LinearCRF) (x y : list nat) :
  feature_space_built self → length (weights self) = nfeatures self →
  in_vocabulary self x → length x = 2 →
  log_potential self x y None None = Err IndexError.
Proof.
  intros Hb Hw Hx Hlen. unfold log_potential. simpl default_to.
  rewrite (log_potential_matrix_Ok self x Hb Hw Hx), bind_Ok.
  by rewrite (log_alpha_no_token self x _ Hlen).
Qed.

End empty_sentence.

(** X7.  A sentence with no token between its two sentinels is outside the
    domain of the forward pass: [log_alpha] creates a table with the single
    row 0 and raises [IndexError] when it writes row 1, and with it the
    partition function, the conditional log-probability and the gradient;
    the decoder fails in the same way on its own table.  [log_beta] alone
    returns, with the one row it has. *)
Theorem no_token_sentence_rejected (self : LinearCRF) (x : list nat) :
  feature_space_built self → length (weights self) = nfeatures self →
  in_vocabulary self x → length x = 2 →
  log_alpha self x None = Err IndexError
  ∧ log_z self x None None = Err IndexError
  ∧ inference_viterbi self x None = Err IndexError
  ∧ (∀ y, log_potential self x y None None = Err IndexError)
  ∧ model_gradient_x self x None None None = Err IndexError
  ∧ (∃ row, log_beta self x None = Ok [row] ∧ length row = ntags).
Proof.
  intros Hb Hw Hx Hlen.
  pose proof (log_potential_matrix_Ok self x Hb Hw Hx) as HM.
  split_and!.
  - unfold log_alpha at 1. simpl default_to. rewrite HM, bind_Ok.
    apply (log_alpha_no_token self x _ Hlen).
  - unfold log_z. simpl default_to. rewrite HM, bind_Ok.
    by rewrite (log_alpha_no_token self x _ Hlen).
  - unfold inference_viterbi. simpl default_to. rewrite HM, bind_Ok.
    by rewrite (viterbi_tables_no_token x _ Hlen).
  - intros y. by apply log_potential_no_token.
  - unfold model_gradient_x. simpl default_to. rewrite HM, bind_Ok.
    by rewrite (log_alpha_no_token self x _ Hlen).
  - eexists. split.
    + unfold log_beta at 1. simpl default_to. rewrite HM, bind_Ok.
      apply (log_beta_no_token self x _ Hlen).
    + apply length_tabulate1.
Qed.

Lemma no_token_sentence_rejected_witness :
  log_alpha example_model [0; 1] None = Err IndexError
  ∧ log_z example_model [0; 1] None None = Err IndexError
  ∧ inference_viterbi example_model [0; 1] None = Err IndexError
  ∧ (∀ y, log_potential example_model [0; 1] y None None = Err IndexError)
  ∧ model_gradient_x example_model [0; 1] None None None = Err IndexError
  ∧ (∃ row, log_beta example_model [0; 1] None = Ok [row]
            ∧ length row = ntags).
Proof.
  apply (no_token_sentence_rejected example_model [0; 1]).
  - apply example_model_built.
  - apply example_model_weights.
  - apply example_in_vocabulary. repeat constructor.
  - reflexivity.
Defined.

(** ** The partition function as a sum over all tag paths *)

Section partition.
Local Open Scope R_scope.

Lemma np_sum_bind {A B : Type} (g : B → R) (f : A → list B) (l : list A) :
  np_sum (map g (l ≫= f)) = np_sum (map (λ a, np_sum (map g (f a))) l).
Proof.
  induction l as [|a l IH]; [done|].
  rewrite bind_cons, map_app, np_sum_app, IH. done.
Qed.

Lemma bind_singleton_map {A B : Type} (f : A → B) (l : list A) :
  l ≫= (λ a, [f a]) = map f l.
Proof. induction l as [|a l IH]; [done|]. rewrite bind_cons, IH. done. Qed.

Lemma np_sum_tag_paths_S (g : list nat → R) (d : nat) :
  np_sum (map g (tag_paths (S d)))
  = np_sum (map (λ u, np_sum (map (λ p, g (u :: p)) (tag_paths d)))
                (seq 0 ntags)).
Proof.
  cbn [tag_paths]. rewrite np_sum_bind. apply np_sum_ext. intros u _.
  by rewrite (bind_singleton_map (cons u)), map_map.
Qed.

(** [exp] of an entry of [beta] is the sum over the paths that continue from
    it. *)
Lemma beta_down_paths (m : nat → nat → nat → R) (n d t : nat) :
  (d ≤ n)%nat →
  exp (beta_down m n d t)
  = np_sum (map (λ p, exp (suffix_score m (n - d) t p)) (tag_paths d)).
Proof.
  revert t. induction d as [|d IH]; intros t Hd.
  - cbn [tag_paths map np_sum foldr suffix_score beta_down].
    rewrite Nat.sub_0_r. lra.
  - rewrite (beta_down_step m n (S d) t) by lia.
    rewrite exp_ln by apply np_sum_exp_tabulate1_pos.
    rewrite np_sum_exp_tabulate1, np_sum_tag_paths_S.
    replace (S d - 1)%nat with d by lia.
    apply np_sum_ext. intros u _. cbn [suffix_score].
    replace (n - S d + 1)%nat with (n - d)%nat by lia.
    rewrite (np_sum_ext _ (λ p, exp (m (n - d)%nat t u)
                                * exp (suffix_score m (n - d) u p)));
      [|intros p _; by rewrite exp_plus].
    rewrite np_sum_scale_l, <- IH by lia. rewrite exp_plus. lra.
Qed.

Lemma z_value_beta_down (m : nat → nat → nat → R) (n : nat) :
  (1 ≤ n)%nat → z_value m n = beta_down m n n start_index.
Proof.
  intros Hn. rewrite <- (forward_backward_sum m n 1) by lia.
  rewrite (beta_down_step m n n start_index) by lia. f_equal.
  rewrite !np_sum_exp_tabulate1. apply np_sum_ext. intros t _. f_equal.
  unfold beta_entry. cbn [alpha_entry].
  replace (n - (n - 1))%nat with 1%nat by lia. lra.
Qed.

Lemma suffix_score_sum (m : nat → nat → nat → R) (i t : nat) (p : list nat) :
  suffix_score m i t p
  = np_sum (map (λ j, m (i + j)%nat
                        (nth (j - 1) (t :: p ++ [end_index]) 0%nat)
                        (nth j (t :: p ++ [end_index]) 0%nat))
                (seq 1 (length p + 1))).
Proof.
  revert i t. induction p as [|u p IH]; intros i t.
  - cbn. lra.
  - cbn [suffix_score length]. replace (S (length p) + 1)%nat
      with (S (length p + 1)) by lia.
    cbn [seq map np_sum foldr]. f_equal.
    rewrite <- (fmap_S_seq 1 (length p + 1)).
    change (S <$> seq 1 (length p + 1)) with (map S (seq 1 (length p + 1))).
    rewrite map_map, IH. apply np_sum_ext. intros j Hj%elem_of_seq.
    destruct j as [|j]; [lia|].
    replace (i + 1 + S j)%nat with (i + S (S j))%nat by lia.
    replace (S j - 1)%nat with j by lia. done.
Qed.

Lemma suffix_score_bracket (m : nat → nat → nat → R) (p : list nat) :
  suffix_score m 0 start_index p = score m (bracket p) (length p + 1).
Proof. rewrite suffix_score_sum. done. Qed.

Lemma nth_bracket_end (p : list nat) :
  nth (S (length p)) (bracket p) 0%nat = end_index.
Proof.
  unfold bracket. cbn [nth]. rewrite app_nth2 by lia.
  by rewrite Nat.sub_diag.
Qed.

(** The brute-force terms: the potential of the whole path. *)
Lemma full_path_score (self : LinearCRF) (x p : list nat) :
  length p = nwords_of x →
  score (potential_entry self x) (bracket p) (nwords_of x + 1)
  = path_value self x (bracket p)
    + potential_value self x (nth (nwords_of x) (bracket p) 0%nat) end_index
        (nwords_of x + 1).
Proof.
  intros Hlen. rewrite path_value_score, Hlen.
  replace (nwords_of x + 1)%nat with (S (nwords_of x)) by lia.
  rewrite score_S. f_equal. rewrite <- Hlen at 3. by rewrite nth_bracket_end.
Qed.

Lemma partition_as_paths (m : nat → nat → nat → R) (n : nat) :
  (1 ≤ n)%nat →
  exp (z_value m n)
  = np_sum (map (λ p, exp (score m (bracket p) (n + 1))) (tag_paths n)).
Proof.
  intros Hn. rewrite z_value_beta_down by done.
  rewrite beta_down_paths by done. rewrite Nat.sub_diag.
  apply np_sum_ext. intros p [Hlen _]%elem_of_tag_paths.
  by rewrite suffix_score_bracket, Hlen.
Qed.

End partition.

(** X8.  [log_z] is the logarithm of the sum, over every tag path bracketed
    by the sentinel tag, of [exp] of the path's potential with the
    transition into the end sentinel counted.  So the values
    [exp (log_potential x y)] add up to 1 over all paths once each is
    multiplied by the [exp] of that last transition. *)
Theorem log_z_sums_all_paths (self : LinearCRF) (x : list nat) :
  feature_space_built self → length (weights self) = nfeatures self →
  in_vocabulary self x → 1 ≤ nwords_of x →
  ∃ z, log_z self x None None = Ok z
       ∧ brute_force_partition self x = Ok (exp z)
       ∧ brute_force_closed_total self x = Ok 1%R.
Proof.
  intros Hb Hw Hx Hn.
  exists (z_value (potential_entry self x) (nwords_of x)).
  assert (∀ p, p ∈ tag_paths (nwords_of x) →
    log_potential_at self x (nth (nwords_of x) (bracket p) 0) end_index
      (nwords_of x + 1)
    = Ok (potential_value self x (nth (nwords_of x) (bracket p) 0) end_index
            (nwords_of x + 1)))
    as Hend.
  { intros p [Hlen Hp]%elem_of_tag_paths.
    apply log_potential_at_Ok; [done..| |unfold end_index, ntags; lia].
    pose proof (Forall_bracket p Hp) as Hbr.
    destruct (lookup_lt_is_Some_2 (bracket p) (nwords_of x)) as [t Ht].
    { unfold bracket. simpl. rewrite length_app. simpl. lia. }
    rewrite (nth_lookup_Some _ _ _ _ Ht).
    by apply (Forall_lookup_1 _ _ _ _ Hbr Ht). }
  split_and!.
  - unfold log_z. simpl default_to.
    rewrite (log_potential_matrix_Ok self x Hb Hw Hx), bind_Ok.
    rewrite (log_alpha_tabulate self x _ Hn), bind_Ok.
    apply (log_z_tabulate self x _ Hn).
  - unfold brute_force_partition. cbv zeta.
    rewrite (foldM_sum _ (λ p, exp (score (potential_entry self x)
                                      (bracket p) (nwords_of x + 1)))).
    + f_equal. rewrite (partition_as_paths _ _ Hn). lra.
    + intros p acc Hp. pose proof Hp as [Hlen Hf]%elem_of_tag_paths.
      rewrite (path_potential_Ok self x (bracket p) Hb Hw Hx)
        by (by apply Forall_bracket).
      rewrite bind_Ok, (Hend p Hp), bind_Ok.
      by rewrite (full_path_score self x p Hlen).
  - unfold brute_force_closed_total. cbv zeta.
    rewrite (foldM_sum _
      (λ p, exp (- z_value (potential_entry self x) (nwords_of x))
            * exp (score (potential_entry self x) (bracket p)
                     (nwords_of x + 1)))%R).
    + f_equal. rewrite np_sum_scale_l, <- (partition_as_paths _ _ Hn).
      rewrite <- exp_plus, Rplus_opp_l, exp_0. lra.
    + intros p acc Hp. pose proof Hp as [Hlen Hf]%elem_of_tag_paths.
      rewrite (log_potential_Ok self x (bracket p) Hb Hw Hx Hn)
        by (by apply Forall_bracket).
      rewrite bind_Ok, (Hend p Hp), bind_Ok.
      rewrite (full_path_score self x p Hlen), <- exp_plus.
      do 3 f_equal. lra.
Qed.

Lemma log_z_sums_all_paths_witness :
  ∃ z, log_z example_model [0; 2; 2; 1] None None = Ok z
       ∧ brute_force_partition example_model [0; 2; 2; 1] = Ok (exp z)
       ∧ brute_force_closed_total example_model [0; 2; 2; 1] = Ok 1%R.
Proof.
  apply (log_z_sums_all_paths example_model [0; 2; 2; 1]).
  - apply example_model_built.
  - apply example_model_weights.
  - apply example_in_vocabulary. repeat constructor.
  - vm_compute. lia.
Defined.

(** ** The feature counts of the corpus *)

Section prior_counts.
Local Open Scope R_scope.

(** A loop that adds to every cell of a vector of length [N]. *)
Lemma foldM_vec_sum {X : Type} (N : nat)
    (body : X → list R → result (list R)) (h : X → nat → R)
    (l : list X) (c : list R) :
  length c = N →
  (∀ v c, v ∈ l → length c = N →
     ∃ c', body v c = Ok c' ∧ length c' = N
           ∧ ∀ k, (k < N)%nat → nth k c' 0 = nth k c 0 + h v k) →
  ∃ c', foldM body l c = Ok c' ∧ length c' = N
        ∧ ∀ k, (k < N)%nat →
            nth k c' 0 = nth k c 0 + np_sum (map (λ v, h v k) l).
Proof.
  revert c. induction l as [|v l IH]; intros c Hc Hbody.
  { exists c. split_and!; [done..|]. intros k _. simpl. lra. }
  destruct (Hbody v c) as (c1 & E1 & Hc1 & Hv); [by left|done|].
  destruct (IH c1 Hc1) as (c' & E' & Hc' & Hl).
  { intros v' c2 Hv'. apply Hbody. by right. }
  exists c'. simpl. rewrite E1, bind_Ok. split_and!; [done..|].
  intros k Hk. rewrite (Hl k Hk), (Hv k Hk). lra.
Qed.

Lemma nth_imap (f : nat → R → R) (c : list R) (k : nat) :
  (k < length c)%nat → nth k (imap f c) 0 = f k (nth k c 0).
Proof.
  intros Hk. destruct (lookup_lt_is_Some_2 c k Hk) as [v Hv].
  apply nth_lookup_Some.
  by rewrite list_lookup_imap, Hv, (nth_lookup_Some _ _ _ _ Hv).
Qed.

(** One position of a labelled sentence: the cells of the features that
    fire there go up by one. *)
Lemma train_prior_step (self : LinearCRF) (x y : list nat) (i : nat)
    (c : list R) :
  feature_space_built self → parsed_pair self (x, y) →
  (1 ≤ i ≤ nwords_of x)%nat → length c = nfeatures self →
  ∃ c', (yi_1 ← get y (i - 1);
         yi ← get y i;
         activate_feature ← append_active self x yi_1 yi i [];
         fancy_add c activate_feature 1) = Ok c'
        ∧ length c' = nfeatures self
        ∧ ∀ k, (k < nfeatures self)%nat →
            nth k c' 0 = nth k c 0 + fires self k x y i.
Proof.
  intros Hb (Hx & Hlen & Hy & Ht) Hi Hc. simpl in *. unfold nwords_of in Hi.
  destruct (lookup_lt_is_Some_2 y (i - 1)) as [a Ha]; [lia|].
  destruct (lookup_lt_is_Some_2 y i) as [b Hb']; [lia|].
  rewrite (get_Ok _ _ _ Ha), bind_Ok, (get_Ok _ _ _ Hb'), bind_Ok.
  pose proof (Forall_lookup_1 _ _ _ _ Ht Ha) as Hat.
  pose proof (Forall_lookup_1 _ _ _ _ Ht Hb') as Hbt.
  rewrite append_active_Ok, bind_Ok by done.
  rewrite fancy_add_Ok; cycle 1.
  { intros k Hk. rewrite Hc.
    by apply (active_ids_lt self x a b i k Hb Hx Hat Hbt). }
  eexists. split_and!; [done|by rewrite length_imap|].
  intros k Hk. rewrite nth_imap by lia. unfold fires.
  rewrite (nth_lookup_Some _ _ 0%nat _ Ha), (nth_lookup_Some _ _ 0%nat _ Hb').
  simpl app. case_bool_decide; lra.
Qed.

(** The id [k] is looked up at a position exactly when the feature it
    names is active there. *)
Lemma fid_active_iff (self : LinearCRF) (k : nat) (f : feature)
    (x : list nat) (yi_1 yi i : nat) :
  feature_space_built self → in_vocabulary self x →
  (yi_1 < ntags)%nat → (yi < ntags)%nat →
  index_feature self !! k = Some f →
  k ∈ map (fid self) (active_features x yi_1 yi i)
  ↔ f ∈ active_features x yi_1 yi i.
Proof.
  intros Hb Hx H1 H2 Hk. apply (built_index_feature _ Hb) in Hk. split.
  - intros (f' & -> & Hf')%list_elem_of_fmap.
    pose proof (active_features_all self x yi_1 yi i f' Hx H1 H2 Hf') as Hall.
    destruct (built_fid self f' Hb Hall) as (_ & Hl & _).
    rewrite Hl in Hk. by injection Hk as <-.
  - intros Hf. apply list_elem_of_fmap. exists f. split; [|done].
    pose proof (active_features_all self x yi_1 yi i f Hx H1 H2 Hf) as Hall.
    destruct (built_fid self f Hb Hall) as (_ & Hl & _).
    by apply (NoDup_lookup _ _ _ _ (NoDup_all_features (nwords self)) Hk Hl).
Qed.

Lemma feature_at_fires (self : LinearCRF) (k : nat) (x y : list nat)
    (i : nat) :
  feature_space_built self → parsed_pair self (x, y) →
  (k < nfeatures self)%nat → (1 ≤ i ≤ nwords_of x)%nat →
  (yi_1 ← get y (i - 1);
   yi ← get y i;
   f ← feature_at self k x yi_1 yi i;
   Ok (INR f)) = Ok (fires self k x y i).
Proof.
  intros Hb (Hx & Hlen & Hy & Ht) Hk Hi. simpl in *. unfold nwords_of in Hi.
  destruct (lookup_lt_is_Some_2 y (i - 1)) as [a Ha]; [lia|].
  destruct (lookup_lt_is_Some_2 y i) as [b Hb']; [lia|].
  rewrite (get_Ok _ _ _ Ha), bind_Ok, (get_Ok _ _ _ Hb'), bind_Ok.
  pose proof (Forall_lookup_1 _ _ _ _ Ht Ha) as Hat.
  pose proof (Forall_lookup_1 _ _ _ _ Ht Hb') as Hbt.
  destruct (lookup_lt_is_Some_2 (all_features (nwords self)) k) as [f Hf].
  { by rewrite <- (built_nfeatures _ Hb). }
  pose proof (proj2 (built_index_feature _ Hb f k) Hf) as Hkf.
  rewrite (feature_at_indicator self k x a b i f Hkf); [|by eapply list_elem_of_lookup_2|lia].
  rewrite bind_Ok. f_equal. unfold fires.
  rewrite (nth_lookup_Some _ _ 0%nat _ Ha), (nth_lookup_Some _ _ 0%nat _ Hb').
  pose proof (fid_active_iff self k f x a b i Hb Hx Hat Hbt Hkf) as Hiff.
  repeat case_bool_decide; simpl; try lra; tauto.
Qed.

Lemma well_formed_parsed (self : LinearCRF) (xy : list nat * list nat) :
  well_formed_pair self xy → parsed_pair self xy.
Proof.
  intros (Hx & Hn & Hlen & Ht). split_and!; [done| |done..].
  unfold nwords_of in Hn. lia.
Qed.

End prior_counts.

(** The loop of lines 389-402 adds to each cell the number of positions at
    which its feature is looked up. *)
Lemma train_prior_sum (self : LinearCRF) :
  feature_space_built self →
  length (prior_feature_count self) = nfeatures self →
  Forall (parsed_pair self) (train_data self) →
  ∃ c, train_prior self = Ok (set_prior self c)
       ∧ length c = nfeatures self
       ∧ ∀ k, k < nfeatures self →
           nth k c 0%R
           = (nth k (prior_feature_count self) 0
              + np_sum (map (λ xy, np_sum (map (λ i, fires self k xy.1 xy.2 i)
                                  (py_range 1 (nwords_of xy.1 + 1))))
                            (train_data self)))%R.
Proof.
  intros Hb Hp Hd. unfold train_prior.
  match goal with
  | |- ∃ c, foldM ?body ?l ?s0 ≫= _ = _ ∧ _ =>
      destruct (foldM_vec_sum (nfeatures self) body
        (λ xy k, np_sum (map (λ i, fires self k xy.1 xy.2 i)
                             (py_range 1 (nwords_of xy.1 + 1))))
        l s0) as (c & -> & Hc & Hsum)
  end; [done| |].
  { intros [x y] c Hxy Hc.
    pose proof (proj1 (Forall_forall _ _) Hd _ Hxy) as Hpair.
    apply (foldM_vec_sum (nfeatures self) _ (λ i k, fires self k x y i));
      [done|].
    intros i c' Hi%elem_of_py_range Hc'.
    simpl in Hi. apply train_prior_step; [done..|lia|done]. }
  exists c. rewrite bind_Ok. split_and!; [done..|]. exact Hsum.
Qed.

(** X9.  The loop of [train] that fills [prior_feature_count] returns on
    every corpus the reader can produce, and adds to the cell of each
    feature id [k] the number of positions of the training data at which
    [feature_at] returns 1 for [k] and the labelled transition: the list of
    active features starts empty at every position, so no position is
    counted twice. *)
Theorem train_prior_counts_indicators (self : LinearCRF) :
  feature_space_built self →
  length (prior_feature_count self) = nfeatures self →
  Forall (parsed_pair self) (train_data self) →
  ∃ c, train_prior self = Ok (set_prior self c)
       ∧ length c = nfeatures self
       ∧ ∀ k, k < nfeatures self →
           ∃ n, indicator_count self k = Ok n
                ∧ nth k c 0%R = (nth k (prior_feature_count self) 0 + n)%R.
Proof.
  intros Hb Hp Hd.
  destruct (train_prior_sum self Hb Hp Hd) as (c & Hrun & Hc & Hsum).
  exists c. split_and!; [done..|].
  intros k Hk. eexists. split; [|apply (Hsum k Hk)].
  unfold indicator_count.
  rewrite (foldM_sum _
    (λ xy, np_sum (map (λ i, fires self k xy.1 xy.2 i)
                       (py_range 1 (nwords_of xy.1 + 1))))).
  - f_equal. lra.
  - intros [x y] acc Hxy.
    pose proof (proj1 (Forall_forall _ _) Hd _ Hxy) as Hpair.
    apply foldM_sum. intros i acc' Hi%elem_of_py_range. simpl in Hi.
    assert (1 ≤ i ≤ nwords_of x) as Hi' by lia.
    pose proof (feature_at_fires self k x y i Hb Hpair Hk Hi') as Hf.
    destruct (get y (i - 1)) as [a|]; [|done]. rewrite bind_Ok in Hf |- *.
    destruct (get y i) as [b|]; [|done]. rewrite bind_Ok in Hf |- *.
    destruct (feature_at self k x a b i) as [v|]; [|done].
    rewrite bind_Ok in Hf |- *. by injection Hf as ->.
Qed.

Lemma train_prior_counts_indicators_witness :
  ∃ c, train_prior example_model = Ok (set_prior example_model c)
       ∧ length c = nfeatures example_model
       ∧ ∀ k, k < nfeatures example_model →
           ∃ n, indicator_count example_model k = Ok n
                ∧ nth k c 0%R
                  = (nth k (prior_feature_count example_model) 0 + n)%R.
Proof.
  apply (train_prior_counts_indicators example_model).
  - apply example_model_built.
  - apply (ready_prior _ example_model_ready).
  - eapply Forall_impl; [apply (ready_data _ example_model_ready)|].
    intros xy Hxy. by apply well_formed_parsed.
Defined.

(** ** The per-sentence gradient: sign and support *)

Section gradient_support.
Local Open Scope R_scope.

Lemma nth_zeros1 (n k : nat) : nth k (zeros1 n) 0 = 0.
Proof.
  unfold zeros1. destruct (decide (k < n)%nat) as [Hk|Hk].
  - apply nth_lookup_Some, lookup_replicate_2. done.
  - apply nth_overflow. rewrite length_replicate. lia.
Qed.

Lemma gradient_accumulate_support (self : LinearCRF) (x : list nat)
    (q : nat → nat → nat → R) (g : list R) :
  feature_space_built self → in_vocabulary self x →
  length g = nfeatures self →
  (∀ i a b, 0 <= q i a b) → (∀ k, nth k g 0 = 0) →
  ∃ g', gradient_accumulate self x (tabulate3 (nwords_of x + 1) q) g = Ok g'
        ∧ length g' = nfeatures self
        ∧ ∀ k, (k < nfeatures self)%nat →
            0 <= nth k g' 0
            ∧ (nth k g' 0 ≠ 0 →
               ∃ i a b, (1 ≤ i ≤ nwords_of x)%nat
                        ∧ (a < ntags)%nat ∧ (b < ntags)%nat
                        ∧ k ∈ map (fid self) (active_features x a b i)).
Proof.
  intros Hb Hx Hg Hq Hg0. unfold gradient_accumulate. cbv zeta.
  pose (E := λ k : nat, ∃ i a b, (1 ≤ i ≤ nwords_of x)%nat
                          ∧ (a < ntags)%nat ∧ (b < ntags)%nat
                          ∧ k ∈ map (fid self) (active_features x a b i)).
  pose (I := λ ag : list nat * list R,
          (∀ k, k ∈ ag.1 → (k < nfeatures self)%nat ∧ E k)
          ∧ length ag.2 = nfeatures self
          ∧ ∀ k, (k < nfeatures self)%nat →
              0 <= nth k ag.2 0 ∧ (nth k ag.2 0 ≠ 0 → E k)).
  match goal with
  | |- ∃ g', foldM ?body ?l ?s0 ≫= _ = _ ∧ _ =>
      destruct (foldM_preserve I body l s0) as (ag & -> & HI)
  end.
  - split_and!; [|done|].
    + intros k Hk. by apply elem_of_nil in Hk.
    + intros k Hk. simpl. rewrite Hg0. split; [lra|done].
  - intros i ag Hi%elem_of_py_range HI. apply foldM_preserve; [done|].
    intros yi_1 ag1 H1%elem_of_py_range HI1. apply foldM_preserve; [done|].
    intros yi [af g2] H2%elem_of_py_range (Haf & Hg2 & Hval).
    simpl in Haf, Hg2, Hval.
    rewrite append_active_Ok, bind_Ok by (done || lia).
    rewrite get3_tabulate3, bind_Ok by lia.
    assert (∀ k, k ∈ af ++ map (fid self) (active_features x yi_1 yi i) →
                 (k < nfeatures self)%nat ∧ E k) as Hids.
    { intros k [Hk|Hk]%elem_of_app; [by apply Haf|]. split.
      - apply (active_ids_lt self x yi_1 yi i k Hb Hx); [lia|lia|done].
      - exists i, yi_1, yi. split_and!; [lia..|done]. }
    rewrite fancy_add_Ok, bind_Ok
      by (intros k Hk; rewrite Hg2; by apply Hids).
    eexists. split; [done|]. split_and!; [done|simpl; by rewrite length_imap|].
    intros k Hk. simpl. rewrite nth_imap by lia.
    destruct (Hval k Hk) as [Hnn Hsupp]. case_bool_decide as Hin.
    + split; [pose proof (Hq i yi_1 yi); lra|]. intros _. by apply Hids.
    + done.
  - rewrite bind_Ok. exists ag.2. destruct HI as (_ & Hlen & Hval).
    split_and!; [done..|]. exact Hval.
Qed.

End gradient_support.

(** X10.  On an in-vocabulary sentence [model_gradient_x] returns a vector
    of [nfeatures] cells, none of them negative, and a cell is different from
    0 only for a feature that fires somewhere in the sentence: the cells
    of all other features keep the 0 of [np.zeros]. *)
Theorem model_gradient_x_support (self : LinearCRF) (x : list nat) :
  feature_space_built self → length (weights self) = nfeatures self →
  in_vocabulary self x → 1 ≤ nwords_of x →
  ∃ g, model_gradient_x self x None None None = Ok g
       ∧ length g = nfeatures self
       ∧ ∀ k, k < nfeatures self →
           (0 <= nth k g 0)%R
           ∧ (nth k g 0%R ≠ 0%R → fires_somewhere self k x).
Proof.
  intros Hb Hw Hx Hn.
  destruct (model_gradient_x_pipeline self x Hb Hw Hx Hn)
    as (_ & _ & _ & _ & _ & ->).
  destruct (gradient_accumulate_support self x
    (λ i yi_1 yi, exp (P_entry (potential_entry self x)
       (alpha_entry (potential_entry self x))
       (beta_entry (potential_entry self x) (nwords_of x))
       (z_value (potential_entry self x) (nwords_of x)) i yi_1 yi))
    (zeros1 (length (weights self))) Hb Hx)
    as (g & Hg & Hlen & Hval).
  - unfold zeros1. by rewrite length_replicate.
  - intros i a b. left. apply exp_pos.
  - intros k. apply nth_zeros1.
  - exists g. split_and!; [done..|]. intros k Hk.
    destruct (Hval k Hk) as [Hnn Hsupp]. split; [done|].
    intros Hne. destruct (Hsupp Hne) as (i & a & b & Hi & Ha & Hb' & Hin).
    exists i, a, b. split_and!; [lia|lia|done|done|].
    destruct (lookup_lt_is_Some_2 (all_features (nwords self)) k) as [f Hf].
    { by rewrite <- (built_nfeatures _ Hb). }
    pose proof (proj2 (built_index_feature _ Hb f k) Hf) as Hkf.
    rewrite (feature_at_indicator self k x a b i f Hkf);
      [|by eapply list_elem_of_lookup_2|unfold nwords_of in Hi; lia].
    apply (fid_active_iff self k f x a b i Hb Hx Ha Hb' Hkf) in Hin.
    by rewrite bool_decide_eq_true_2.
Qed.

Lemma model_gradient_x_support_witness :
  ∃ g, model_gradient_x example_model [0; 2; 1] None None None = Ok g
       ∧ length g = nfeatures example_model
       ∧ ∀ k, k < nfeatures example_model →
           (0 <= nth k g 0)%R
           ∧ (nth k g 0%R ≠ 0%R → fires_somewhere example_model k [0; 2; 1]).
Proof.
  apply (model_gradient_x_support example_model [0; 2; 1]).
  - apply example_model_built.
  - apply example_model_weights.
  - apply example_in_vocabulary. repeat constructor.
  - vm_compute. lia.
Defined.

(** ** The two callables handed to the optimizer *)

Section callables.
Local Open Scope R_scope.

Lemma foldM_sum_results {X : Type} (f : X → result R)
    (body : X → R → result R) (l : list X) (a : R) :
  (∀ v acc, v ∈ l → body v acc = (r ← f v; Ok (acc + r))) →
  (∀ v, v ∈ l → ∃ r, f v = Ok r) →
  ∃ rs, Forall2 (λ v r, f v = Ok r) l rs
        ∧ foldM body l a = Ok (a + np_sum rs).
Proof.
  revert a. induction l as [|v l IH]; intros a Hbody Hf.
  { exists []. split; [constructor|]. simpl. f_equal. lra. }
  destruct (Hf v) as (r & Hr); [by left|].
  destruct (IH (a + r)) as (rs & Hrs & Hfold).
  { intros v' acc Hv'. apply Hbody. by right. }
  { intros v' Hv'. apply Hf. by right. }
  exists (r :: rs). split; [by constructor|]. simpl.
  rewrite Hbody by left. rewrite Hr, !bind_Ok, Hfold. f_equal. lra.
Qed.

Lemma nth_zip_with_minus (a b : list R) (k : nat) :
  length a = length b →
  nth k (zip_with Rminus a b) 0 = nth k a 0 - nth k b 0.
Proof.
  revert b k. induction a as [|u a IH]; intros [|v b] k Hlen;
    try discriminate.
  - destruct k; simpl; lra.
  - destruct k as [|k]; [done|]. simpl. apply IH. simpl in Hlen. lia.
Qed.

Lemma foldM_vsub_results {X : Type} (N : nat) (f : X → result (list R))
    (body : X → list R → result (list R)) (l : list X) (g0 : list R) :
  (∀ v g, v ∈ l → body v g = (gx ← f v; vsub g gx)) →
  (∀ v, v ∈ l → ∃ gx, f v = Ok gx ∧ length gx = N) →
  length g0 = N →
  ∃ gxs g, Forall2 (λ v gx, f v = Ok gx) l gxs
           ∧ foldM body l g0 = Ok g ∧ length g = N
           ∧ ∀ k, nth k g 0
                  = nth k g0 0 - np_sum (map (λ gx, nth k gx 0) gxs).
Proof.
  revert g0. induction l as [|v l IH]; intros g0 Hbody Hf Hg0.
  { exists [], g0. split_and!; [constructor|done..|]. intros k. simpl. lra. }
  destruct (Hf v) as (gx & Hgx & Hlen); [by left|].
  destruct (IH (zip_with Rminus g0 gx)) as (gxs & g & Hall & Hfold & Hg & Hk).
  { intros v' acc Hv'. apply Hbody. by right. }
  { intros v' Hv'. apply Hf. by right. }
  { rewrite length_zip_with. lia. }
  exists (gx :: gxs), g. split_and!; [by constructor| |done|].
  - simpl. rewrite Hbody by left.
    rewrite Hgx, bind_Ok, vsub_Ok by congruence. by rewrite bind_Ok.
  - intros k. rewrite Hk, nth_zip_with_minus by congruence. simpl. lra.
Qed.

Lemma nth_map_lt (f : R → R) (l : list R) (k : nat) :
  (k < length l)%nat → nth k (map f l) 0 = f (nth k l 0).
Proof.
  intros Hk. destruct (lookup_lt_is_Some_2 l k Hk) as [v Hv].
  apply nth_lookup_Some.
  by rewrite list_lookup_fmap, Hv, (nth_lookup_Some _ _ _ _ Hv).
Qed.

End callables.

(** X11.  On a model ready for training and a vector [w] of [nfeatures]
    cells, both callables return and leave [w] in [self.weights], changing
    nothing else.  [ncallable] returns the regulariser
    [theta / 2 * (w . w)] minus the sum of [log_potential] over the
    training pairs; [njac_callable] returns, for each feature [k],
    [theta * w[k]] plus the sum of the per-sentence gradients minus the
    corpus count of the feature. *)
Theorem callables_closed_form (self : LinearCRF) (w : list R) :
  model_ready self → length w = nfeatures self →
  ∃ lps gxs g,
    Forall2 (λ xy lp, log_potential (set_weights self w) xy.1 xy.2 None None
                      = Ok lp) (train_data self) lps
    ∧ Forall2 (λ xy gx, model_gradient_x (set_weights self w) xy.1
                          None None None = Ok gx) (train_data self) gxs
    ∧ ncallable self w
      = Ok (set_weights self w,
            (- (np_sum lps - dot w w * theta self / 2))%R)
    ∧ njac_callable self w = Ok (set_weights self w, g)
    ∧ length g = nfeatures self
    ∧ ∀ k, k < nfeatures self →
        nth k g 0%R
        = (nth k w 0 * theta self + np_sum (map (λ gx, nth k gx 0) gxs)
           - nth k (prior_feature_count self) 0)%R.
Proof.
  intros Hr Hw.
  pose proof (set_weights_ready self w Hr Hw) as [Hb Hw' Hp Hd].
  destruct (foldM_sum_results
    (λ xy, log_potential (set_weights self w) xy.1 xy.2 None None)
    (λ '(x, y) log_ML,
       v ← log_potential (set_weights self w) x y None None;
       Ok (log_ML + v)%R)
    (train_data self) 0%R) as (lps & Hlps & Hsum).
  { by intros [x y] acc _. }
  { intros [x y] Hxy.
    eapply Forall_forall in Hd as (Hx & Hn & _ & Hy); [|exact Hxy].
    simpl in *. rewrite (log_potential_Ok _ x y Hb Hw' Hx Hn Hy).
    by eexists. }
  destruct (foldM_vsub_results (nfeatures self)
    (λ xy, model_gradient_x (set_weights self w) xy.1 None None None)
    (λ '(x, _) gradient,
       gx ← model_gradient_x (set_weights self w) x None None None;
       vsub gradient gx)
    (train_data self)
    (zip_with Rminus (prior_feature_count self)
       (map (λ w0, w0 * theta self)%R w)))
    as (gxs & g & Hgxs & Hfold & Hg & Hk).
  { by intros [x y] acc _. }
  { intros [x y] Hxy.
    eapply Forall_forall in Hd as (Hx & Hn & _ & Hy); [|exact Hxy].
    simpl in *. apply (model_gradient_x_Ok _ x Hb Hw' Hx Hn). }
  { simpl in Hp. rewrite length_zip_with, length_map, Hp, Hw. lia. }
  exists lps, gxs, (map Ropp g). split_and!; [done|done|..].
  - unfold ncallable, log_maximum_liklihood. cbv zeta.
    change (train_data (set_weights self w)) with (train_data self).
    rewrite Hsum, !bind_Ok. do 3 f_equal.
    change (weights (set_weights self w)) with w.
    change (theta (set_weights self w)) with (theta self). lra.
  - unfold njac_callable, model_gradient. cbv zeta.
    change (train_data (set_weights self w)) with (train_data self).
    change (weights (set_weights self w)) with w.
    change (theta (set_weights self w)) with (theta self).
    change (prior_feature_count (set_weights self w))
      with (prior_feature_count self).
    rewrite vsub_Ok, bind_Ok by (simpl in Hp; rewrite length_map; lia).
    by rewrite Hfold, bind_Ok.
  - by rewrite length_map.
  - intros k Hlt. rewrite nth_map_lt by lia. rewrite Hk.
    rewrite nth_zip_with_minus by (simpl in Hp; rewrite length_map; lia).
    rewrite nth_map_lt by lia. lra.
Qed.

Lemma callables_closed_form_witness :
  ∃ lps gxs g,
    Forall2 (λ xy lp,
               log_potential (set_weights example_model
                                (weights example_model))
                 xy.1 xy.2 None None = Ok lp)
            (train_data example_model) lps
    ∧ Forall2 (λ xy gx,
                 model_gradient_x (set_weights example_model
                                     (weights example_model))
                   xy.1 None None None = Ok gx)
              (train_data example_model) gxs
    ∧ ncallable example_model (weights example_model)
      = Ok (set_weights example_model (weights example_model),
            (- (np_sum lps
                - dot (weights example_model) (weights example_model)
                  * theta example_model / 2))%R)
    ∧ njac_callable example_model (weights example_model)
      = Ok (set_weights example_model (weights example_model), g)
    ∧ length g = nfeatures example_model
    ∧ ∀ k, k < nfeatures example_model →
        nth k g 0%R
        = (nth k (weights example_model) 0 * theta example_model
           + np_sum (map (λ gx, nth k gx 0) gxs)
           - nth k (prior_feature_count example_model) 0)%R.
Proof.
  apply (callables_closed_form example_model (weights example_model)).
  - apply example_model_ready.
  - apply example_model_weights.
Defined.

(** * The corpus reader *)

Section reader_facts.
Variable isspace : N → bool.

Lemma foldM_inv_cases {X St : Type} (I : St → Prop) (E : exn → Prop)
    (body : X → St → result St) (l : list X) (s : St) :
  I s →
  (∀ v s, v ∈ l → I s →
     match body v s with Ok s' => I s' | Err e => E e end) →
  match foldM body l s with Ok s' => I s' | Err e => E e end.
Proof.
  revert s. induction l as [|v l IH]; intros s HI Hbody; [done|].
  simpl. pose proof (Hbody v s ltac:(left) HI) as Hv.
  destruct (body v s) as [s1|e]; [|done]. rewrite bind_Ok.
  apply IH; [done|]. intros v' s' Hv'. apply Hbody. by right.
Qed.

Lemma start_end_ne : start_char ≠ end_char.
Proof. by vm_compute. Qed.

Lemma reader_init_inv : reader_inv reader.init.
Proof.
  pose proof start_end_ne as Hne.
  split; unfold reader.init;
    cbn [reader.word_index reader.index_word reader.nwords reader.sentences
         reader.sentence reader.labels reader.label].
  - intros c k. rewrite !lookup_insert_Some, !lookup_empty. split.
    + intros [[<- <-]|[? [[<- <-]|[? ?]]]]; [by left| |done].
      right. split; [done|]. by left.
    + intros [[<- <-]|[? [[<- <-]|[? ?]]]]; [by left| |done].
      right. split; [done|]. by left.
  - intros k. unfold is_Some. setoid_rewrite lookup_insert_Some.
    setoid_rewrite lookup_insert_Some. setoid_rewrite lookup_empty. split.
    + intros (c & [[<- _]|[_ [[<- _]|[_ [=]]]]]); lia.
    + intros Hk. destruct k as [|[|k]]; [| |lia].
      * exists start_char. right. split; [done|]. by left.
      * exists end_char. by left.
  - rewrite lookup_insert_ne by done. by rewrite lookup_insert_eq.
  - by rewrite lookup_insert_eq.
  - constructor.
  - apply Forall_cons_2; [|done]. rewrite lookup_insert_ne by done.
    by rewrite lookup_insert_eq.
  - constructor.
  - split_and!; [done|by exists []|by exists []].
Qed.

Lemma read_line_inv (line : list N) (st : reader.state) :
  reader_inv st →
  match read_line isspace line st with
  | Ok st' => reader_inv st'
  | Err e => e = ValueError
  end.
Proof.
  intros [Hinv Hdense Hs He Hk Hko Hsh (Hlen & (chars & Hc) & (tags & Ht))].
  unfold read_line. case_bool_decide as Hshort.
  - split; cbn [reader.word_index reader.index_word reader.nwords
                reader.sentences reader.sentence reader.labels reader.label];
      [done..| | | |].
    + apply Forall_app. split; [done|]. apply Forall_cons_2; [|done].
      apply Forall_app. split; [done|]. apply Forall_cons_2; [|done].
      by rewrite He.
    + apply Forall_cons_2; [|done]. by rewrite Hs.
    + apply Forall2_app; [done|]. apply Forall2_cons_2; [|done].
      split_and!.
      * rewrite !length_app. simpl. lia.
      * exists chars. by rewrite Hc.
      * exists tags. by rewrite Ht.
    + split_and!; [done|by exists []|by exists []].
  - destruct (py_split isspace line) as [|char [|tag [|? ?]]]; [done..| |done].
    case_bool_decide as Hin.
    + split; cbn [reader.word_index reader.index_word reader.nwords
                  reader.sentences reader.sentence reader.labels
                  reader.label]; [done..| |done|].
      * apply Forall_app. split; [done|]. by apply Forall_cons_2.
      * split_and!.
        -- rewrite !length_app. simpl. lia.
        -- exists (chars ++ [char]). by rewrite Hc.
        -- exists (tags ++ [tag]). by rewrite Ht.
    + assert (reader.word_index st !! char = None) as Hnone.
      { by apply eq_None_not_Some. }
      assert (reader.index_word st !! reader.nwords st = None) as Hfresh.
      { apply eq_None_not_Some. rewrite Hdense. lia. }
      assert (∀ c, is_Some (reader.word_index st !! c) →
                   is_Some (<[char := reader.nwords st]>
                              (reader.word_index st) !! c)) as Hmono.
      { intros c Hc'. rewrite lookup_insert_is_Some.
        destruct (decide (char = c)); [by left|by right]. }
      split; cbn [reader.word_index reader.index_word reader.nwords
                  reader.sentences reader.sentence reader.labels
                  reader.label].
      * intros c k. rewrite !lookup_insert_Some, <- Hinv. split.
        -- intros [[<- <-]|[Hne Hck]]; [by left|]. right. split; [|done].
           intros <-. apply Hinv in Hck. rewrite Hfresh in Hck. done.
        -- intros [[<- <-]|[Hne Hck]]; [by left|]. right. split; [|done].
           intros <-. rewrite Hnone in Hck. done.
      * intros k. rewrite lookup_insert_is_Some, Hdense.
        destruct (decide (reader.nwords st = k)); [|lia].
        split; [lia|by left].
      * rewrite lookup_insert_ne; [done|]. intros ->.
        rewrite Hs in Hnone. done.
      * rewrite lookup_insert_ne; [done|]. intros ->.
        rewrite He in Hnone. done.
      * eapply Forall_impl; [exact Hk|]. intros s Hs'.
        eapply Forall_impl; [exact Hs'|]. exact Hmono.
      * apply Forall_app. split.
        -- eapply Forall_impl; [exact Hko|]. exact Hmono.
        -- apply Forall_cons_2; [|done]. by rewrite lookup_insert_eq.
      * done.
      * split_and!.
        -- rewrite !length_app. simpl. lia.
        -- exists (chars ++ [char]). by rewrite Hc.
        -- exists (tags ++ [tag]). by rewrite Ht.
Qed.

Lemma read_lines_inv (lines : list (list N)) :
  match read_lines isspace lines with
  | Ok st => reader_inv st
  | Err e => e = ValueError
  end.
Proof.
  unfold read_lines.
  apply (foldM_inv_cases reader_inv (λ e, e = ValueError)).
  - apply reader_init_inv.
  - intros line st _ Hst. by apply read_line_inv.
Qed.

End reader_facts.

Section reader_properties.
Variable isspace : N → bool.

Lemma read_line_readable (line : list N) (st : reader.state) :
  (readable isspace line →
     ∃ st', read_line isspace line st = Ok st'
            ∧ (2 ≤ length line →
               reader.sentences st' = reader.sentences st
               ∧ reader.labels st' = reader.labels st)
            ∧ (length line < 2 →
               length (reader.sentences st')
               = S (length (reader.sentences st))))
  ∧ (¬ readable isspace line → read_line isspace line st = Err ValueError).
Proof.
  unfold readable, read_line. case_bool_decide as Hshort.
  - split; [|tauto]. intros _. eexists. split; [done|].
    split; [lia|]. intros _. simpl. rewrite length_app. simpl. lia.
  - destruct (py_split isspace line) as [|char [|tag [|? ?]]] eqn:E;
      simpl length; (split; [intros [?|?]; try lia|intros ?; try done]).
    + case_bool_decide; eexists; (split; [done|]); (split; [done|lia]).
    + exfalso. tauto.
Qed.

Lemma read_lines_from_count (lines : list (list N)) (st st' : reader.state) :
  foldM (read_line isspace) lines st = Ok st' →
  length (reader.sentences st')
  = length (reader.sentences st) + length (short_lines lines).
Proof.
  revert st. induction lines as [|line lines IH]; intros st Hrun.
  { injection Hrun as <-. simpl. lia. }
  simpl in Hrun. apply bind_inv_Ok in Hrun as (st1 & H1 & Hrun).
  rewrite (IH st1 Hrun). unfold short_lines. rewrite filter_cons.
  destruct (decide (readable isspace line)) as [Hr|Hr].
  - destruct (proj1 (read_line_readable line st) Hr) as (st2 & E & Hlong & Hs).
    rewrite E in H1. injection H1 as ->.
    destruct (decide (length line < 2)) as [Hshort|Hlong'].
    + rewrite (Hs Hshort). simpl. lia.
    + destruct Hlong as [-> _]; [lia|]. lia.
  - rewrite (proj2 (read_line_readable line st) Hr) in H1. done.
Qed.

Lemma read_lines_from_readable (lines : list (list N)) (st : reader.state) :
  (Forall (readable isspace) lines →
     ∃ st', foldM (read_line isspace) lines st = Ok st')
  ∧ (¬ Forall (readable isspace) lines →
       foldM (read_line isspace) lines st = Err ValueError).
Proof.
  revert st. induction lines as [|line lines IH]; intros st.
  { split; [by exists st|]. intros H. destruct H. constructor. }
  simpl. destruct (decide (readable isspace line)) as [Hr|Hr].
  - destruct (proj1 (read_line_readable line st) Hr) as (st1 & -> & _).
    rewrite bind_Ok. destruct (IH st1) as [IH1 IH2]. split.
    + intros Hall. apply IH1. by apply Forall_cons_1 in Hall as [_ ?].
    + intros Hnot. apply IH2. intros Hall. apply Hnot. by constructor.
  - rewrite (proj2 (read_line_readable line st) Hr). split; [|done].
    intros Hall. by apply Forall_cons_1 in Hall as [? _].
Qed.

Lemma read_lines_tail (tail : list (list N)) (st : reader.state) :
  Forall (λ line, 2 ≤ length line ∧ length (py_split isspace line) = 2)
         tail →
  ∃ st', foldM (read_line isspace) tail st = Ok st'
         ∧ reader.sentences st' = reader.sentences st
         ∧ reader.labels st' = reader.labels st.
Proof.
  intros Htail.
  apply (foldM_preserve (λ st', reader.sentences st' = reader.sentences st
                              ∧ reader.labels st' = reader.labels st));
    [done|].
  intros line st1 Hin [Hs Hl].
  eapply Forall_forall in Htail as [Hlong Hsplit]; [|done].
  destruct (proj1 (read_line_readable line st1)) as (st2 & E & Hkeep & _).
  { by right. }
  exists st2. split; [done|]. destruct (Hkeep Hlong) as [-> ->]. done.
Qed.

End reader_properties.

(** X12.  Whatever the lines are, the reader either raises [ValueError] or
    ends with a consistent vocabulary: [word_index] and [index_word] are
    inverse to each other, the ids in use are exactly those below [nwords],
    the sentinels keep the ids 0 and 1, and every string of every sentence
    it returns has an id below [nwords]. *)
Theorem reader_vocabulary (isspace : N → bool) (lines : list (list N)) :
  match read_lines isspace lines with
  | Ok st =>
      (∀ c k, reader.word_index st !! c = Some k
              ↔ reader.index_word st !! k = Some c)
      ∧ (∀ k, is_Some (reader.index_word st !! k) ↔ k < reader.nwords st)
      ∧ dict_get (reader.word_index st) start_char = Ok 0
      ∧ dict_get (reader.word_index st) end_char = Ok 1
      ∧ Forall (Forall (λ c, ∃ k, dict_get (reader.word_index st) c = Ok k
                                  ∧ k < reader.nwords st))
               (reader.sentences st)
  | Err e => e = ValueError
  end.
Proof.
  pose proof (read_lines_inv isspace lines) as H.
  destruct (read_lines isspace lines) as [st|e]; [|done].
  destruct H as [Hinv Hdense Hs He Hk _ _ _]. unfold dict_get.
  rewrite Hs, He. split_and!; [done..|].
  eapply Forall_impl; [exact Hk|]. intros s Hs'.
  eapply Forall_impl; [exact Hs'|]. intros c [k Hc]. exists k.
  rewrite Hc. split; [done|]. apply Hdense. exists c. by apply Hinv.
Qed.

(** X13.  The reader returns one sentence and one label list per line
    shorter than two code points.  Each sentence starts with the start
    sentinel and ends with the end sentinel, and its label list has the
    same length and is bracketed by the tag S. *)
Theorem reader_sentences (isspace : N → bool) (lines : list (list N)) :
  match read_lines isspace lines with
  | Ok st =>
      length (reader.sentences st) = length (short_lines lines)
      ∧ Forall2 (λ s l,
           length s = length l
           ∧ (∃ chars, s = start_char :: chars ++ [end_char])
           ∧ (∃ tags, l = ustr_of "S" :: tags ++ [ustr_of "S"]))
         (reader.sentences st) (reader.labels st)
  | Err e => e = ValueError
  end.
Proof.
  pose proof (read_lines_inv isspace lines) as H.
  destruct (read_lines isspace lines) as [st|e] eqn:E; [|done]. split.
  - by rewrite (read_lines_from_count isspace lines _ _ E).
  - apply (inv_shape _ H).
Qed.

(** X14.  The reader raises exactly when some line of two or more code
    points does not split into exactly two fields, and the exception is
    [ValueError]; [train] then stops with it. *)
Theorem reader_ValueError (isspace : N → bool) (fs : dump_outcome)
    (opt : list R → optimizer) (lines : list (list N)) :
  (Forall (readable isspace) lines → ∃ st, read_lines isspace lines = Ok st)
  ∧ (¬ Forall (readable isspace) lines →
       read_lines isspace lines = Err ValueError
       ∧ train_lines isspace fs opt lines = Err ValueError).
Proof.
  destruct (read_lines_from_readable isspace lines reader.init) as [H1 H2].
  split; [exact H1|]. intros Hnot. pose proof (H2 Hnot) as E.
  split; [exact E|]. unfold train_lines, read_lines. by rewrite E.
Qed.

(** X15.  Lines after the last sentence-ending line never reach the
    training data: appending well-formed token lines changes neither the
    sentences nor the label lists the reader returns.  A corpus in which no
    line ends a sentence therefore has no sentence, and [train] raises
    [IndexError] at [sentences[0]]. *)
Theorem trailing_lines_dropped (isspace : N → bool) (fs : dump_outcome)
    (opt : list R → optimizer) (lines tail : list (list N))
    (st : reader.state) :
  read_lines isspace lines = Ok st →
  Forall (λ line, 2 ≤ length line ∧ length (py_split isspace line) = 2)
         tail →
  ∃ st', read_lines isspace (lines ++ tail) = Ok st'
         ∧ reader.sentences st' = reader.sentences st
         ∧ reader.labels st' = reader.labels st
         ∧ (reader.sentences st = [] →
            train_lines isspace fs opt (lines ++ tail) = Err IndexError).
Proof.
  intros Hrun Htail.
  destruct (read_lines_tail isspace tail st Htail) as (st' & E & Hs & Hl).
  assert (read_lines isspace (lines ++ tail) = Ok st') as Hall.
  { unfold read_lines in *. by rewrite foldM_app, Hrun, bind_Ok. }
  exists st'. split_and!; [done..|]. intros Hnil.
  unfold train_lines. rewrite Hall, bind_Ok, Hs, Hnil. done.
Qed.

(** ** From the lines of the corpus to the optimizer *)

Section train_lines_facts.
Variable isspace : N → bool.

Lemma mapM_Ok_map {A B : Type} (f : A → result B) (g : A → B) (l : list A) :
  (∀ a, a ∈ l → f a = Ok (g a)) → mapM f l = Ok (map g l).
Proof.
  induction l as [|a l IH]; intros Hf; [done|]. simpl.
  rewrite (Hf a) by left. rewrite bind_Ok, IH, bind_Ok; [done|].
  intros a' Ha'. apply Hf. by right.
Qed.

Lemma mapM_cases {A B : Type} (f : A → result B) (e : exn) (l : list A) :
  (∀ a, a ∈ l → (∃ b, f a = Ok b) ∨ f a = Err e) →
  (∃ bs, mapM f l = Ok bs) ∨ mapM f l = Err e.
Proof.
  induction l as [|a l IH]; intros Hf; [left; by exists []|]. simpl.
  destruct (Hf a) as [[b ->]| ->]; [by left| |by right]. rewrite bind_Ok.
  destruct IH as [[bs ->]| ->]; [|left; by eexists|by right].
  intros a' Ha'. apply Hf. by right.
Qed.

Lemma mapM_Err_exists {A B : Type} (f : A → result B) (e : exn)
    (l : list A) :
  (∀ a, a ∈ l → (∃ b, f a = Ok b) ∨ f a = Err e) →
  (∃ a, a ∈ l ∧ f a = Err e) → mapM f l = Err e.
Proof.
  induction l as [|a l IH]; intros Hf (a0 & Hin & Ha0).
  { by apply elem_of_nil in Hin. }
  simpl. destruct (Hf a) as [[b E]|E]; [by left| |by rewrite E].
  rewrite E, bind_Ok.
  apply elem_of_cons in Hin as [->|Hin]; [congruence|].
  rewrite IH; [done| |by exists a0]. intros a' Ha'. apply Hf. by right.
Qed.

Lemma tag_index_u_cases (tag : list N) :
  (tag ∈ tag_symbols → ∃ k, tag_index_u tag = Ok k ∧ k < ntags)
  ∧ (tag ∉ tag_symbols → tag_index_u tag = Err KeyError).
Proof.
  unfold tag_index_u, tag_symbols, ntags.
  rewrite !elem_of_cons, elem_of_nil.
  repeat case_decide; split; intros Hsym; try tauto;
    eexists; (split; [done|lia]).
Qed.

Lemma encode_sentences_Ok (st : reader.state) :
  reader_inv st →
  encode_sentences st
  = Ok (map (map (λ c, default 0 (reader.word_index st !! c)))
            (reader.sentences st)).
Proof.
  intros Hinv. unfold encode_sentences. apply mapM_Ok_map. intros s Hs.
  apply mapM_Ok_map. intros c Hc.
  pose proof (proj1 (Forall_forall _ _) (inv_known _ Hinv) s Hs) as Hk.
  destruct (proj1 (Forall_forall _ _) Hk c Hc) as [k E].
  unfold dict_get. by rewrite E.
Qed.

Lemma encode_labels_Ok (st : reader.state) :
  Forall (Forall (λ t, t ∈ tag_symbols)) (reader.labels st) →
  encode_labels st
  = Ok (map (map (λ t, match tag_index_u t with Ok k => k | Err _ => 0 end))
            (reader.labels st)).
Proof.
  intros Hl. unfold encode_labels. apply mapM_Ok_map. intros l Hin.
  apply mapM_Ok_map. intros t Ht.
  pose proof (proj1 (Forall_forall _ _) Hl l Hin) as Hk.
  pose proof (proj1 (Forall_forall _ _) Hk t Ht) as Hsym.
  destruct (proj1 (tag_index_u_cases t) Hsym) as (k & -> & _). done.
Qed.

Lemma encode_labels_KeyError (st : reader.state) :
  ¬ Forall (Forall (λ t, t ∈ tag_symbols)) (reader.labels st) →
  encode_labels st = Err KeyError.
Proof.
  intros Hl. unfold encode_labels.
  assert (∀ t, (∃ k, tag_index_u t = Ok k) ∨ tag_index_u t = Err KeyError)
    as Htag.
  { intros t. destruct (decide (t ∈ tag_symbols)) as [Hin|Hout].
    - left. destruct (proj1 (tag_index_u_cases t) Hin) as (k & -> & _).
      by exists k.
    - right. by apply tag_index_u_cases. }
  apply mapM_Err_exists.
  - intros l _. apply mapM_cases. intros t _. apply Htag.
  - apply not_Forall_Exists in Hl; [|apply _].
    apply Exists_exists in Hl as (l & Hin & Hbad). exists l. split; [done|].
    apply mapM_Err_exists; [intros t _; apply Htag|].
    apply not_Forall_Exists in Hbad; [|apply _].
    apply Exists_exists in Hbad as (t & Ht & Hout). exists t.
    split; [done|]. by apply tag_index_u_cases.
Qed.

Lemma Forall_zip_map {A B C D : Type} (P : C * D → Prop)
    (f : A → C) (g : B → D) (ss : list A) (ls : list B) :
  Forall2 (λ s l, P (f s, g l)) ss ls →
  Forall P (zip (map f ss) (map g ls)) ∧
  length (zip (map f ss) (map g ls)) = length ss.
Proof.
  induction 1 as [|s l ss ls H _ [IH1 IH2]]; [by split|]. simpl. split.
  - by constructor.
  - by rewrite IH2.
Qed.

(** The pairs the two comprehensions build from what the reader returns. *)
Lemma encoded_pairs (st : reader.state) (self : LinearCRF) :
  reader_inv st → nwords self = reader.nwords st →
  Forall (Forall (λ t, t ∈ tag_symbols)) (reader.labels st) →
  let data :=
    zip (map (map (λ c, default 0 (reader.word_index st !! c)))
             (reader.sentences st))
        (map (map (λ t, match tag_index_u t with Ok k => k | Err _ => 0 end))
             (reader.labels st)) in
  Forall (parsed_pair self) data
  ∧ length data = length (reader.sentences st)
  ∧ (Forall (λ s, 3 ≤ length s) (reader.sentences st) →
     Forall (well_formed_pair self) data)
  ∧ ((∃ s, s ∈ reader.sentences st ∧ length s = 2) →
     ∃ xy, xy ∈ data ∧ length xy.1 = 2).
Proof.
  intros Hinv Hn Hl data.
  assert (Forall2 (λ s l,
            parsed_pair self
              (map (λ c, default 0 (reader.word_index st !! c)) s,
               map (λ t, match tag_index_u t with
                         | Ok k => k | Err _ => 0 end) l)
            ∧ length s = length l)
          (reader.sentences st) (reader.labels st)) as Hall.
  { pose proof (inv_shape _ Hinv) as Hsh.
    pose proof (inv_known _ Hinv) as Hk.
    revert Hk Hl. induction Hsh as [|s l ss ls (Hlen & (chars & Hs) & _) _ IH];
      intros Hk Hl; [constructor|].
    apply Forall_cons_1 in Hk as [Hk Hks], Hl as [Hl Hls].
    constructor; [|by apply IH]. split; [|done].
    split_and!; cbn [fst snd].
    - intros w (c & -> & Hc)%list_elem_of_fmap.
      destruct (proj1 (Forall_forall _ _) Hk c Hc) as [k E]. rewrite E.
      simpl. rewrite Hn. apply (inv_dense _ Hinv). exists c.
      by apply (inv_inverse _ Hinv).
    - rewrite length_map, Hs. simpl. rewrite length_app. simpl. lia.
    - by rewrite !length_map.
    - apply Forall_forall. intros k (t & -> & Ht)%list_elem_of_fmap.
      pose proof (proj1 (Forall_forall _ _) Hl t Ht) as Hsym.
      by destruct (proj1 (tag_index_u_cases t) Hsym) as (k & -> & ?). }
  split_and!.
  - apply (Forall_zip_map (parsed_pair self)).
    eapply Forall2_impl; [exact Hall|]. by intros s l [? _].
  - apply (Forall_zip_map (parsed_pair self)).
    eapply Forall2_impl; [exact Hall|]. by intros s l [? _].
  - intros Hlong. apply (Forall_zip_map (well_formed_pair self)).
    clear data Hl. revert Hlong.
    induction Hall as [|s l ss ls [Hp Hlen] _ IH]; intros Hlong;
      [constructor|].
    apply Forall_cons_1 in Hlong as [Hs Hlong]. constructor; [|by apply IH].
    destruct Hp as (H1 & H2 & H3 & H4). split_and!; [done| |done..].
    simpl. unfold nwords_of. rewrite length_map. lia.
  - intros (s & Hs & Hlen). clear Hl. subst data. revert Hs.
    induction Hall as [|s0 l ss ls [Hp Hlen0] _ IH]; intros Hs;
      [by apply elem_of_nil in Hs|].
    apply elem_of_cons in Hs as [->|Hs].
    + eexists. split; [simpl; left|]. simpl. by rewrite length_map.
    + destruct (IH Hs) as (xy & Hin & Hxy). exists xy. split; [|done].
      simpl. by right.
Qed.

Lemma train_reaches_optimizer_parsed (fs : dump_outcome)
    (opt : list R → optimizer) (n : nat)
    (data : list (list nat * list nat)) :
  data ≠ [] →
  Forall (parsed_pair (set_train_data init n data)) data →
  ∃ self, feature_space_built self
          ∧ length (weights self) = nfeatures self
          ∧ length (prior_feature_count self) = nfeatures self
          ∧ nwords self = n ∧ train_data self = data ∧ saved self = None
          ∧ train fs opt init n data = train_optimize fs opt self.
Proof.
  intros Hne Hd. unfold train.
  destruct data as [|xy0 data0] eqn:Edata; [done|]. rewrite <- Edata in *.
  replace (get data 0) with (Ok xy0) by (by rewrite Edata). rewrite bind_Ok.
  set (s0 := read_corpus init n data).
  destruct (train_features_built s0) as ([Hfi Hinf Hnf] & Hnw & Hw); [done..|].
  set (s1 := print (print (train_features s0) "Features")
                   "sentence[0] labels[0]").
  assert (feature_space_built s1) as Hb1.
  { split; [exact Hfi|exact Hinf|exact Hnf]. }
  assert (length (prior_feature_count s1) = nfeatures s1) as Hp1.
  { change (nfeatures s1) with (nfeatures (train_features s0)).
    change (prior_feature_count s1)
      with (prior_feature_count (train_features s0)).
    unfold train_features. destruct (enumerate_features s0) as [[fi inf] k].
    simpl. unfold zeros1. by rewrite length_replicate. }
  assert (train_data s1 = data) as Hdata.
  { change (train_data s1) with (train_data (train_features s0)).
    unfold train_features. by destruct (enumerate_features s0) as [[fi inf] k]. }
  assert (Forall (parsed_pair s1) (train_data s1)) as Hd1.
  { rewrite Hdata. eapply Forall_impl; [exact Hd|].
    intros [x y] (Hx & Hrest). split; [|exact Hrest].
    intros w Hw'. change (nwords s1) with (nwords (train_features s0)).
    rewrite Hnw. by apply Hx. }
  destruct (train_prior_sum s1 Hb1 Hp1 Hd1) as (c & -> & Hc & _).
  rewrite bind_Ok. exists (set_prior s1 c). split_and!; [| | | | | |done].
  - split; apply Hb1.
  - exact Hw.
  - exact Hc.
  - exact Hnw.
  - exact Hdata.
  - change (saved (set_prior s1 c)) with (saved (train_features s0)).
    unfold train_features. by destruct (enumerate_features s0) as [[fi inf] k].
Qed.

(** The objective cannot be evaluated on training data that holds a
    sentence without a token. *)
Lemma log_maximum_liklihood_no_token (self : LinearCRF) :
  feature_space_built self → length (weights self) = nfeatures self →
  Forall (parsed_pair self) (train_data self) →
  (∃ xy, xy ∈ train_data self ∧ length xy.1 = 2) →
  log_maximum_liklihood self = Err IndexError.
Proof.
  intros Hb Hw Hd (xy0 & Hin & Hlen). unfold log_maximum_liklihood.
  rewrite (foldM_Err_exists (λ _, True) _ IndexError _ _ xy0); [done..| | |].
  - intros [x y] acc Hxy _.
    eapply Forall_forall in Hd as (Hx & Hn & _ & Hy); [|exact Hxy].
    simpl in *. destruct (decide (length x = 2)) as [H2|H2].
    + right. by rewrite (log_potential_no_token self x y Hb Hw Hx H2).
    + left. rewrite (log_potential_Ok self x y Hb Hw Hx); [|unfold nwords_of; lia|done].
      rewrite bind_Ok. by eexists.
  - done.
  - intros acc _. destruct xy0 as [x y].
    eapply Forall_forall in Hd as (Hx & _); [|exact Hin]. simpl in *.
    by rewrite (log_potential_no_token self x y Hb Hw Hx Hlen).
Qed.

Lemma train_optimize_no_token (fs : dump_outcome)
    (opt : list R → optimizer) (self : LinearCRF) :
  feature_space_built self → length (weights self) = nfeatures self →
  Forall (parsed_pair self) (train_data self) →
  (∃ xy, xy ∈ train_data self ∧ length xy.1 = 2) →
  train_optimize fs opt self = Err IndexError.
Proof.
  intros [Hfi Hinf Hnf] Hw Hd Hex. unfold train_optimize, ncallable.
  cbv zeta.
  rewrite (log_maximum_liklihood_no_token
             (set_weights (print self "Start training!")
                (weights (print self "Start training!")))); [done|..].
  - split; [exact Hfi|exact Hinf|exact Hnf].
  - exact Hw.
  - exact Hd.
  - exact Hex.
Qed.

End train_lines_facts.

Section reader_growth.
Variable isspace : N → bool.

Lemma read_lines_from_prefix (lines : list (list N)) (st st' : reader.state) :
  foldM (read_line isspace) lines st = Ok st' →
  ∃ more, reader.sentences st' = reader.sentences st ++ more.
Proof.
  revert st. induction lines as [|line lines IH]; intros st Hrun.
  { injection Hrun as <-. exists []. by rewrite app_nil_r. }
  simpl in Hrun. apply bind_inv_Ok in Hrun as (st1 & H1 & Hrun).
  destruct (IH st1 Hrun) as (more & ->).
  unfold read_line in H1. case_bool_decide.
  - injection H1 as <-. simpl. rewrite <- app_assoc. by eexists.
  - destruct (py_split isspace line) as [|char [|tag [|? ?]]]; [done..| |done].
    case_bool_decide; injection H1 as <-; simpl; by eexists.
Qed.

Lemma read_short_line (line : list N) (st : reader.state) :
  length line < 2 →
  ∃ st', read_line isspace line st = Ok st'
         ∧ reader.sentences st'
           = reader.sentences st ++ [reader.sentence st ++ [end_char]]
         ∧ reader.sentence st' = [start_char].
Proof.
  intros Hshort. unfold read_line. rewrite bool_decide_eq_true_2 by done.
  by eexists.
Qed.

(** A sentence-ending line at the start of the file, or right after another
    one, closes a sentence that has no token. *)
Lemma read_lines_no_token (pre post : list (list N)) (l : list N)
    (st : reader.state) :
  read_lines isspace (pre ++ l :: post) = Ok st → length l < 2 →
  (pre = [] ∨ ∃ l0, last pre = Some l0 ∧ length l0 < 2) →
  [start_char; end_char] ∈ reader.sentences st.
Proof.
  intros Hrun Hl Hpre. unfold read_lines in Hrun.
  rewrite foldM_app in Hrun. apply bind_inv_Ok in Hrun as (st1 & H1 & Hrun).
  assert (reader.sentence st1 = [start_char]) as Hopen.
  { destruct Hpre as [->|(l0 & Hlast & Hl0)].
    - by injection H1 as <-.
    - apply last_Some in Hlast as (pre' & ->).
      rewrite foldM_app in H1. apply bind_inv_Ok in H1 as (st0 & _ & H1).
      simpl in H1. apply bind_inv_Ok in H1 as (st0' & H1 & [= <-]).
      destruct (read_short_line l0 st0 Hl0) as (st2 & E & _ & Hs).
      rewrite E in H1. by injection H1 as <-. }
  simpl in Hrun. apply bind_inv_Ok in Hrun as (st2 & H2 & Hrun).
  destruct (read_short_line l st1 Hl) as (st2' & E & Hs & _).
  rewrite E in H2. injection H2 as <-.
  destruct (read_lines_from_prefix post st2' st Hrun) as (more & ->).
  rewrite Hs, Hopen. apply elem_of_app. left. apply elem_of_app. right.
  by apply list_elem_of_singleton.
Qed.

End reader_growth.

(** X16.  When the reader returns at least one sentence, every sentence has
    a token between its sentinels and every tag is one of B, I, E, S, the
    training driver gets as far as the optimizer: the model it starts the
    optimizer on has its features enumerated over the reader's vocabulary,
    weight and count vectors of [nfeatures] cells, one well-formed training
    pair per sentence, and nothing saved. *)
Theorem train_lines_reaches_optimizer (isspace : N → bool)
    (fs : dump_outcome) (opt : list R → optimizer) (lines : list (list N))
    (st : reader.state) :
  read_lines isspace lines = Ok st →
  reader.sentences st ≠ [] →
  Forall (λ s, 3 ≤ length s) (reader.sentences st) →
  Forall (Forall (λ t, t ∈ tag_symbols)) (reader.labels st) →
  ∃ self, model_ready self
          ∧ nwords self = reader.nwords st
          ∧ length (train_data self) = length (reader.sentences st)
          ∧ saved self = None
          ∧ train_lines isspace fs opt lines = train_optimize fs opt self.
Proof.
  intros Hrun Hne Hlong Htags.
  pose proof (read_lines_inv isspace lines) as Hinv. rewrite Hrun in Hinv.
  unfold train_lines. rewrite Hrun, bind_Ok.
  destruct (reader.sentences st) as [|s0 ss] eqn:Es; [done|].
  rewrite <- Es in *. replace (get (reader.sentences st) 0) with (Ok s0)
    by (by rewrite Es).
  rewrite bind_Ok, (encode_sentences_Ok st Hinv), bind_Ok.
  rewrite (encode_labels_Ok st Htags), bind_Ok.
  match goal with
  | |- ∃ self, _ ∧ _ ∧ _ ∧ _ ∧ train fs opt init ?n ?d = _ =>
      set (data := d);
      destruct (encoded_pairs st (set_train_data init n data) Hinv eq_refl
                  Htags) as (Hp & Hlen & Hwf & _)
  end.
  fold data in Hp, Hlen, Hwf.
  destruct (train_reaches_optimizer_parsed fs opt (reader.nwords st) data)
    as (self & Hb & Hw & Hpr & Hn & Hd & Hsaved & ->).
  { intros Hnil. rewrite Hnil, Es in Hlen. done. }
  { exact Hp. }
  exists self. split_and!; [|done|by rewrite Hd|done|done].
  split; [done..|]. rewrite Hd.
  eapply Forall_impl; [exact (Hwf Hlong)|].
  intros [x y] (Hx & Hrest). split; [|exact Hrest].
  intros w Hin. rewrite Hn. by apply Hx.
Qed.

Lemma train_lines_reaches_optimizer_witness :
  ∃ self, model_ready self
          ∧ nwords self = reader.nwords (reader_of example_corpus)
          ∧ length (train_data self)
            = length (reader.sentences (reader_of example_corpus))
          ∧ saved self = None
          ∧ train_lines isspace_ascii (Raised TypeError) failing_optimizer
              example_corpus
            = train_optimize (Raised TypeError) failing_optimizer self.
Proof.
  apply (train_lines_reaches_optimizer isspace_ascii (Raised TypeError)
           failing_optimizer example_corpus (reader_of example_corpus)).
  - vm_compute. reflexivity.
  - vm_compute. discriminate.
  - apply (bool_decide_unpack _). vm_compute. reflexivity.
  - apply (bool_decide_unpack _). vm_compute. reflexivity.
Defined.

(** X17.  A sentence-ending line at the very start of the file, or directly
    after another sentence-ending line, gives the training data a sentence
    made of the two sentinels only, and [train] then raises [IndexError] at
    its first evaluation of the objective, before the optimizer runs. *)
Theorem empty_sentence_stops_training (isspace : N → bool)
    (fs : dump_outcome) (opt : list R → optimizer)
    (pre post : list (list N)) (l : list N) (st : reader.state) :
  read_lines isspace (pre ++ l :: post) = Ok st →
  length l < 2 →
  (pre = [] ∨ ∃ l0, last pre = Some l0 ∧ length l0 < 2) →
  Forall (Forall (λ t, t ∈ tag_symbols)) (reader.labels st) →
  [start_char; end_char] ∈ reader.sentences st
  ∧ train_lines isspace fs opt (pre ++ l :: post) = Err IndexError.
Proof.
  intros Hrun Hl Hpre Htags.
  pose proof (read_lines_no_token isspace pre post l st Hrun Hl Hpre) as Hin.
  split; [done|].
  pose proof (read_lines_inv isspace (pre ++ l :: post)) as Hinv.
  rewrite Hrun in Hinv.
  unfold train_lines. rewrite Hrun, bind_Ok.
  destruct (reader.sentences st) as [|s0 ss] eqn:Es;
    [by apply elem_of_nil in Hin|].
  rewrite <- Es in *. replace (get (reader.sentences st) 0) with (Ok s0)
    by (by rewrite Es).
  rewrite bind_Ok, (encode_sentences_Ok st Hinv), bind_Ok.
  rewrite (encode_labels_Ok st Htags), bind_Ok.
  match goal with
  | |- train fs opt init ?n ?d = _ =>
      set (data := d);
      destruct (encoded_pairs st (set_train_data init n data) Hinv eq_refl
                  Htags) as (Hp & Hlen & _ & Hex)
  end.
  fold data in Hp, Hlen, Hex.
  destruct (train_reaches_optimizer_parsed fs opt (reader.nwords st) data)
    as (self & Hb & Hw & Hpr & Hn & Hd & Hsaved & ->).
  { intros Hnil. rewrite Hnil, Es in Hlen. done. }
  { exact Hp. }
  apply train_optimize_no_token; [done..| |].
  - rewrite Hd. eapply Forall_impl; [exact Hp|].
    intros [x y] (Hx & Hrest). split; [|exact Hrest].
    intros w Hw'. rewrite Hn. by apply Hx.
  - rewrite Hd. apply Hex. by exists [start_char; end_char].
Qed.

Lemma empty_sentence_stops_training_witness :
  [start_char; end_char]
    ∈ reader.sentences (reader_of ([] ++ [10%N] :: example_corpus))
  ∧ train_lines isspace_ascii (Raised TypeError) failing_optimizer
      ([] ++ [10%N] :: example_corpus) = Err IndexError.
Proof.
  apply (empty_sentence_stops_training isspace_ascii (Raised TypeError)
           failing_optimizer [] example_corpus [10%N]
           (reader_of ([] ++ [10%N] :: example_corpus))).
  - vm_compute. reflexivity.
  - simpl. lia.
  - by left.
  - apply (bool_decide_unpack _). vm_compute. reflexivity.
Defined.

(** X18.  A tag that is not one of B, I, E, S is accepted by the reader and
    rejected only when the label lists are turned into ids: [train] raises
    [KeyError] there. *)
Theorem unknown_tag_KeyError (isspace : N → bool) (fs : dump_outcome)
    (opt : list R → optimizer) (lines : list (list N)) (st : reader.state) :
  read_lines isspace lines = Ok st →
  reader.sentences st ≠ [] →
  ¬ Forall (Forall (λ t, t ∈ tag_symbols)) (reader.labels st) →
  encode_labels st = Err KeyError
  ∧ train_lines isspace fs opt lines = Err KeyError.
Proof.
  intros Hrun Hne Htags.
  pose proof (read_lines_inv isspace lines) as Hinv. rewrite Hrun in Hinv.
  pose proof (encode_labels_KeyError st Htags) as E. split; [done|].
  unfold train_lines. rewrite Hrun, bind_Ok.
  destruct (reader.sentences st) as [|s0 ss] eqn:Es; [done|].
  rewrite <- Es in *. replace (get (reader.sentences st) 0) with (Ok s0)
    by (by rewrite Es).
  by rewrite bind_Ok, (encode_sentences_Ok st Hinv), bind_Ok, E.
Qed.

Lemma unknown_tag_KeyError_witness :
  encode_labels (reader_of [[97; 32; 88; 10]; [10]]%N) = Err KeyError
  ∧ train_lines isspace_ascii (Raised TypeError) failing_optimizer
      [[97; 32; 88; 10]; [10]]%N
    = Err KeyError.
Proof.
  apply (unknown_tag_KeyError isspace_ascii (Raised TypeError)
           failing_optimizer [[97; 32; 88; 10]; [10]]%N
           (reader_of [[97; 32; 88; 10]; [10]]%N)).
  - vm_compute. reflexivity.
  - vm_compute. discriminate.
  - intros H. apply (bool_decide_pack _) in H. vm_compute in H. done.
Defined.

Lemma trailing_lines_dropped_witness :
  ∃ st', read_lines isspace_ascii
           (take 3 example_corpus ++ drop 3 example_corpus) = Ok st'
         ∧ reader.sentences st'
           = reader.sentences (reader_of (take 3 example_corpus))
         ∧ reader.labels st'
           = reader.labels (reader_of (take 3 example_corpus))
         ∧ (reader.sentences (reader_of (take 3 example_corpus)) = [] →
            train_lines isspace_ascii (Raised TypeError) failing_optimizer
              (take 3 example_corpus ++ drop 3 example_corpus)
            = Err IndexError).
Proof.
  apply (trailing_lines_dropped isspace_ascii (Raised TypeError)
           failing_optimizer (take 3 example_corpus) (drop 3 example_corpus)
           (reader_of (take 3 example_corpus))).
  - vm_compute. reflexivity.
  - apply (bool_decide_unpack _). vm_compute. reflexivity.
Defined.

(** ** The pairwise marginals of model_gradient_x *)

Section marginals.
Local Open Scope R_scope.

Lemma np_sum_tabulate2 (h : nat → nat → R) :
  np_sum (map np_sum (tabulate2 h))
  = np_sum (map (λ a, np_sum (map (h a) (seq 0 ntags))) (seq 0 ntags)).
Proof. unfold tabulate2, tabulate1. by rewrite map_map. Qed.

Lemma exp_z_value (m : nat → nat → nat → R) (n i : nat) :
  (1 ≤ i ≤ n)%nat →
  np_sum (map (λ t, exp (alpha_entry m i t + beta_entry m n i t))
              (seq 0 ntags))
  = exp (z_value m n).
Proof.
  intros Hi. rewrite <- (forward_backward_sum m n i Hi).
  rewrite exp_ln by apply np_sum_exp_tabulate1_pos.
  by rewrite np_sum_exp_tabulate1.
Qed.

Lemma exp_alpha_entry (m : nat → nat → nat → R) (i b : nat) :
  (2 ≤ i)%nat →
  np_sum (map (λ a, exp (alpha_entry m (i - 1) a + m i a b)) (seq 0 ntags))
  = exp (alpha_entry m i b).
Proof.
  intros Hi. rewrite (alpha_entry_step m i b Hi).
  rewrite exp_ln by apply np_sum_exp_tabulate1_pos.
  by rewrite np_sum_exp_tabulate1.
Qed.

(** The cells of slab [i] of [P] add up to 1 from the second position
    on. *)
Lemma marginal_slab (m : nat → nat → nat → R) (n i : nat) :
  (2 ≤ i ≤ n)%nat →
  np_sum (map np_sum (tabulate2 (λ a b,
    exp (P_entry m (alpha_entry m) (beta_entry m n) (z_value m n) i a b))))
  = 1.
Proof.
  intros Hi. rewrite np_sum_tabulate2, np_sum_swap.
  rewrite (np_sum_ext _ (λ b, exp (- z_value m n)
             * exp (alpha_entry m i b + beta_entry m n i b))).
  - rewrite np_sum_scale_l, (exp_z_value m n i) by lia.
    rewrite <- exp_plus, Rplus_opp_l. apply exp_0.
  - intros b _.
    rewrite (np_sum_ext _ (λ a, exp (beta_entry m n i b - z_value m n)
               * exp (alpha_entry m (i - 1) a + m i a b))).
    + rewrite np_sum_scale_l, (exp_alpha_entry m i b) by lia.
      rewrite <- !exp_plus. f_equal. lra.
    + intros a _. unfold P_entry. destruct i as [|i]; [lia|].
      rewrite bool_decide_eq_false_2 by lia. cbn [andb].
      rewrite <- exp_plus. f_equal. lra.
Qed.

(** At the first position the row of the start tag adds up to 1. *)
Lemma marginal_first_row (m : nat → nat → nat → R) (n : nat) :
  (1 ≤ n)%nat →
  np_sum (tabulate1 (λ b,
    exp (P_entry m (alpha_entry m) (beta_entry m n) (z_value m n)
           1 start_index b)))
  = 1.
Proof.
  intros Hn. unfold tabulate1.
  rewrite (np_sum_ext _ (λ b, exp (- z_value m n)
             * exp (alpha_entry m 1 b + beta_entry m n 1 b))).
  - rewrite np_sum_scale_l, (exp_z_value m n 1) by lia.
    rewrite <- exp_plus, Rplus_opp_l. apply exp_0.
  - intros b _. unfold P_entry.
    rewrite (bool_decide_eq_false_2 (start_index ≠ start_index)) by tauto.
    rewrite andb_false_r, <- exp_plus. f_equal. cbn [alpha_entry Nat.sub].
    lra.
Qed.

End marginals.

(** X19.  The table [P] of [model_gradient_x] holds pairwise marginals: from
    the second position on, the [ntags * ntags] cells of [P[i]] add up to
    1, and at the first position the row of the start tag adds up to 1. *)
Theorem pairwise_marginals_sum_to_one (self : LinearCRF) (x : list nat) :
  feature_space_built self → length (weights self) = nfeatures self →
  in_vocabulary self x → 1 ≤ nwords_of x →
  ∃ M alpha beta z P,
    log_potential_matrix self x = Ok M
    ∧ log_alpha self x (Some M) = Ok alpha
    ∧ log_beta self x (Some M) = Ok beta
    ∧ log_z self x (Some M) (Some alpha) = Ok z
    ∧ gradient_P x M alpha beta z = Ok P
    ∧ (∀ i, 2 ≤ i ≤ nwords_of x →
         ∃ Pi, P !! i = Some Pi ∧ np_sum (map np_sum Pi) = 1%R)
    ∧ (∃ P1 row, P !! 1 = Some P1 ∧ P1 !! start_index = Some row
                 ∧ np_sum row = 1%R).
Proof.
  intros Hb Hw Hx Hn.
  destruct (model_gradient_x_pipeline self x Hb Hw Hx Hn)
    as (HM & Ha & Hbeta & Hz & HP & _).
  eexists _, _, _, _, _.
  split_and!; [exact HM|exact Ha|exact Hbeta|exact Hz|exact HP|..].
  - intros i Hi. eexists. split; [apply lookup_tabulate3; lia|].
    by apply marginal_slab.
  - eexists _, _. split_and!.
    + apply lookup_tabulate3. lia.
    + apply lookup_tabulate2. unfold start_index, ntags. lia.
    + by apply marginal_first_row.
Qed.

Lemma pairwise_marginals_sum_to_one_witness :
  ∃ M alpha beta z P,
    log_potential_matrix example_model [0; 2; 2; 1] = Ok M
    ∧ log_alpha example_model [0; 2; 2; 1] (Some M) = Ok alpha
    ∧ log_beta example_model [0; 2; 2; 1] (Some M) = Ok beta
    ∧ log_z example_model [0; 2; 2; 1] (Some M) (Some alpha) = Ok z
    ∧ gradient_P [0; 2; 2; 1] M alpha beta z = Ok P
    ∧ (∀ i, 2 ≤ i ≤ nwords_of [0; 2; 2; 1] →
         ∃ Pi, P !! i = Some Pi ∧ np_sum (map np_sum Pi) = 1%R)
    ∧ (∃ P1 row, P !! 1 = Some P1 ∧ P1 !! start_index = Some row
                 ∧ np_sum row = 1%R).
Proof.
  apply (pairwise_marginals_sum_to_one example_model [0; 2; 2; 1]).
  - apply example_model_built.
  - apply example_model_weights.
  - apply example_in_vocabulary. repeat constructor.
  - vm_compute. lia.
Defined.

(** ** The two tag dictionaries *)

Section tag_dictionaries.

Lemma ustr_of_inj (c1 c2 : string) : ustr_of c1 = ustr_of c2 → c1 = c2.
Proof.
  unfold ustr_of. intros H.
  rewrite <- (String.string_of_list_ascii_of_string c1).
  rewrite <- (String.string_of_list_ascii_of_string c2). f_equal.
  revert H. generalize (String.list_ascii_of_string c1).
  generalize (String.list_ascii_of_string c2).
  intros l2 l1. revert l2. induction l1 as [|a l1 IH]; intros [|b l2] H;
    try discriminate; [done|].
  injection H as Hab Hl. f_equal; [|by apply IH].
  rewrite <- (Ascii.ascii_N_embedding a), <- (Ascii.ascii_N_embedding b).
  by rewrite Hab.
Qed.

End tag_dictionaries.

(** X20.  The dictionaries [index_tag] and [tag_index] of [__init__] are
    inverse to each other, their ids are exactly those below [ntags], the
    start and end tags both have the id [start_index = end_index], and a tag
    read from the corpus file gets the id [tag_index] gives its symbol. *)
Theorem tag_dictionaries_inverse :
  (∀ k c, index_tag k = Ok c ↔ tag_index c = Ok k)
  ∧ (∀ k, (∃ c, index_tag k = Ok c) ↔ k < ntags)
  ∧ tag_index start_tag = Ok start_index
  ∧ tag_index end_tag = Ok end_index
  ∧ (∀ c, tag_index_u (ustr_of c) = tag_index c).
Proof.
  split_and!.
  - intros k c. split.
    + destruct k as [|[|[|[|k]]]]; simpl; intros [= <-]; done.
    + unfold tag_index. repeat case_decide; intros [= <-]; by subst.
  - intros k. unfold ntags. split.
    + intros [c Hc]. destruct k as [|[|[|[|k]]]]; try lia. done.
    + intros Hk. destruct k as [|[|[|[|k]]]]; try lia; by eexists.
  - done.
  - done.
  - intros c. unfold tag_index_u, tag_index.
    repeat case_decide; try done; subst;
      match goal with
      | H : ustr_of _ = ustr_of _ |- _ => apply ustr_of_inj in H; by subst
      | H : ustr_of ?a ≠ ustr_of ?a |- _ => by destruct H
      end.
Qed.

(** ** log_potential and the length of the label list *)

(** X21.  [log_potential] takes the number of transitions from the label
    list and never compares it with the sentence: for an in-vocabulary
    sentence with at least one token and any list [y] of tags below
    [ntags], whatever its length, it returns the value of its loop over the
    first [len(y) - 2] transitions minus [log_z(x)]; for a list of fewer
    than three labels that is [0 - log_z(x)]. *)
Theorem log_potential_length_unchecked (self : LinearCRF) (x y : list nat) :
  feature_space_built self → length (weights self) = nfeatures self →
  in_vocabulary self x → 1 ≤ nwords_of x → Forall (λ t, t < ntags) y →
  ∃ lp z, path_potential self x y = Ok lp
          ∧ log_z self x None None = Ok z
          ∧ log_potential self x y None None = Ok (lp - z)%R
          ∧ (length y < 3 → lp = 0%R).
Proof.
  intros Hb Hw Hx Hn Hy.
  exists (path_value self x y),
         (z_value (potential_entry self x) (nwords_of x)).
  split_and!.
  - by apply path_potential_Ok.
  - unfold log_z. simpl default_to.
    rewrite (log_potential_matrix_Ok self x Hb Hw Hx), bind_Ok.
    rewrite (log_alpha_tabulate self x _ Hn), bind_Ok.
    apply (log_z_tabulate self x _ Hn).
  - by apply log_potential_Ok.
  - intros Hlen. unfold path_value, py_range, nwords_of.
    replace (length y - 2 + 1 - 1) with 0 by lia. done.
Qed.

Lemma log_potential_length_unchecked_witness :
  ∃ lp z, path_potential example_model [0; 2; 1] [3; 0; 1; 2; 3] = Ok lp
          ∧ log_z example_model [0; 2; 1] None None = Ok z
          ∧ log_potential example_model [0; 2; 1] [3; 0; 1; 2; 3] None None
            = Ok (lp - z)%R
          ∧ (length [3; 0; 1; 2; 3] < 3 → lp = 0%R).
Proof.
  apply (log_potential_length_unchecked example_model [0; 2; 1]
           [3; 0; 1; 2; 3]).
  - apply example_model_built.
  - apply example_model_weights.
  - apply example_in_vocabulary. repeat constructor.
  - vm_compute. lia.
  - apply (bool_decide_unpack _). vm_compute. reflexivity.
Defined.
